(** * A shallow embedding of the S3-backed git engine of better-unc/mono

    The development follows the Rust sources of [apps/api/src/git]
    ([objects.rs], [pack.rs], [refs.rs]), the [info_refs] route of
    [apps/api/src/routes/git.rs], and the commit walk of
    [apps/api_old/src/git/handler.rs] with its caller
    [build_branch_metadata] in [apps/api_old/src/routes/git.rs].

    Conventions.
    - A Rust byte buffer ([&[u8]], [Vec<u8>]) is a [list byte]; a Rust
      string ([&str], [String]) is the [list byte] of its UTF-8 encoding, so
      that [len()], byte slicing and [as_bytes()] are the list operations.
    - [usize]/[u32]/[u64] values are [Z] (or [N]); where the Rust code could
      wrap, the wrap-around is written out.
    - A task that panics (an out-of-range slice, a stack overflow, a
      capacity overflow) or never returns (a deadlock) is [None] at the
      outermost [option] layer of the function where that can happen. *)

From Stdlib Require Import ZArith Lia Strings.String Strings.Ascii Strings.Byte.
From stdpp Require Import base list gmap strings sorting.

Open Scope Z_scope.

(* ================================================================== *)
(** ** Bytes, strings and the primitive operations of [core]/[std]      *)
(* ================================================================== *)

Abbreviation bytes := (list byte).

#[global] Instance byte_eq_dec : EqDecision byte := Byte.byte_eq_dec.
#[global] Program Instance byte_countable : Countable byte :=
  {| encode b := encode (Byte.to_N b);
     decode p := n ← decode p; Byte.of_N n |}.
Next Obligation. intros b. simpl. rewrite decode_encode. simpl. apply Byte.of_to_N. Qed.

(** The numeric value of a byte. *)
Definition bv (b : byte) : Z := Z.of_N (Byte.to_N b).

(** The byte [z mod 256] ([as u8] in Rust). *)
Definition byte_of_Z (z : Z) : byte :=
  match Byte.of_N (Z.to_N (z mod 256)) with Some b => b | None => x00 end.

(** A string literal of the source, as its bytes. *)
Definition lit (s : string) : bytes := list_byte_of_string s.

Definition bytes_of_Zs (zs : list Z) : bytes := map byte_of_Z zs.

(** [usize] is a 64-bit unsigned integer. *)
Definition usize_mask : Z := 2 ^ 64 - 1.

(** [isize::MAX] on a 64-bit target: the largest number of bytes a [Vec<u8>]
    may reserve; [Vec::with_capacity(n)] panics ("capacity overflow") for a
    larger [n]. Memory exhaustion below that bound (the allocator refusing
    the request, which aborts the process) is not modelled: allocations of
    at most [isize::MAX] bytes are taken to succeed. *)
Definition isize_max : Z := 2 ^ 63 - 1.

(** [x << s] on [usize] in a release build: the shift amount is taken
    modulo 64 and the bits shifted past bit 63 are lost. (A debug build
    panics on a shift amount of 64 or more instead.) *)
Definition usize_shl (x s : Z) : Z := Z.land (Z.shiftl x (s mod 64)) usize_mask.

(** [data.get(pos).copied().unwrap_or(0)] followed by [pos += 1], on the
    suffix [data[pos..]] (which stays empty once [pos] passed the end). *)
Definition get_or_zero (rest : bytes) : Z * bytes :=
  match rest with
  | [] => (0, [])
  | b :: r => (bv b, r)
  end.

(* ================================================================== *)
(** ** Delta decoding: [read_varint] and [apply_delta] (objects.rs)     *)
(* ================================================================== *)

(** The loop of [read_varint]: [rest] is [data[pos..]]. *)
Fixpoint read_varint_loop (rest : bytes) (value shift : Z) (pos : nat) : option (Z * nat) :=
  match rest with
  | [] => None
  | b :: rest' =>
      let value' := Z.lor value (usize_shl (Z.land (bv b) 127) shift) in
      if Z.land (bv b) 128 =? 0 then Some (value', S pos)
      else read_varint_loop rest' value' (shift + 7) (S pos)
  end.

(** [read_varint(data) -> Option<(usize, usize)>]: the value and the
    number of bytes read. *)
Definition read_varint (data : bytes) : option (Z * nat) :=
  match data with
  | [] => None
  | _ => read_varint_loop data 0 0 O
  end.

(** The operand bytes of a COPY instruction, in the order of the source:
    four offset bytes selected by bits 0..3 of [cmd], three size bytes
    selected by bits 4..6. Returns [(copy_offset, copy_size, rest)]. *)
Definition copy_operands (cmd : Z) (rest : bytes) : Z * Z * bytes :=
  let '(o, rest) := if Z.land cmd 1 =? 0 then (0, rest)
                    else let '(b, r) := get_or_zero rest in (b, r) in
  let '(o, rest) := if Z.land cmd 2 =? 0 then (o, rest)
                    else let '(b, r) := get_or_zero rest in (Z.lor o (Z.shiftl b 8), r) in
  let '(o, rest) := if Z.land cmd 4 =? 0 then (o, rest)
                    else let '(b, r) := get_or_zero rest in (Z.lor o (Z.shiftl b 16), r) in
  let '(o, rest) := if Z.land cmd 8 =? 0 then (o, rest)
                    else let '(b, r) := get_or_zero rest in (Z.lor o (Z.shiftl b 24), r) in
  let '(s, rest) := if Z.land cmd 16 =? 0 then (0, rest)
                    else let '(b, r) := get_or_zero rest in (b, r) in
  let '(s, rest) := if Z.land cmd 32 =? 0 then (s, rest)
                    else let '(b, r) := get_or_zero rest in (Z.lor s (Z.shiftl b 8), r) in
  let '(s, rest) := if Z.land cmd 64 =? 0 then (s, rest)
                    else let '(b, r) := get_or_zero rest in (Z.lor s (Z.shiftl b 16), r) in
  (o, s, rest).

(** [base[a .. a + n]] (the caller has checked [a + n <= base.len()]). *)
Definition slice (a n : Z) (l : bytes) : bytes :=
  take (Z.to_nat n) (drop (Z.to_nat a) l).

(** The instruction loop [while pos < delta.len() { ... }] of
    [apply_delta]; [rest] is [delta[pos..]] and [result] the bytes built so
    far. Every iteration consumes at least the command byte, so
    [fuel = rest.len()] lets the loop run to its end. *)
Fixpoint apply_delta_loop (fuel : nat) (base rest result : bytes) : option bytes :=
  match fuel with
  | O => match rest with [] => Some result | _ => None end
  | S fuel' =>
      match rest with
      | [] => Some result
      | c :: rest1 =>
          let cmd := bv c in
          if negb (Z.land cmd 128 =? 0) then
            let '(copy_offset, copy_size0, rest2) := copy_operands cmd rest1 in
            let copy_size := if copy_size0 =? 0 then 65536 else copy_size0 in
            if Z.of_nat (length base) <? copy_offset + copy_size then None
            else apply_delta_loop fuel' base rest2
                   (result ++ slice copy_offset copy_size base)
          else if negb (cmd =? 0) then
            let insert_size := Z.to_nat cmd in
            if (length rest1 <? insert_size)%nat then None
            else apply_delta_loop fuel' base (drop insert_size rest1)
                   (result ++ take insert_size rest1)
          else None
      end
  end.

(** [apply_delta(base, delta) -> Option<Vec<u8>>]. The outer [None] is
    the panic of [Vec::with_capacity(dst_size)] for a declared target size
    above [isize::MAX]; [Some r] is the function's return value [r]. *)
Definition apply_delta (base delta : bytes) : option (option bytes) :=
  match read_varint delta with
  | None => Some None
  | Some (_src_size, n1) =>
      match read_varint (drop n1 delta) with
      | None => Some None
      | Some (dst_size, n2) =>
          if isize_max <? dst_size then None
          else
            let rest := drop (n1 + n2) delta in
            Some (match apply_delta_loop (length rest) base rest [] with
                  | None => None
                  | Some result =>
                      if negb (Z.of_nat (length result) =? dst_size) then None
                      else Some result
                  end)
      end
  end.

(** *** The delta format of spec §3, for comparison with [apply_delta]

    The following definitions follow the words of the spec and of the claim
    about [apply_delta], not the code: a delta is two varints (source size,
    target size) and a stream of instructions; a byte with the high bit set
    is a COPY whose low 7 bits select up to four little-endian offset bytes
    and up to three size bytes (an unselected byte, or one past the end of
    the delta, counts as 0; a size of 0 means [0x10000]); a non-zero byte
    below [0x80] is an INSERT of that many literal bytes, which must lie in
    the delta; the byte [0x00] is illegal. *)
Inductive delta_instr : Type :=
| DCopy (offset size : Z)
| DInsert (literal : bytes).

(** [k] operand bytes selected by bits [bit], [bit+1], ... of [cmd],
    combined little-endian. *)
Fixpoint operand_field (cmd bit : Z) (k : nat) (rest : bytes) : Z * bytes :=
  match k with
  | O => (0, rest)
  | S k' =>
      let '(b, rest1) := if Z.testbit cmd bit then get_or_zero rest else (0, rest) in
      let '(v, rest2) := operand_field cmd (bit + 1) k' rest1 in
      (b + 256 * v, rest2)
  end.

Definition copy_fields (cmd : Z) (rest : bytes) : Z * Z * bytes :=
  let '(off, rest1) := operand_field cmd 0 4 rest in
  let '(size, rest2) := operand_field cmd 4 3 rest1 in
  (off, size, rest2).

(** [DecodesTo stream instrs]: the instruction stream decodes to [instrs]. *)
Inductive DecodesTo : bytes -> list delta_instr -> Prop :=
| decodes_end : DecodesTo [] []
| decodes_copy c rest off size rest' instrs :
    128 <= bv c ->
    copy_fields (bv c) rest = (off, size, rest') ->
    DecodesTo rest' instrs ->
    DecodesTo (c :: rest) (DCopy off (if size =? 0 then 65536 else size) :: instrs)
| decodes_insert c literal rest instrs :
    1 <= bv c < 128 ->
    length literal = Z.to_nat (bv c) ->
    DecodesTo rest instrs ->
    DecodesTo (c :: literal ++ rest) (DInsert literal :: instrs).

(** A COPY stays inside the base: [copy_offset + copy_size <= base.len()]. *)
Definition copy_in_bounds (base : bytes) (i : delta_instr) : Prop :=
  match i with
  | DCopy off size => off + size <= Z.of_nat (length base)
  | DInsert _ => True
  end.

(** The bytes the instructions produce. *)
Fixpoint delta_output (base : bytes) (instrs : list delta_instr) : bytes :=
  match instrs with
  | [] => []
  | DCopy off size :: instrs' => slice off size base ++ delta_output base instrs'
  | DInsert l :: instrs' => l ++ delta_output base instrs'
  end.

(* ================================================================== *)
(** ** UTF-8 strings: [from_utf8], [char::is_whitespace], [trim]         *)
(* ================================================================== *)

Definition is_cont (b : byte) : bool := (128 <=? bv b) && (bv b <=? 191).

Definition in_range (lo hi : Z) (b : byte) : bool := (lo <=? bv b) && (bv b <=? hi).

(** The validity check of [core::str::from_utf8] (RFC 3629: no overlong
    forms, no surrogates, nothing above U+10FFFF). *)
Fixpoint utf8_valid (l : bytes) : bool :=
  match l with
  | [] => true
  | b0 :: r0 =>
      let v := bv b0 in
      if v <? 128 then utf8_valid r0
      else if (194 <=? v) && (v <=? 223) then
        match r0 with
        | b1 :: r1 => is_cont b1 && utf8_valid r1
        | [] => false
        end
      else if (224 <=? v) && (v <=? 239) then
        match r0 with
        | b1 :: b2 :: r2 =>
            (if v =? 224 then in_range 160 191 b1
             else if v =? 237 then in_range 128 159 b1
             else is_cont b1) && is_cont b2 && utf8_valid r2
        | _ => false
        end
      else if (240 <=? v) && (v <=? 244) then
        match r0 with
        | b1 :: b2 :: b3 :: r3 =>
            (if v =? 240 then in_range 144 191 b1
             else if v =? 244 then in_range 128 143 b1
             else is_cont b1) && is_cont b2 && is_cont b3 && utf8_valid r3
        | _ => false
        end
      else false
  end.

(** [std::str::from_utf8(bytes)] / [String::from_utf8(bytes)], [Ok] as [Some]. *)
Definition from_utf8 (bs : bytes) : option bytes :=
  if utf8_valid bs then Some bs else None.

(** The byte length of a whitespace character ([char::is_whitespace]:
    U+0009..U+000D, U+0020, U+0085, U+00A0, U+1680, U+2000..U+200A,
    U+2028, U+2029, U+202F, U+205F, U+3000) at the start of [l], or 0. *)
Definition ws_prefix_len (l : bytes) : nat :=
  match l with
  | [] => 0%nat
  | b0 :: r0 =>
      let v0 := bv b0 in
      if ((9 <=? v0) && (v0 <=? 13)) || (v0 =? 32) then 1%nat
      else match r0 with
        | [] => 0%nat
        | b1 :: r1 =>
            let v1 := bv b1 in
            if (v0 =? 194) && ((v1 =? 133) || (v1 =? 160)) then 2%nat
            else match r1 with
              | [] => 0%nat
              | b2 :: _ =>
                  let v2 := bv b2 in
                  if (v0 =? 225) && (v1 =? 154) && (v2 =? 128) then 3%nat
                  else if (v0 =? 226) && (v1 =? 128) &&
                          (((128 <=? v2) && (v2 <=? 138)) || (v2 =? 168) ||
                           (v2 =? 169) || (v2 =? 175)) then 3%nat
                  else if (v0 =? 226) && (v1 =? 129) && (v2 =? 159) then 3%nat
                  else if (v0 =? 227) && (v1 =? 128) && (v2 =? 128) then 3%nat
                  else 0%nat
              end
        end
  end.

(** The byte length of a whitespace character at the end of [l], or 0
    (the same characters; in valid UTF-8 a suffix that encodes one of them
    is that last character). *)
Definition ws_suffix_len (l : bytes) : nat :=
  let r := rev l in
  match r with
  | [] => 0%nat
  | b0 :: r0 =>
      let v0 := bv b0 in
      if ((9 <=? v0) && (v0 <=? 13)) || (v0 =? 32) then 1%nat
      else match r0 with
        | [] => 0%nat
        | b1 :: r1 =>
            let v1 := bv b1 in
            if (v1 =? 194) && ((v0 =? 133) || (v0 =? 160)) then 2%nat
            else match r1 with
              | [] => 0%nat
              | b2 :: _ =>
                  let v2 := bv b2 in
                  if (v2 =? 225) && (v1 =? 154) && (v0 =? 128) then 3%nat
                  else if (v2 =? 226) && (v1 =? 128) &&
                          (((128 <=? v0) && (v0 <=? 138)) || (v0 =? 168) ||
                           (v0 =? 169) || (v0 =? 175)) then 3%nat
                  else if (v2 =? 226) && (v1 =? 129) && (v0 =? 159) then 3%nat
                  else if (v2 =? 227) && (v1 =? 128) && (v0 =? 128) then 3%nat
                  else 0%nat
              end
        end
  end.

Fixpoint trim_start_go (fuel : nat) (l : bytes) : bytes :=
  match fuel with
  | O => l
  | S f => match ws_prefix_len l with O => l | n => trim_start_go f (drop n l) end
  end.

Fixpoint trim_end_go (fuel : nat) (l : bytes) : bytes :=
  match fuel with
  | O => l
  | S f => match ws_suffix_len l with
           | O => l
           | n => trim_end_go f (take (length l - n) l)
           end
  end.

(** [str::trim]: leading and trailing whitespace removed. *)
Definition trim (s : bytes) : bytes :=
  let s1 := trim_start_go (length s) s in
  trim_end_go (length s1) s1.

(** [str::starts_with]. *)
Fixpoint starts_with (s p : bytes) {struct p} : bool :=
  match p, s with
  | [], _ => true
  | c :: p', d :: s' => bool_decide (c = d) && starts_with s' p'
  | _ :: _, [] => false
  end.

(** [str::strip_prefix]. *)
Definition strip_prefix (s p : bytes) : option bytes :=
  if starts_with s p then Some (drop (length p) s) else None.

Definition bytes_eqb (a b : bytes) : bool := bool_decide (a = b).

(** [str::is_char_boundary]. *)
Definition is_char_boundary (s : bytes) (i : nat) : bool :=
  (i =? 0)%nat || (i =? length s)%nat ||
  match s !! i with Some b => negb (is_cont b) | None => false end.

(** [&s[a..b]] on a [str]: [None] is the panic on an out-of-range or
    non-boundary index. *)
Definition str_slice (s : bytes) (a b : nat) : option bytes :=
  if (a <=? b)%nat && (b <=? length s)%nat && is_char_boundary s a && is_char_boundary s b
  then Some (take (b - a) (drop a s))
  else None.

(* ================================================================== *)
(** ** pkt-line framing                                                 *)
(* ================================================================== *)

Definition hex_digit_value (b : byte) : option Z :=
  let v := bv b in
  if (48 <=? v) && (v <=? 57) then Some (v - 48)
  else if (97 <=? v) && (v <=? 102) then Some (v - 87)
  else if (65 <=? v) && (v <=? 70) then Some (v - 55)
  else None.

(** The digit loop of [u16::from_str_radix(_, 16)] with its overflow check. *)
Fixpoint u16_digits (acc : Z) (l : bytes) : option Z :=
  match l with
  | [] => Some acc
  | d :: r =>
      match hex_digit_value d with
      | None => None
      | Some v => let acc' := acc * 16 + v in
                  if 65535 <? acc' then None else u16_digits acc' r
      end
  end.

(** [u16::from_str_radix(s, 16)]: an optional leading [+], then hex digits
    of either case. *)
Definition u16_from_str_radix16 (s : bytes) : option Z :=
  match s with
  | [] => None
  | [c] => if (bv c =? 43) || (bv c =? 45) then None else u16_digits 0 s
  | c :: r => if bv c =? 43 then u16_digits 0 r else u16_digits 0 s
  end.

(** The loop of [parse_pkt_lines] (pack.rs); [rest] is [data[offset..]].
    The loop test [offset < data.len()] and the following
    [offset + 4 > data.len()] both end the loop, so they are the one test
    [rest.len() < 4] here. Every iteration consumes at least 4 bytes, so
    [fuel = data.len()] lets the loop run to its end. *)
Fixpoint parse_pkt_lines_loop (fuel : nat) (rest : bytes) : list bytes :=
  match fuel with
  | O => []
  | S f =>
      if (length rest <? 4)%nat then []
      else
        let len_hex := match from_utf8 (take 4 rest) with
                       | Some s => s | None => lit "0000" end in
        let len := match u16_from_str_radix16 len_hex with
                   | Some v => v | None => 0 end in
        if len =? 0 then parse_pkt_lines_loop f (drop 4 rest)
        else if len <? 4 then []
        else if (length rest <? Z.to_nat len)%nat then []
        else
          let line_data := take (Z.to_nat len - 4) (drop 4 rest) in
          let tl := parse_pkt_lines_loop f (drop (Z.to_nat len) rest) in
          match from_utf8 line_data with
          | Some line => trim line :: tl
          | None => tl
          end
  end.

(** [parse_pkt_lines(data) -> Vec<String>]. *)
Definition parse_pkt_lines (data : bytes) : list bytes :=
  parse_pkt_lines_loop (length data) data.

Definition hex_char (d : Z) : byte :=
  if d <? 10 then byte_of_Z (48 + d) else byte_of_Z (87 + d).

Fixpoint hex_digits_go (fuel : nat) (n : Z) (acc : bytes) : bytes :=
  match fuel with
  | O => acc
  | S f =>
      let acc' := hex_char (n mod 16) :: acc in
      if n / 16 =? 0 then acc' else hex_digits_go f (n / 16) acc'
  end.

(** [format!("{:04x}", n)] for a [usize] [n]: lowercase hex digits,
    zero-padded to at least four. *)
Definition format_04x (n : Z) : bytes :=
  let ds := hex_digits_go 16 n [] in
  repeat (byte_of_Z 48) (4 - length ds) ++ ds.

(** The pkt-line encoding of [get_refs_advertisement] (refs.rs): each line
    framed by [format!("{:04x}", line.len() + 4)], then the flush [0000]. *)
Definition pkt_encode (lines : list bytes) : bytes :=
  mjoin (map (fun line => format_04x (Z.of_nat (length line) + 4) ++ line) lines)
  ++ lit "0000".

(** [format!("{}", n)] for a [usize] [n]: decimal digits. *)
Fixpoint dec_digits_go (fuel : nat) (n : Z) (acc : bytes) : bytes :=
  match fuel with
  | O => acc
  | S f =>
      let acc' := byte_of_Z (48 + n mod 10) :: acc in
      if n / 10 =? 0 then acc' else dec_digits_go f (n / 10) acc'
  end.

Definition format_dec (n : Z) : bytes := dec_digits_go 24 n [].

(** [n.to_be_bytes()] of a [k]-byte unsigned integer. *)
Fixpoint be_bytes (k : nat) (n : Z) : bytes :=
  match k with
  | O => []
  | S k' => be_bytes k' (n / 256) ++ [byte_of_Z n]
  end.

(** [u32::from_be_bytes]/[u64::from_be_bytes] of a list of bytes. *)
Definition be_value (l : bytes) : Z := fold_left (fun acc b => acc * 256 + bv b) l 0.

(* ================================================================== *)
(** ** SHA-1 (the [sha1] crate) and hex (the [hex] crate)               *)
(* ================================================================== *)

Module Sha1.

Definition mask32 : Z := 2 ^ 32 - 1.
Definition add32 (x y : Z) : Z := (x + y) mod 2 ^ 32.
Definition rotl (x n : Z) : Z :=
  Z.land (Z.lor (Z.shiftl x n) (Z.shiftr x (32 - n))) mask32.
Definition lnot32 (x : Z) : Z := Z.lxor x mask32.

(** The message padded to a multiple of 64 bytes, as byte values. *)
Definition pad (msg : bytes) : list Z :=
  let ml := length msg in
  map bv msg ++ [128] ++ repeat 0 ((119 - ml mod 64) mod 64)%nat
  ++ map bv (be_bytes 8 (8 * Z.of_nat ml)).

Fixpoint words (fuel : nat) (l : list Z) : list Z :=
  match fuel, l with
  | S f, a :: b :: c :: d :: r => (((a * 256 + b) * 256 + c) * 256 + d) :: words f r
  | _, _ => []
  end.

Definition wat (w : list Z) (i : nat) : Z := nth i w 0.

(** The 80-word message schedule of one block. *)
Fixpoint schedule (fuel : nat) (w : list Z) : list Z :=
  match fuel with
  | O => w
  | S f =>
      let t := length w in
      schedule f (w ++ [rotl (Z.lxor (Z.lxor (wat w (t - 3)) (wat w (t - 8)))
                                     (Z.lxor (wat w (t - 14)) (wat w (t - 16)))) 1])
  end.

Definition round_f (t : nat) (b c d : Z) : Z * Z :=
  if (t <? 20)%nat then (Z.lor (Z.land b c) (Z.land (lnot32 b) d), 1518500249)
  else if (t <? 40)%nat then (Z.lxor (Z.lxor b c) d, 1859775393)
  else if (t <? 60)%nat then
    (Z.lor (Z.lor (Z.land b c) (Z.land b d)) (Z.land c d), 2400959708)
  else (Z.lxor (Z.lxor b c) d, 3395469782).

Fixpoint rounds (ts : list nat) (w : list Z) (s : Z * Z * Z * Z * Z) : Z * Z * Z * Z * Z :=
  match ts with
  | [] => s
  | t :: ts' =>
      let '(a, b, c, d, e) := s in
      let '(f, k) := round_f t b c d in
      let temp := add32 (add32 (add32 (add32 (rotl a 5) f) e) k) (wat w t) in
      rounds ts' w (temp, a, rotl b 30, c, d)
  end.

Definition compress (h : Z * Z * Z * Z * Z) (block : list Z) : Z * Z * Z * Z * Z :=
  let w := schedule 64 (words 16 block) in
  let '(a, b, c, d, e) := rounds (seq 0 80) w h in
  let '(h0, h1, h2, h3, h4) := h in
  (add32 h0 a, add32 h1 b, add32 h2 c, add32 h3 d, add32 h4 e).

Fixpoint blocks (fuel : nat) (h : Z * Z * Z * Z * Z) (l : list Z) : Z * Z * Z * Z * Z :=
  match fuel with
  | O => h
  | S f => match l with
           | [] => h
           | _ => blocks f (compress h (take 64 l)) (drop 64 l)
           end
  end.

Definition init : Z * Z * Z * Z * Z :=
  (1732584193, 4023233417, 2562383102, 271733878, 3285377520).

End Sha1.

(** [Sha1::digest(data)]: the 20-byte digest. *)
Definition sha1 (data : bytes) : bytes :=
  let p := Sha1.pad data in
  let '(h0, h1, h2, h3, h4) := Sha1.blocks (length p) Sha1.init p in
  be_bytes 4 h0 ++ be_bytes 4 h1 ++ be_bytes 4 h2 ++ be_bytes 4 h3 ++ be_bytes 4 h4.

(** [hex::encode]: two lowercase hex digits per byte. *)
Definition hex_encode (data : bytes) : bytes :=
  mjoin (map (fun b => [hex_char (bv b / 16); hex_char (bv b mod 16)]) data).

(** [hex::decode]: an even number of hex digits of either case. *)
Fixpoint hex_decode (s : bytes) : option bytes :=
  match s with
  | [] => Some []
  | [_] => None
  | h :: l :: r =>
      match hex_digit_value h, hex_digit_value l, hex_decode r with
      | Some a, Some b, Some t => Some (byte_of_Z (a * 16 + b) :: t)
      | _, _, _ => None
      end
  end.

(* ================================================================== *)
(** ** zlib (the [flate2] crate)                                        *)
(* ================================================================== *)

(** [decompress_zlib] and the encoder behind [compress_zlib]. The decoder
    reads one zlib stream from the front of its input and ignores what
    follows it ([ZlibDecoder::read_to_end]); the encoder writing to a
    [Vec] never fails. *)
Class Zlib := {
  zlib_decompress : bytes -> option bytes;
  zlib_compress : bytes -> bytes
}.

Module StoredZlib.

Fixpoint adler_go (a b : Z) (l : bytes) : Z * Z :=
  match l with
  | [] => (a, b)
  | x :: r => let a' := (a + bv x) mod 65521 in adler_go a' ((b + a') mod 65521) r
  end.

Definition adler32 (l : bytes) : Z := let '(a, b) := adler_go 1 0 l in b * 65536 + a.

Definition le16 (n : Z) : bytes := [byte_of_Z n; byte_of_Z (n / 256)].

(** Stored (uncompressed) deflate blocks of at most 65535 bytes. *)
Fixpoint deflate_blocks (fuel : nat) (data : bytes) : bytes :=
  match fuel with
  | O => []
  | S f =>
      let chunk := take (Z.to_nat 65535) data in
      let rest := drop (Z.to_nat 65535) data in
      let n := Z.of_nat (length chunk) in
      match rest with
      | [] => [x01] ++ le16 n ++ le16 (65535 - n) ++ chunk
      | _ => [x00] ++ le16 n ++ le16 (65535 - n) ++ chunk ++ deflate_blocks f rest
      end
  end.

Definition deflate (data : bytes) : bytes :=
  [x78; x01] ++ deflate_blocks (S (length data)) data ++ be_bytes 4 (adler32 data).

(** Decoding of stored blocks (RFC 1951, BTYPE 00), ending with the
    Adler-32 check of RFC 1950; a block of another type is refused. *)
Fixpoint inflate_blocks (fuel : nat) (rest out : bytes) : option bytes :=
  match fuel, rest with
  | S f, h :: l0 :: l1 :: n0 :: n1 :: r =>
      let len := bv l0 + 256 * bv l1 in
      if negb (Z.land (bv h) 6 =? 0) then None
      else if negb (bv n0 + 256 * bv n1 =? 65535 - len) then None
      else if (length r <? Z.to_nat len)%nat then None
      else
        let out' := out ++ take (Z.to_nat len) r in
        let r' := drop (Z.to_nat len) r in
        if Z.testbit (bv h) 0 then
          if (length r' <? 4)%nat then None
          else if be_value (take 4 r') =? adler32 out' then Some out' else None
        else inflate_blocks f r' out'
  | _, _ => None
  end.

Definition inflate (data : bytes) : option bytes :=
  match data with
  | cmf :: flg :: r =>
      if (Z.land (bv cmf) 15 =? 8) && (bv cmf / 16 <=? 7) &&
         ((bv cmf * 256 + bv flg) mod 31 =? 0) && negb (Z.testbit (bv flg) 5)
      then inflate_blocks (length r) r []
      else None
  | _ => None
  end.

End StoredZlib.

(** A zlib codec restricted to stored blocks: its streams are valid zlib
    streams, which [flate2] decodes to the same bytes. It fixes concrete
    inputs for the examples below. *)
#[global] Instance stored_zlib : Zlib := {|
  zlib_decompress := StoredZlib.inflate;
  zlib_compress := StoredZlib.deflate
|}.

(* ================================================================== *)
(** ** More of [core::str]                                              *)
(* ================================================================== *)

(** [str::ends_with]. *)
Definition ends_with (s p : bytes) : bool := starts_with (rev s) (rev p).

(** [str::split(c)] for an ASCII character [c]. *)
Fixpoint split_on (c : byte) (s : bytes) : list bytes :=
  match s with
  | [] => [[]]
  | x :: r =>
      if bool_decide (x = c) then [] :: split_on c r
      else match split_on c r with
           | h :: t => (x :: h) :: t
           | [] => [[x]]
           end
  end.

Definition strip_cr (l : bytes) : bytes :=
  match last l with Some x0d => removelast l | _ => l end.

(** [str::lines]: split at [\n], one [\r] before a [\n] removed, and no
    empty last line after a final [\n]. *)
Definition str_lines (s : bytes) : list bytes :=
  let ps := split_on x0a s in
  map strip_cr (removelast ps) ++
  match last ps with Some [] | None => [] | Some l => [l] end.

(** [str::splitn(2, ' ')] collected into a vector. *)
Definition splitn2_space (s : bytes) : list bytes :=
  match split_on x20 s with
  | [] => [s]
  | [p] => [p]
  | p :: _ => [p; drop (S (length p)) s]
  end.

(** [str::split_whitespace]; [cur] is the current word, reversed. *)
Fixpoint split_ws_go (fuel : nat) (cur s : bytes) : list bytes :=
  let word := match cur with [] => [] | _ => [rev cur] end in
  match fuel with
  | O => word
  | S f =>
      match s with
      | [] => word
      | b :: r =>
          match ws_prefix_len s with
          | O => split_ws_go f (b :: cur) r
          | n => word ++ split_ws_go f [] (drop n s)
          end
      end
  end.

Definition split_whitespace (s : bytes) : list bytes := split_ws_go (length s) [] s.

(** [str::replace(from, to)]: every non-overlapping occurrence, from the
    left. *)
Fixpoint str_replace_go (fuel : nat) (s from to : bytes) : bytes :=
  match fuel with
  | O => s
  | S f =>
      match s with
      | [] => []
      | c :: r =>
          if starts_with s from then to ++ str_replace_go f (drop (length from) s) from to
          else c :: str_replace_go f r from to
      end
  end.

Definition str_replace (s from to : bytes) : bytes :=
  str_replace_go (length s) s from to.

Definition is_ascii_hexdigit (b : byte) : bool :=
  match hex_digit_value b with Some _ => true | None => false end.

(* ================================================================== *)
(** ** The bucket and the store ([s3.rs], [R2GitStore])                 *)
(* ================================================================== *)

(** The object bucket: its blobs by key, and the error every write fails
    with when the bucket refuses writes ([write_error = Some e], [e] the
    [Display] text of the error). Write failures are a property of the
    bucket, the same for every write of a request: a request in which some
    [put_object] or [delete_object] calls fail and others succeed is not
    represented. *)
Record Bucket := mkBucket {
  blobs : gmap bytes bytes;
  write_error : option bytes
}.

(** [R2GitStore]: the [RwLock]s around the caches are not modelled; a
    request runs alone. *)
Record R2GitStore := mkStore {
  s3 : Bucket;
  prefix : bytes;
  object_cache : gmap bytes bytes;
  pack_list_cache : option (list bytes)
}.

Definition set_blobs (st : R2GitStore) (m : gmap bytes bytes) : R2GitStore :=
  mkStore (mkBucket m (write_error (s3 st))) (prefix st) (object_cache st) (pack_list_cache st).

Definition set_object_cache (st : R2GitStore) (c : gmap bytes bytes) : R2GitStore :=
  mkStore (s3 st) (prefix st) c (pack_list_cache st).

Definition set_pack_list_cache (st : R2GitStore) (c : option (list bytes)) : R2GitStore :=
  mkStore (s3 st) (prefix st) (object_cache st) c.

(** The store monad: the store threaded through, [None] a panic or a call
    that never returns. *)
Definition M (A : Type) : Type := R2GitStore -> option (A * R2GitStore).

Definition ret {A} (x : A) : M A := fun st => Some (x, st).

Definition bind {A B} (m : M A) (k : A -> M B) : M B :=
  fun st => match m st with Some (x, st') => k x st' | None => None end.

Notation "'let*' x := m 'in' k" := (bind m (fun x => k))
  (at level 200, x name, m at level 100, k at level 200).

Notation "'let*' ' p := m 'in' k" := (bind m (fun x => let p := x in k))
  (at level 200, p pattern, m at level 100, k at level 200).

Definition get_state : M R2GitStore := fun st => Some (st, st).
Definition put_state (st' : R2GitStore) : M unit := fun _ => Some (tt, st').
Definition panic {A} : M A := fun _ => None.

(** A call that never returns (a deadlock): as with a panic, the request
    gets no response. *)
Definition hang {A} : M A := fun _ => None.

(** A value computed by code that can panic or overflow the stack. *)
Definition unwrap_or_panic {A} (o : option A) : M A :=
  match o with Some x => ret x | None => panic end.

(** [S3Client::get_object]: a failed request is [None], like a missing key. *)
Definition s3_get_object (key : bytes) : M (option bytes) :=
  fun st => Some (blobs (s3 st) !! key, st).

(** [S3Client::put_object]: [inl tt] is [Ok(())], [inr e] is [Err(e)]. *)
Definition s3_put_object (key data : bytes) : M (unit + bytes) :=
  fun st => match write_error (s3 st) with
            | Some e => Some (inr e, st)
            | None => Some (inl tt, set_blobs st (<[key := data]> (blobs (s3 st))))
            end.

Definition s3_delete_object (key : bytes) : M (unit + bytes) :=
  fun st => match write_error (s3 st) with
            | Some e => Some (inr e, st)
            | None => Some (inl tt, set_blobs st (delete key (blobs (s3 st))))
            end.

(** Lexicographic byte order of keys, the order of [ListObjectsV2]. *)
Fixpoint bytes_leb (a b : bytes) : bool :=
  match a, b with
  | [], _ => true
  | _ :: _, [] => false
  | x :: a', y :: b' => (bv x <? bv y) || ((bv x =? bv y) && bytes_leb a' b')
  end.

Definition bytes_le (a b : bytes) : Prop := bytes_leb a b = true.

#[global] Instance bytes_le_dec : RelDecision bytes_le.
Proof. intros a b. unfold bytes_le. apply _. Defined.

(** [S3Client::list_objects(prefix)]: every key starting with [prefix], in
    ascending order, all pages joined. *)
Definition s3_list_objects (pfx : bytes) : M (list bytes) :=
  fun st =>
    let ks := filter (fun k => starts_with k pfx = true) (map fst (map_to_list (blobs (s3 st)))) in
    Some (merge_sort bytes_le ks, st).

Fixpoint mapM {A B} (f : A -> M B) (l : list A) : M (list B) :=
  match l with
  | [] => ret []
  | x :: r => let* y := f x in let* ys := mapM f r in ret (y :: ys)
  end.

(* ================================================================== *)
(** ** Refs ([read_ref], [write_ref], [list_refs], [resolve_ref])       *)
(* ================================================================== *)

Definition ref_path (pfx name : bytes) : bytes := pfx ++ lit "/" ++ name.

(** [R2GitStore::read_ref]. *)
Definition read_ref (ref_name : bytes) : M (option bytes) :=
  let* st := get_state in
  let* data := s3_get_object (ref_path (prefix st) ref_name) in
  ret (match data with
       | Some d => option_map trim (from_utf8 d)
       | None => None
       end).

(** [R2GitStore::write_ref]. *)
Definition write_ref (ref_name oid : bytes) : M (unit + bytes) :=
  let* st := get_state in
  s3_put_object (ref_path (prefix st) ref_name) (oid ++ [x0a]).

(** One line of [packed-refs] as [read_packed_refs] reads it: a
    [(ref_name, oid)] pair, or nothing. *)
Definition packed_ref_line (line0 : bytes) : option (bytes * bytes) :=
  let line := trim line0 in
  if (match line with [] => true | _ => false end) || starts_with line (lit "#")
     || starts_with line (lit "^") then None
  else match splitn2_space line with
       | [oid; name] => Some (name, oid)
       | _ => None
       end.

(** [R2GitStore::read_packed_refs]. *)
Definition read_packed_refs : M (option (list (bytes * bytes))) :=
  let* st := get_state in
  let* data := s3_get_object (ref_path (prefix st) (lit "packed-refs")) in
  ret (match data with
       | Some d => match from_utf8 d with
                   | Some content => Some (omap packed_ref_line (str_lines content))
                   | None => None
                   end
       | None => None
       end).

(** The loop over the loose keys in [list_refs]. *)
Fixpoint list_refs_loose (keys : list bytes) (refs : list (bytes * bytes))
  : M (list (bytes * bytes)) :=
  match keys with
  | [] => ret refs
  | key :: ks =>
      let* st := get_state in
      let ref_name := match strip_prefix key (prefix st ++ lit "/") with
                      | Some n => n | None => key end in
      let* data := s3_get_object key in
      match match data with Some d => from_utf8 d | None => None end with
      | Some oid0 =>
          let oid := trim oid0 in
          if existsb (fun '(n, _) => bytes_eqb n ref_name) refs
          then list_refs_loose ks refs
          else list_refs_loose ks (refs ++ [(ref_name, oid)])
      | None => list_refs_loose ks refs
      end
  end.

(** [R2GitStore::list_refs(prefix)]: the packed refs under [prefix], then
    the loose refs whose name is not yet listed. *)
Definition list_refs (pfx : bytes) : M (list (bytes * bytes)) :=
  let* packed := read_packed_refs in
  let refs := match packed with
              | Some p => filter (fun '(n, _) => starts_with n pfx = true) p
              | None => []
              end in
  let* st := get_state in
  let* keys := s3_list_objects (ref_path (prefix st) pfx) in
  list_refs_loose keys refs.

(** The loop over the packed refs at the end of [resolve_ref_inner]. *)
Fixpoint lookup_packed (ref_name : bytes) (packed : list (bytes * bytes)) : option bytes :=
  match packed with
  | [] => None
  | (name, oid) :: r => if bytes_eqb name ref_name then Some oid else lookup_packed ref_name r
  end.

(** [R2GitStore::resolve_ref_inner(ref_name, depth)]; [fuel] bounds the
    recursion, which the depth test ends after eleven calls. *)
Fixpoint resolve_ref_inner (fuel : nat) (ref_name : bytes) (depth : Z) : M (option bytes) :=
  match fuel with
  | O => ret None
  | S f =>
      if 10 <? depth then ret None
      else
        let packed :=
          let* p := read_packed_refs in
          ret (match p with Some l => lookup_packed ref_name l | None => None end) in
        let* c := read_ref ref_name in
        match c with
        | Some content =>
            if starts_with content (lit "ref: ") then
              match strip_prefix content (lit "ref: ") with
              | Some target => resolve_ref_inner f target (depth + 1)
              | None => ret None
              end
            else if (length content =? 40)%nat && forallb is_ascii_hexdigit content
            then ret (Some content)
            else packed
        | None => packed
        end
  end.

(** [R2GitStore::resolve_ref]. *)
Definition resolve_ref (ref_name : bytes) : M (option bytes) :=
  resolve_ref_inner 12 ref_name 0.

(* ================================================================== *)
(** ** Pack indexes and pack entries ([objects.rs])                     *)
(* ================================================================== *)

(** [u32::from_be_bytes]/[u64::from_be_bytes] of [data[pos..pos + k]];
    [find_object_in_index] reads only in-range positions. *)
Definition be_at (data : bytes) (pos k : Z) : Z :=
  be_value (take (Z.to_nat k) (drop (Z.to_nat pos) data)).

(** The scan [for i in start_idx..end_idx] of [find_object_in_index]. *)
Fixpoint find_in_sha_table (fuel : nat) (idx target : bytes) (total i : Z) : option Z :=
  match fuel with
  | O => None
  | S f =>
      let len := Z.of_nat (length idx) in
      let sha_offset := 1032 + i * 20 in
      if len <? sha_offset + 20 then None
      else if bytes_eqb (take 20 (drop (Z.to_nat sha_offset) idx)) target then
        let crc_table_start := 1032 + total * 20 in
        let offset_table_start := crc_table_start + total * 4 in
        let offset_pos := offset_table_start + i * 4 in
        if len <? offset_pos + 4 then None
        else
          let offset := be_at idx offset_pos 4 in
          if negb (Z.land offset 2147483648 =? 0) then
            let large_offset_idx := Z.land offset 2147483647 in
            let large_offset_pos := offset_table_start + total * 4 + large_offset_idx * 8 in
            if len <? large_offset_pos + 8 then None
            else Some (be_at idx large_offset_pos 8)
          else Some offset
      else find_in_sha_table f idx target total (i + 1)
  end.

(** [find_object_in_index(idx_data, target_oid)]: the pack offset of the
    object named by the 20 bytes [target_oid] in a version-2 index. *)
Definition find_object_in_index (idx target : bytes) : option Z :=
  if (length idx <? 8)%nat || negb (length target =? 20)%nat then None
  else if negb (bytes_eqb (take 4 idx) [xff; x74; x4f; x63]) then None
  else if negb (be_at idx 4 4 =? 2) then None
  else if (length idx <? 1032)%nat then None
  else
    let total := be_at idx 1028 4 in
    let first_byte := match target with b :: _ => bv b | [] => 0 end in
    let start_idx := if first_byte =? 0 then 0 else be_at idx (8 + (first_byte - 1) * 4) 4 in
    let end_idx := be_at idx (8 + first_byte * 4) 4 in
    find_in_sha_table (Z.to_nat (end_idx - start_idx)) idx target total start_idx.

(** The loop over the size continuation bytes of an entry header. *)
Fixpoint header_size_loop (fuel : nat) (pack : bytes) (cont : byte) (size shift : Z) (pos : nat)
  : Z * nat :=
  match fuel with
  | O => (size, pos)
  | S f =>
      if negb (Z.land (bv cont) 128 =? 0) && (pos <? length pack)%nat then
        let c := nth pos pack x00 in
        header_size_loop f pack c (Z.lor size (usize_shl (Z.land (bv c) 127) shift)) (shift + 7) (S pos)
      else (size, pos)
  end.

(** [read_pack_object_header(pack_data, offset)]: type, size and the
    position after the header. [read_pack_object] repeats this code. *)
Definition read_pack_object_header (pack : bytes) (offset : Z) : option (Z * Z * nat) :=
  if Z.of_nat (length pack) <=? offset then None
  else
    let pos := Z.to_nat offset in
    let first_byte := nth pos pack x00 in
    let obj_type := Z.land (Z.shiftr (bv first_byte) 4) 7 in
    let '(size, pos') := header_size_loop (length pack) pack first_byte
                           (Z.land (bv first_byte) 15) 4 (S pos) in
    Some (obj_type, size, pos').

Definition u64_mask : Z := 2 ^ 64 - 1.

Fixpoint ofs_delta_loop (fuel : nat) (data : bytes) (offset : Z) (pos : nat) : option (Z * nat) :=
  match fuel with
  | O => None
  | S f =>
      if Z.land (bv (nth (pos - 1) data x00)) 128 =? 0 then Some (offset, pos)
      else if (length data <=? pos)%nat then None
      else
        let offset1 := Z.land (offset + 1) u64_mask in
        let offset2 := Z.lor (Z.land (Z.shiftl offset1 7) u64_mask)
                             (Z.land (bv (nth pos data x00)) 127) in
        ofs_delta_loop f data offset2 (S pos)
  end.

(** [read_ofs_delta_offset(data)]: the back-offset of an OFS_DELTA entry
    and the number of bytes it takes ([u64] arithmetic wraps). *)
Definition read_ofs_delta_offset (data : bytes) : option (Z * nat) :=
  match data with
  | [] => None
  | b :: _ => ofs_delta_loop (S (length data)) data (Z.land (bv b) 127) 1
  end.

(** [read_pack_object(pack_data, idx_data, offset)], its recursion bounded
    by [fuel]. The outer [None] is a panic: the capacity overflow of
    [apply_delta], or an exhausted [fuel]: the recursion has then visited
    one offset twice, and being a function of the offset, recurses without
    end (a stack overflow). [offset - base_offset] wraps
    as in a release build. *)
Fixpoint read_pack_object `{Zlib} (fuel : nat) (pack idx : bytes) (offset : Z)
  : option (option (Z * bytes)) :=
  match fuel with
  | O => None
  | S f =>
      match read_pack_object_header pack offset with
      | None => Some None
      | Some (obj_type, _, pos) =>
          if (1 <=? obj_type) && (obj_type <=? 4) then
            Some (option_map (pair obj_type) (zlib_decompress (drop pos pack)))
          else if obj_type =? 6 then
            match read_ofs_delta_offset (drop pos pack) with
            | None => Some None
            | Some (base_offset, bytes_read) =>
                let pos' := (pos + bytes_read)%nat in
                let base_abs_offset := Z.land (offset - base_offset) u64_mask in
                match read_pack_object f pack idx base_abs_offset with
                | None => None
                | Some None => Some None
                | Some (Some (base_type, base_content)) =>
                    match zlib_decompress (drop pos' pack) with
                    | None => Some None
                    | Some delta =>
                        match apply_delta base_content delta with
                        | None => None
                        | Some r => Some (option_map (pair base_type) r)
                        end
                    end
                end
            end
          else if obj_type =? 7 then
            if (length pack <? pos + 20)%nat then Some None
            else
              let base_oid := take 20 (drop pos pack) in
              match find_object_in_index idx base_oid with
              | None => Some None
              | Some base_offset =>
                  match read_pack_object f pack idx base_offset with
                  | None => None
                  | Some None => Some None
                  | Some (Some (base_type, base_content)) =>
                      match zlib_decompress (drop (pos + 20) pack) with
                      | None => Some None
                      | Some delta =>
                          match apply_delta base_content delta with
                          | None => None
                          | Some r => Some (option_map (pair base_type) r)
                          end
                      end
                  end
              end
          else Some None
      end
  end.

(** [read_pack_object]: a chain of entries longer than the pack visits an
    offset twice, so [length pack + 1] calls decide the outcome. *)
Definition read_pack_object_top `{Zlib} (pack idx : bytes) (offset : Z) : option (option (Z * bytes)) :=
  read_pack_object (S (length pack)) pack idx offset.

(** [parse_git_object] of [objects.rs]: type and content of a loose
    object. *)
Definition parse_git_object `{Zlib} (data : bytes) : option (bytes * bytes) :=
  match zlib_decompress data with
  | None => None
  | Some d =>
      match list_find (fun b => b = x00) d with
      | None => None
      | Some (null_pos, _) =>
          match from_utf8 (take null_pos d) with
          | None => None
          | Some header =>
              match splitn2_space header with
              | [t; _] => Some (t, drop (S null_pos) d)
              | _ => None
              end
          end
      end
  end.

(** [format!("{} {}\0", type_str, content.len())] followed by the content. *)
Definition object_bytes (type_str content : bytes) : bytes :=
  type_str ++ lit " " ++ format_dec (Z.of_nat (length content)) ++ [x00] ++ content.

Definition type_name (obj_type : Z) : option bytes :=
  if obj_type =? 1 then Some (lit "commit")
  else if obj_type =? 2 then Some (lit "tree")
  else if obj_type =? 3 then Some (lit "blob")
  else if obj_type =? 4 then Some (lit "tag")
  else None.

(** [extract_object_with_deltas]; the outer [None] is a panic of
    [read_pack_object]. *)
Definition extract_object_with_deltas `{Zlib} (pack idx : bytes) (offset : Z) : option (option bytes) :=
  match read_pack_object_top pack idx offset with
  | None => None
  | Some None => Some None
  | Some (Some (obj_type, content)) =>
      Some (match type_name obj_type with
            | Some type_str => Some (zlib_compress (object_bytes type_str content))
            | None => None
            end)
  end.

(** [R2GitStore::apply_delta_chain]: the deltas applied from the last
    pushed to the first; a delta that does not apply is skipped. [None] is
    the panic of an [apply_delta]. *)
Definition apply_delta_chain (base : bytes * bytes) (delta_chain : list (bytes * bytes))
  : option (bytes * bytes) :=
  let '(obj_type, content) := base in
  option_map (pair obj_type)
    (fold_left (fun acc '(_, delta) =>
                  match acc with
                  | None => None
                  | Some c => match apply_delta c delta with
                              | None => None
                              | Some (Some c') => Some c'
                              | Some None => Some c
                              end
                  end)
               (rev delta_chain) (Some content)).

(* ================================================================== *)
(** ** Object lookup ([R2GitStore::get_object] and its helpers)         *)
(* ================================================================== *)

(** [format!("{}/objects/{}/{}", prefix, &oid[..2], &oid[2..])]; [None]
    is the panic of a slice out of range. *)
Definition object_path (pfx oid : bytes) : option bytes :=
  match str_slice oid 0 2, str_slice oid 2 (length oid) with
  | Some a, Some b => Some (pfx ++ lit "/objects/" ++ a ++ lit "/" ++ b)
  | _, _ => None
  end.

(** [R2GitStore::get_pack_idx_files]. *)
Definition get_pack_idx_files : M (list bytes) :=
  let* st := get_state in
  match pack_list_cache st with
  | Some l => ret l
  | None =>
      let* pack_files := s3_list_objects (prefix st ++ lit "/objects/pack") in
      let idx_files := filter (fun f => ends_with f (lit ".idx") = true) pack_files in
      let* st' := get_state in
      let* _ := put_state (set_pack_list_cache st' (Some idx_files)) in
      ret idx_files
  end.

Definition pack_path_of (idx_path : bytes) : bytes := str_replace idx_path (lit ".idx") (lit ".pack").

(** The outcome of the scan over the index files in one step of
    [resolve_object_iterative]: a base found and the chain applied, a
    REF_DELTA entry to follow to its base, or nothing. *)
Inductive scan_result : Type :=
| ScanReturn (v : bytes * bytes)
| ScanFollow (base_oid delta : bytes)
| ScanNotFound.

(** The [for idx_path in &idx_files] loop of [resolve_object_iterative]. *)
Fixpoint resolve_scan `{Zlib} (idx_files : list bytes) (target : bytes)
    (delta_chain : list (bytes * bytes)) : M scan_result :=
  match idx_files with
  | [] => ret ScanNotFound
  | idx_path :: rest =>
      let continue := resolve_scan rest target delta_chain in
      let* idx_data := s3_get_object idx_path in
      match idx_data with
      | None => continue
      | Some idx_data =>
          match find_object_in_index idx_data target with
          | None => continue
          | Some offset =>
              let* pack_data := s3_get_object (pack_path_of idx_path) in
              match pack_data with
              | None => continue
              | Some pack_data =>
                  match read_pack_object_header pack_data offset with
                  | None => continue
                  | Some (obj_type, _, header_end) =>
                      if obj_type =? 7 then
                        if (length pack_data <? header_end + 20)%nat then continue
                        else
                          let base_oid := hex_encode (take 20 (drop header_end pack_data)) in
                          match zlib_decompress (drop (header_end + 20) pack_data) with
                          | Some delta => ret (ScanFollow base_oid delta)
                          | None => continue
                          end
                      (* the branches for types 1..4 and for type 6 are the same code *)
                      else if ((1 <=? obj_type) && (obj_type <=? 4)) || (obj_type =? 6) then
                        let* obj := unwrap_or_panic (extract_object_with_deltas pack_data idx_data offset) in
                        match match obj with Some o => parse_git_object o | None => None end with
                        | Some base =>
                            let* v := unwrap_or_panic (apply_delta_chain base delta_chain) in
                            ret (ScanReturn v)
                        | None => continue
                        end
                      else continue
                  end
              end
          end
      end
  end.

(** The [for depth in 0..100] loop of [resolve_object_iterative]. *)
Fixpoint resolve_loop `{Zlib} (fuel : nat) (delta_chain : list (bytes * bytes)) (current_oid : bytes)
  : M (option (bytes * bytes)) :=
  match fuel with
  | O => ret None
  | S f =>
      let* st := get_state in
      match match object_cache st !! current_oid with
            | Some cached => parse_git_object cached
            | None => None
            end with
      | Some base =>
          let* v := unwrap_or_panic (apply_delta_chain base delta_chain) in
          ret (Some v)
      | None =>
          match hex_decode current_oid with
          | None => ret None
          | Some target =>
              let* idx_files := get_pack_idx_files in
              let* r := resolve_scan idx_files target delta_chain in
              match r with
              | ScanReturn v => ret (Some v)
              | ScanFollow base_oid delta =>
                  resolve_loop f (delta_chain ++ [(current_oid, delta)]) base_oid
              | ScanNotFound =>
                  let* st' := get_state in
                  let* path := unwrap_or_panic (object_path (prefix st') current_oid) in
                  let* data := s3_get_object path in
                  match match data with Some d => parse_git_object d | None => None end with
                  | Some base =>
                      let* v := unwrap_or_panic (apply_delta_chain base delta_chain) in
                      ret (Some v)
                  | None => ret None
                  end
              end
          end
      end
  end.

(** [R2GitStore::resolve_object_iterative(start_oid)]. *)
Definition resolve_object_iterative `{Zlib} (start_oid : bytes) : M (option (bytes * bytes)) :=
  resolve_loop 100 [] start_oid.

Definition known_type (t : bytes) : bool :=
  bytes_eqb t (lit "commit") || bytes_eqb t (lit "tree") || bytes_eqb t (lit "blob")
  || bytes_eqb t (lit "tag").

(** [R2GitStore::resolve_ref_delta(pack_data, header_end)]. *)
Definition resolve_ref_delta `{Zlib} (pack_data : bytes) (header_end : nat) : M (option bytes) :=
  if (length pack_data <? header_end + 20)%nat then ret None
  else
    let base_oid := hex_encode (take 20 (drop header_end pack_data)) in
    match zlib_decompress (drop (header_end + 20) pack_data) with
    | None => ret None
    | Some delta =>
        let* b := resolve_object_iterative base_oid in
        match b with
        | None => ret None
        | Some (base_type, base_content) =>
            match apply_delta base_content delta with
            | None => panic
            | Some None => ret None
            | Some (Some result) =>
                if known_type base_type
                then ret (Some (zlib_compress (object_bytes base_type result)))
                else ret None
            end
        end
    end.

(** The [for idx_path in &idx_files] loop of [get_from_pack]. *)
Fixpoint get_from_pack_loop `{Zlib} (idx_files : list bytes) (target : bytes) : M (option bytes) :=
  match idx_files with
  | [] => ret None
  | idx_path :: rest =>
      let continue := get_from_pack_loop rest target in
      let* idx_data := s3_get_object idx_path in
      match idx_data with
      | None => continue
      | Some idx_data =>
          match find_object_in_index idx_data target with
          | None => continue
          | Some offset =>
              let* pack_data := s3_get_object (pack_path_of idx_path) in
              match pack_data with
              | None => continue
              | Some pack_data =>
                  match read_pack_object_header pack_data offset with
                  | Some (obj_type, _, header_end) =>
                      if obj_type =? 7 then
                        let* r := resolve_ref_delta pack_data header_end in
                        match r with Some obj => ret (Some obj) | None => continue end
                      else
                        let* r := unwrap_or_panic (extract_object_with_deltas pack_data idx_data offset) in
                        match r with Some obj => ret (Some obj) | None => continue end
                  | None =>
                      let* r := unwrap_or_panic (extract_object_with_deltas pack_data idx_data offset) in
                      match r with Some obj => ret (Some obj) | None => continue end
                  end
              end
          end
      end
  end.

(** [R2GitStore::get_from_pack(oid)]. *)
Definition get_from_pack `{Zlib} (oid : bytes) : M (option bytes) :=
  match hex_decode oid with
  | None => ret None
  | Some target =>
      let* idx_files := get_pack_idx_files in
      get_from_pack_loop idx_files target
  end.

Definition cache_object (oid data : bytes) : M unit :=
  let* st := get_state in
  put_state (set_object_cache st (<[oid := data]> (object_cache st))).

(** [R2GitStore::get_object(oid)]: the cache, the loose object, the packs. *)
Definition get_object `{Zlib} (oid : bytes) : M (option bytes) :=
  let* st := get_state in
  match object_cache st !! oid with
  | Some data => ret (Some data)
  | None =>
      let* path := unwrap_or_panic (object_path (prefix st) oid) in
      let* loose := s3_get_object path in
      match loose with
      | Some data => let* _ := cache_object oid data in ret (Some data)
      | None =>
          let* obj := get_from_pack oid in
          match obj with
          | Some o => let* _ := cache_object oid o in ret (Some o)
          | None => ret None
          end
      end
  end.

(* ================================================================== *)
(** ** [pack.rs]: receive-pack and upload-pack                          *)
(* ================================================================== *)

(** [create_pack_index(pack_data)]: the magic, version 2, an all-zero
    fanout table, the pack checksum and the checksum of all that. *)
Definition create_pack_index (pack_data : bytes) : option bytes :=
  if (length pack_data <? 12)%nat then None
  else
    let idx := [xff; x74; x4f; x63] ++ be_bytes 4 2 ++ repeat x00 (Z.to_nat 1024) in
    let pack_checksum := sha1 pack_data in
    Some (idx ++ pack_checksum ++ sha1 (idx ++ pack_checksum)).

(** The first [i] in [0..body.len().saturating_sub(3)] with
    [body[i..i+4] == b"PACK"]; [rest] is [body[i..]]. *)
Fixpoint find_pack_signature (i : nat) (rest : bytes) : option nat :=
  match rest with
  | [] => None
  | _ :: r => if starts_with rest (lit "PACK") then Some i else find_pack_signature (S i) r
  end.

(** One command line of receive-pack: [(old_oid, new_oid, ref_name)]. *)
Definition parse_command (line : bytes) : option (bytes * bytes * bytes) :=
  match split_whitespace line with
  | p0 :: p1 :: p2 :: _ =>
      if (length p0 =? 40)%nat && (length p1 =? 40)%nat then
        let ref_name := match split_on x00 p2 with n :: _ => n | [] => p2 end in
        Some (p0, p1, ref_name)
      else None
  | _ => None
  end.

Definition zero_oid : bytes := repeat (byte_of_Z 48) 40.

(** The ref updates of receive-pack, in order. *)
Fixpoint apply_updates (updates : list (bytes * bytes * bytes)) : M unit :=
  match updates with
  | [] => ret tt
  | (old_oid, new_oid, ref_name) :: rest =>
      let path := if starts_with ref_name (lit "refs/") then ref_name
                  else lit "refs/heads/" ++ ref_name in
      let* st := get_state in
      let* _ := if bytes_eqb new_oid zero_oid
                then s3_delete_object (ref_path (prefix st) path)
                else write_ref path new_oid in
      apply_updates rest
  end.

(** A pkt-line of a [String] response: [format!("{:04x}{}", line.len() + 4, line)]. *)
Definition pkt_line (line : bytes) : bytes := format_04x (Z.of_nat (length line) + 4) ++ line.

(** [handle_receive_pack(store, body)]: the response and the updates. *)
Definition handle_receive_pack (body : bytes) : M (bytes * list (bytes * bytes * bytes)) :=
  match find_pack_signature 0 body with
  | None => ret (lit "000eunpack ok" ++ [x0a] ++ lit "0000", [])
  | Some pack_start =>
      let command_section := take pack_start body in
      let pack_data := drop pack_start body in
      let updates := omap parse_command (parse_pkt_lines command_section) in
      let pack_hash := hex_encode (sha1 pack_data) in
      let* st := get_state in
      let pack_dir := prefix st ++ lit "/objects/pack/pack-" ++ pack_hash in
      let* r := s3_put_object (pack_dir ++ lit ".pack") pack_data in
      match r with
      | inr e => ret (lit "0019ng unpack error " ++ e ++ [x0a] ++ lit "0000", updates)
      | inl _ =>
          let* _ := match create_pack_index pack_data with
                    | Some idx_data => let* _ := s3_put_object (pack_dir ++ lit ".idx") idx_data in ret tt
                    | None => ret tt
                    end in
          let* _ := apply_updates updates in
          let response :=
            format_04x (Z.of_nat (length (lit "unpack ok" ++ [x0a])) + 4) ++ lit "unpack ok" ++ [x0a]
            ++ mjoin (map (fun '(_, _, ref_name) => pkt_line (lit "ok " ++ ref_name ++ [x0a])) updates)
            ++ lit "0000" in
          ret (response, updates)
      end
  end.

Section UploadPack.

(** [collect_reachable_objects] returns the [HashSet] of visited objects
    in its unspecified iteration order, and [create_packfile] packs them:
    both are parameters here. *)
Variable collect_reachable_objects : list bytes -> M (list bytes).
Variable create_packfile : list bytes -> M (option bytes).

(** The loop over the parsed lines of [handle_upload_pack]: wants and
    haves; [None] is the panic of [line[5..45]]. *)
Fixpoint wants_haves (lines : list bytes) : option (list bytes * list bytes) :=
  match lines with
  | [] => Some ([], [])
  | line :: rest =>
      if starts_with line (lit "want ") then
        match str_slice line 5 45, wants_haves rest with
        | Some w, Some (ws, hs) => Some (w :: ws, hs)
        | _, _ => None
        end
      else if starts_with line (lit "have ") then
        match str_slice line 5 45, wants_haves rest with
        | Some h, Some (ws, hs) => Some (ws, h :: hs)
        | _, _ => None
        end
      else wants_haves rest
  end.

(** [handle_upload_pack(store, body)]. *)
Definition handle_upload_pack (body : bytes) : M bytes :=
  let* '(wants, haves) := unwrap_or_panic (wants_haves (parse_pkt_lines body)) in
  match wants with
  | [] => ret (lit "0000")
  | _ =>
      let* all_oids := collect_reachable_objects wants in
      let needed_oids := filter (fun oid => negb (existsb (bytes_eqb oid) haves)) all_oids in
      match needed_oids with
      | [] => ret (lit "0008NAK" ++ [x0a] ++ lit "0000")
      | _ =>
          let* packfile := create_packfile needed_oids in
          ret (lit "0008NAK" ++ [x0a] ++ match packfile with Some p => p | None => [] end)
      end
  end.

End UploadPack.

(* ================================================================== *)
(** ** [refs.rs]: the ref advertisement, and the [info_refs] route      *)
(* ================================================================== *)

(** [refs.rs] names the store [S3GitStore]; the [info_refs] route passes
    it the [R2GitStore] of [objects.rs], whose [prefix], [list_refs] and
    [resolve_ref] it uses. *)

Definition capabilities (service : bytes) : list bytes :=
  if bytes_eqb service (lit "git-upload-pack")
  then [lit "ofs-delta"; lit "shallow"; lit "no-progress"; lit "include-tag";
        lit "symref=HEAD:refs/heads/main"]
  else [lit "report-status"; lit "delete-refs"; lit "ofs-delta"].

(** [Vec::join(" ")]. *)
Fixpoint join_space (l : list bytes) : bytes :=
  match l with
  | [] => []
  | [x] => x
  | x :: r => x ++ lit " " ++ join_space r
  end.

(** The lines of the advertisement, before framing. *)
Definition advertisement_lines (caps : bytes) (refs : list (bytes * bytes)) (head : option bytes)
  : list bytes :=
  match refs with
  | [] => [zero_oid ++ lit " capabilities^{}" ++ [x00] ++ caps ++ [x0a]]
  | r0 :: _ =>
      let first_ref := match head with Some h => (lit "HEAD", h) | None => r0 end in
      (snd first_ref ++ lit " " ++ fst first_ref ++ [x00] ++ caps ++ [x0a])
      :: omap (fun '(name, oid) =>
                 if negb (bytes_eqb name (fst first_ref)) || negb (bool_decide (head <> None))
                 then Some (oid ++ lit " " ++ name ++ [x0a]) else None) refs
  end.

(** The process-wide [INFO_REFS_CACHE]: packets and insertion time (in
    milliseconds) by [prefix|service]. *)
Abbreviation info_refs_cache := (gmap bytes (bytes * Z)).

(** [get_refs_advertisement(store, service)] with the cache [cache], the
    TTL [ttl] and the clock reading [now] (in milliseconds); the clock is
    read once, so the time spent building is not modelled. An entry as old
    as the TTL or older is never rebuilt: [cache.remove(&cache_key)] runs
    while [entry], the guard [cache.get(&cache_key)] returned, still holds
    the read lock of the key's shard, and [DashMap::remove] waits for the
    write lock of that shard forever. *)
Definition get_refs_advertisement (service : bytes) (ttl now : Z) (cache : info_refs_cache)
  : M (bytes * info_refs_cache) :=
  let caps := join_space (capabilities service) in
  let* st := get_state in
  let cache_key := prefix st ++ lit "|" ++ service in
  let build :=
    let* branches := list_refs (lit "refs/heads") in
    let* tags := list_refs (lit "refs/tags") in
    let refs := branches ++ tags in
    let* head := resolve_ref (lit "HEAD") in
    let packets := pkt_encode (advertisement_lines caps refs head) in
    let cache2 := if 0 <? ttl then
                    let c := <[cache_key := (packets, now)]> cache in
                    if (1024 <? size c)%nat then ∅ else c
                  else cache in
    ret (packets, cache2) in
  if 0 <? ttl then
    match cache !! cache_key with
    | Some (packets, t) =>
        if now - t <? ttl then ret (packets, cache)
        else hang
    | None => build
    end
  else build.

(** The body of the [info_refs] route: the service banner, a flush, the
    advertisement. *)
Definition info_refs_body (service refs : bytes) : bytes :=
  let packet := lit "# service=" ++ service ++ [x0a] in
  format_04x (Z.of_nat (length packet) + 4) ++ packet ++ lit "0000" ++ refs.

(* ================================================================== *)
(** ** The commit walk of [api_old]                                     *)
(* ================================================================== *)

Section CommitCount.

(** The object store of [api_old] (its [objects.rs] is not among the
    sources) is seen through [get_commit_by_oid]: a commit and its first
    parent, or nothing. Object ids are of any type with decidable
    equality, [zero] the all-zero id. *)
Context {Oid Commit : Type} `{EqDecision Oid}.
Variable get_commit_by_oid : Oid -> option (Commit * option Oid).
Variable zero : Oid.

(** The [while let Some(oid) = current] loop; each turn raises [count], and
    [count >= max_steps] ends it, so [max_steps + 2] turns suffice. *)
Fixpoint count_loop (fuel : nat) (current stop_oid : option Oid) (max_steps count : N)
  : option N :=
  match fuel with
  | O => None
  | S f =>
      match current with
      | None => match stop_oid with None => Some count | Some _ => None end
      | Some oid =>
          if bool_decide (stop_oid = Some oid) then Some count
          else if (max_steps <=? count)%N then None
          else match get_commit_by_oid oid with
               | None => None
               | Some (_, parent) => count_loop f parent stop_oid max_steps (count + 1)
               end
      end
  end.

(** [count_commits_until(store, start_oid, stop_oid, max_steps)]. *)
Definition count_commits_until (start_oid : Oid) (stop_oid : option Oid) (max_steps : N) : option N :=
  count_loop (S (S (N.to_nat max_steps))) (Some start_oid) stop_oid max_steps 0.

(** [i64] addition in a release build. *)
Definition wrap_i64 (z : Z) : Z := (z + 2 ^ 63) mod 2 ^ 64 - 2 ^ 63.

(** The commit count of [build_branch_metadata]; [existing] is the stored
    row's [(head_oid, commit_count)]. *)
Definition branch_commit_count (old_oid new_oid : Oid) (existing : option (Oid * Z)) : Z :=
  let max_steps := 200000%N in
  let incremental :=
    match existing with
    | Some (head_oid, commit_count) =>
        if bool_decide (head_oid = old_oid) && negb (bool_decide (old_oid = zero)) then
          match count_commits_until new_oid (Some old_oid) max_steps with
          | Some increment => Some (wrap_i64 (commit_count + Z.of_N increment))
          | None => None
          end
        else None
    | None => None
    end in
  match incremental with
  | Some c => c
  | None => match count_commits_until new_oid None max_steps with
            | Some total => Z.of_N total
            | None => 0
            end
  end.

(** [build_branch_metadata] goes on only when [get_commit_by_oid(new_oid)]
    finds the commit; its commit count is [branch_commit_count]. *)
Definition build_branch_metadata_count (old_oid new_oid : Oid) (existing : option (Oid * Z))
  : option Z :=
  let c := branch_commit_count old_oid new_oid existing in
  match get_commit_by_oid new_oid with
  | Some _ => Some c
  | None => None
  end.

(** [l] is a walk along first parents that ends in [last]: every element
    names a commit, and its parent is the next element ([last] after the
    final one; [None] for a root). *)
Fixpoint parent_path (l : list Oid) (last : option Oid) : Prop :=
  match l with
  | [] => True
  | x :: r =>
      (exists c, get_commit_by_oid x = Some (c, match r with [] => last | y :: _ => Some y end))
      /\ parent_path r last
  end.

End CommitCount.

(* ================================================================== *)
(** ** Concrete repositories                                            *)
(* ================================================================== *)

Module Fixtures.

Definition pfx : bytes := lit "repos/alice/demo.git".

Definition store_of (kvs : list (bytes * bytes)) : R2GitStore :=
  mkStore (mkBucket (list_to_map kvs) None) pfx ∅ None.

Definition nl : bytes := [x0a].

Definition oid_a : bytes := repeat (byte_of_Z 97) 40.
Definition oid_b : bytes := repeat (byte_of_Z 98) 40.
Definition oid_c : bytes := repeat (byte_of_Z 99) 40.

(** A version-2 index of a pack with the entries [(sha, offset)] (sorted
    by name, offsets below 2^31): fanout, names, zero CRCs, offsets,
    checksums. *)
Definition build_index (pack : bytes) (entries : list (bytes * Z)) : bytes :=
  let n := Z.of_nat (length entries) in
  let fanout := mjoin (map (fun i => be_bytes 4 (Z.of_nat (length
                   (filter (fun e => bv (hd x00 (fst e)) <=? i) entries))))
                   (map Z.of_nat (seq 0 256))) in
  let body := [xff; x74; x4f; x63] ++ be_bytes 4 2 ++ fanout
              ++ mjoin (map fst entries) ++ mjoin (map (fun _ => be_bytes 4 0) entries)
              ++ mjoin (map (fun e => be_bytes 4 (snd e)) entries) ++ sha1 pack in
  body ++ sha1 body.

(** A pack file: header, entries, checksum. *)
Definition build_pack (entries : list bytes) : bytes :=
  let body := lit "PACK" ++ be_bytes 4 2 ++ be_bytes 4 (Z.of_nat (length entries)) ++ mjoin entries in
  body ++ sha1 body.

(** Packed and loose values of one branch. *)
Definition dup_ref_store : R2GitStore :=
  store_of [(pfx ++ lit "/packed-refs", oid_a ++ lit " refs/heads/feature" ++ nl);
            (pfx ++ lit "/refs/heads/feature", oid_b ++ nl)].

(** HEAD names [refs/heads/main], which holds an id with no object. *)
Definition dangling_head_store : R2GitStore :=
  store_of [(pfx ++ lit "/HEAD", lit "ref: refs/heads/main" ++ nl);
            (pfx ++ lit "/refs/heads/main", oid_a ++ nl)].

(** A detached HEAD and no branch or tag. *)
Definition detached_head_store : R2GitStore :=
  store_of [(pfx ++ lit "/HEAD", oid_c ++ nl)].

(** The blob [hello] as the one entry of a pack, pushed to an empty
    repository with a command creating [refs/heads/main]. *)
Definition hello_obj : bytes := object_bytes (lit "blob") (lit "hello").
Definition hello_oid : bytes := hex_encode (sha1 hello_obj).
Definition hello_pack : bytes := build_pack [[byte_of_Z 53] ++ zlib_compress (lit "hello")].
Definition push_body : bytes :=
  pkt_line (zero_oid ++ lit " " ++ hello_oid ++ lit " refs/heads/main" ++ [x00] ++ lit "report-status")
  ++ lit "0000" ++ hello_pack.
Definition pushed_store : R2GitStore :=
  match handle_receive_pack push_body (store_of []) with
  | Some (_, st) => st
  | None => store_of []
  end.

(** A loose blob [abc], and a pack whose one entry is a REF_DELTA on it
    with the corrupt delta [03 03 00] (a zero instruction byte), under
    the name [11..11]. *)
Definition abc_obj : bytes := object_bytes (lit "blob") (lit "abc").
Definition base_oid : bytes := sha1 abc_obj.
Definition delta_oid : bytes := repeat (byte_of_Z 17) 20.
Definition corrupt_delta : bytes := bytes_of_Zs [3; 3; 0].

(** A delta whose source size is 0 and whose declared target size is
    [2^63] (nine continuation bytes [0x80], then [0x01] at shift 63), with
    no instruction. *)
Definition huge_target_delta : bytes :=
  bytes_of_Zs [0; 128; 128; 128; 128; 128; 128; 128; 128; 128; 1].
Definition delta_pack : bytes :=
  build_pack [[byte_of_Z 115] ++ base_oid ++ zlib_compress corrupt_delta].
Definition delta_store : R2GitStore :=
  store_of [(pfx ++ lit "/objects/pack/pack-1.pack", delta_pack);
            (pfx ++ lit "/objects/pack/pack-1.idx", build_index delta_pack [(delta_oid, 12)]);
            (match object_path pfx (hex_encode base_oid) with Some p => p | None => [] end,
             zlib_compress abc_obj)].

(** The pack [hello_pack] and the index [create_pack_index] makes for it,
    under the keys receive-pack gives them, and nothing else. *)
Definition hello_idx : bytes :=
  match create_pack_index hello_pack with Some v => v | None => [] end.
Definition minimal_store : R2GitStore :=
  store_of [(pfx ++ lit "/objects/pack/pack-1.pack", hello_pack);
            (pfx ++ lit "/objects/pack/pack-1.idx", hello_idx)].

(** Commit graphs whose ids are numbers: [0 -> 1 -> ... -> 3] and
    [0 -> 1 -> ... -> 200000], each ending in a root; the zero id is a
    number naming no commit. *)
Definition chain_to (root : N) (n : N) : option (unit * option N) :=
  if (n <? root)%N then Some (tt, Some (n + 1)%N)
  else if (n =? root)%N then Some (tt, None)
  else None.
Definition small_chain : N -> option (unit * option N) := chain_to 3.
Definition long_chain : N -> option (unit * option N) := chain_to 200000.
Definition zero_n : N := 1000000.

End Fixtures.

(* ================================================================== *)
(** ** Shapes of stores used in the statements                          *)
(* ================================================================== *)

(** [names = [m1; ...; mk]]: the ref [n] reads [ref: m1], [m1] reads
    [ref: m2], and so on up to [mk]; the store is unchanged by reading. *)
Fixpoint symref_chain (st : R2GitStore) (n : bytes) (names : list bytes) : Prop :=
  match names with
  | [] => True
  | m :: rest => read_ref n st = Some (Some (lit "ref: " ++ m), st) /\ symref_chain st m rest
  end.

(** The last ref of such a chain. *)
Fixpoint chain_end (n : bytes) (names : list bytes) : bytes :=
  match names with
  | [] => n
  | m :: rest => chain_end m rest
  end.

(** A content [resolve_ref_inner] returns as an id: 40 ASCII hex digits. *)
Definition hex40 (h : bytes) : bool :=
  (length h =? 40)%nat && forallb is_ascii_hexdigit h.

(** Every key ending in [.idx] holds an index made by [create_pack_index],
    and so does every key of a cached index list. *)
Definition minimal_indexes_only (st : R2GitStore) : Prop :=
  (forall k v, blobs (s3 st) !! k = Some v -> ends_with k (lit ".idx") = true ->
               exists p, create_pack_index p = Some v) /\
  (forall l, pack_list_cache st = Some l -> Forall (fun k => ends_with k (lit ".idx") = true) l).

(* ================================================================== *)
(** ** More of [objects.rs]: [put_object]                               *)
(* ================================================================== *)

(** [R2GitStore::put_object(oid, data)]: the loose object written, then
    cached; a failed write is returned before the cache is touched. *)
Definition put_object (oid data : bytes) : M (unit + bytes) :=
  let* st := get_state in
  let* path := unwrap_or_panic (object_path (prefix st) oid) in
  let* r := s3_put_object path data in
  match r with
  | inr e => ret (inr e)
  | inl _ => let* _ := cache_object oid data in ret (inl tt)
  end.

(** The loop [for line in text.lines()] of [extract_tree_from_commit]
    ([pack.rs]) and [extract_tree_oid] ([handler.rs]): the rest of the
    first line that starts with [tree ]. [line[5..]] cannot panic there:
    the line starts with five ASCII bytes. *)
Fixpoint first_tree_line (lines : list bytes) : option bytes :=
  match lines with
  | [] => None
  | line :: rest =>
      if starts_with line (lit "tree ") then Some (drop 5 line) else first_tree_line rest
  end.

(* ================================================================== *)
(** ** More of [pack.rs]: its object parsers and [create_packfile]      *)
(* ================================================================== *)

Module PackRs.

(** [parse_git_object] of [pack.rs]: unlike the one of [objects.rs], the
    header must split at [' '] into exactly two parts. *)
Definition parse_git_object `{Zlib} (data : bytes) : option (bytes * bytes) :=
  match zlib_decompress data with
  | None => None
  | Some d =>
      match list_find (fun b => b = x00) d with
      | None => None
      | Some (null_pos, _) =>
          match from_utf8 (take null_pos d) with
          | None => None
          | Some header =>
              match split_on x20 header with
              | [t; _] => Some (t, drop (S null_pos) d)
              | _ => None
              end
          end
      end
  end.

(** [extract_tree_from_commit(content)]. *)
Definition extract_tree_from_commit (content : bytes) : option bytes :=
  match from_utf8 content with
  | None => None
  | Some text => first_tree_line (str_lines text)
  end.

(** [extract_parents_from_commit(content)]; [line[7..]] cannot panic, the
    line starting with seven ASCII bytes. *)
Definition extract_parents_from_commit (content : bytes) : list bytes :=
  match from_utf8 content with
  | None => []
  | Some text =>
      map (drop 7) (filter (fun line => starts_with line (lit "parent ") = true) (str_lines text))
  end.

(** The [while pos < content.len()] loop of [parse_tree_entries]: entries
    [(mode, hex oid, name)]; each turn moves [pos] on by at least 21, so
    [content.len()] turns suffice. *)
Fixpoint parse_tree_entries_loop (fuel : nat) (content : bytes) (pos : nat)
  : list (bytes * bytes * bytes) :=
  match fuel with
  | O => []
  | S f =>
      if (pos <? length content)%nat then
        match list_find (fun b => b = x00) (drop pos content) with
        | None => []
        | Some (p, _) =>
            let null_pos := (pos + p)%nat in
            let header := match from_utf8 (take p (drop pos content)) with
                          | Some h => h
                          | None => []
                          end in
            match splitn2_space header with
            | [mode; name] =>
                if (length content <? null_pos + 21)%nat then []
                else
                  let oid := hex_encode (take 20 (drop (S null_pos) content)) in
                  (mode, oid, name) :: parse_tree_entries_loop f content (null_pos + 21)
            | _ => []
            end
        end
      else []
  end.

(** [parse_tree_entries(content)]. *)
Definition parse_tree_entries (content : bytes) : list (bytes * bytes * bytes) :=
  parse_tree_entries_loop (length content) content 0.

(** The type number [create_packfile] gives an object type. *)
Definition type_num (t : bytes) : option Z :=
  if bytes_eqb t (lit "commit") then Some 1
  else if bytes_eqb t (lit "tree") then Some 2
  else if bytes_eqb t (lit "blob") then Some 3
  else if bytes_eqb t (lit "tag") then Some 4
  else None.

(** The [for oid in oids] loop of [create_packfile]: the objects found and
    parsed, with a known type, in order. *)
Fixpoint packfile_objects `{Zlib} (oids : list bytes) : M (list (Z * bytes)) :=
  match oids with
  | [] => ret []
  | oid :: rest =>
      let* data := get_object oid in
      let obj := match data with
                 | Some d =>
                     match parse_git_object d with
                     | Some (t, content) =>
                         match type_num t with Some n => Some (n, content) | None => None end
                     | None => None
                     end
                 | None => None
                 end in
      let* objs := packfile_objects rest in
      ret (match obj with Some o => o :: objs | None => objs end)
  end.

(** The [while s > 0] loop of an entry header: seven bits of the size a
    byte, the high bit set when more follow; a [usize] size needs at most
    ten turns. *)
Fixpoint size_cont_bytes (fuel : nat) (s : Z) : bytes :=
  match fuel with
  | O => []
  | S f =>
      if 0 <? s then
        let s' := Z.shiftr s 7 in
        byte_of_Z (Z.lor (Z.land s 127) (if 0 <? s' then 128 else 0)) :: size_cont_bytes f s'
      else []
  end.

(** The header of one entry: type and low four bits of the size in the
    first byte ([u8] arithmetic), the rest of the size after it. *)
Definition pack_entry_header (obj_type size : Z) : bytes :=
  let c := Z.land (Z.lor (Z.shiftl obj_type 4) (Z.land size 15)) 255 in
  let s := Z.shiftr size 4 in
  let c := if 0 <? s then Z.lor c 128 else c in
  byte_of_Z c :: size_cont_bytes 64 s.

(** One entry: the header, then the compressed data. *)
Definition pack_entry `{Zlib} (o : Z * bytes) : bytes :=
  let '(obj_type, data) := o in
  pack_entry_header obj_type (Z.of_nat (length data)) ++ zlib_compress data.

(** [create_packfile(store, oids)]. *)
Definition create_packfile `{Zlib} (oids : list bytes) : M (option bytes) :=
  let* objects := packfile_objects oids in
  match objects with
  | [] => ret None
  | _ =>
      let pack := lit "PACK" ++ be_bytes 4 2 ++ be_bytes 4 (Z.of_nat (length objects) mod 2 ^ 32)
                  ++ mjoin (map pack_entry objects) in
      ret (Some (pack ++ sha1 pack))
  end.

End PackRs.

(* ================================================================== *)
(** ** [handler.rs]: trees, blobs and the commit list                   *)
(* ================================================================== *)

Module Handler.

(** The [while pos < content.len()] loop of [find_entry_in_tree]; each
    turn moves [pos] on by at least 21. *)
Fixpoint find_entry_loop (fuel : nat) (content name : bytes) (pos : nat) : option bytes :=
  match fuel with
  | O => None
  | S f =>
      if (pos <? length content)%nat then
        match list_find (fun b => b = x00) (drop pos content) with
        | None => None
        | Some (p, _) =>
            let entry_null := (pos + p)%nat in
            match from_utf8 (take p (drop pos content)) with
            | None => None
            | Some header =>
                match splitn2_space header with
                | [_; entry_name] =>
                    if (length content <? entry_null + 21)%nat then None
                    else
                      let oid := hex_encode (take 20 (drop (S entry_null) content)) in
                      if bytes_eqb entry_name name then Some oid
                      else find_entry_loop f content name (entry_null + 21)
                | _ => None
                end
            end
        end
      else None
  end.

(** [find_entry_in_tree(data, name)]: the hex id of the entry [name] of a
    compressed tree object. *)
Definition find_entry_in_tree `{Zlib} (data name : bytes) : option bytes :=
  match zlib_decompress data with
  | None => None
  | Some d =>
      match list_find (fun b => b = x00) d with
      | None => None
      | Some (null_pos, _) =>
          let content := drop (S null_pos) d in
          find_entry_loop (length content) content name 0
      end
  end.

(** [extract_tree_oid(data)]. *)
Definition extract_tree_oid `{Zlib} (data : bytes) : option bytes :=
  match zlib_decompress data with
  | None => None
  | Some d =>
      match list_find (fun b => b = x00) d with
      | None => None
      | Some (null_pos, _) =>
          match from_utf8 (drop (S null_pos) d) with
          | None => None
          | Some content => first_tree_line (str_lines content)
          end
      end
  end.

(** [parse_blob(data)]. *)
Definition parse_blob `{Zlib} (data : bytes) : option bytes :=
  match zlib_decompress data with
  | None => None
  | Some d =>
      match list_find (fun b => b = x00) d with
      | None => None
      | Some (null_pos, _) => from_utf8 (drop (S null_pos) d)
      end
  end.

End Handler.

Section GetCommits.

(** The commit list of [handler.rs] reads each commit with
    [get_commit_by_oid] ([get_object] then [parse_commit]): a commit and
    its first parent, or nothing. *)
Context {Oid Commit : Type}.
Variable get_commit_by_oid : Oid -> option (Commit * option Oid).

(** [usize] addition in a release build. *)
Definition usize_add (a b : N) : N := ((a + b) mod 2 ^ 64)%N.

(** The [while let Some(oid) = current_oid.take()] loop of [get_commits]:
    the commits kept and the final [count]. A commit that cannot be read
    leaves [current_oid] empty. *)
Fixpoint commits_loop (fuel : nat) (current : option Oid) (limit skip count : N)
  (commits : list Commit) : list Commit * N :=
  match fuel with
  | O => (commits, count)
  | S f =>
      match current with
      | None => (commits, count)
      | Some oid =>
          if (usize_add (usize_add skip limit) 1 <=? count)%N then (commits, count)
          else match get_commit_by_oid oid with
               | None => (commits, count)
               | Some (c, parent) =>
                   let commits' := if (skip <=? count)%N && (count <? usize_add skip limit)%N
                                   then commits ++ [c] else commits in
                   commits_loop f parent limit skip (count + 1) commits'
               end
      end
  end.

(** [get_commits(store, branch, limit, skip)] from the resolved head
    [head_oid]: the page of commits and [has_more]; [count] stays at most
    [skip + limit + 1], so that many turns and one more suffice. *)
Definition get_commits_from (head_oid : Oid) (limit skip : N) : list Commit * bool :=
  let '(commits, count) :=
    commits_loop (S (S (N.to_nat (usize_add (usize_add skip limit) 1)))) (Some head_oid)
                 limit skip 0 [] in
  (commits, (usize_add skip limit <? count)%N).

End GetCommits.

(* ================================================================== *)
(** ** Shapes used in the statements of the further properties          *)
(* ================================================================== *)

(** A printable ASCII byte other than the space (['!'..'~']). *)
Definition ascii_graphic (b : byte) : bool := (33 <=? bv b) && (bv b <=? 126).

(** A tree entry as git writes it: [<mode> <name>\0] and the 20-byte id. *)
Definition tree_entry (mode name sha : bytes) : bytes := mode ++ lit " " ++ name ++ [x00] ++ sha.

(** A store holding the blob [hello] as a loose object. *)
Definition loose_hello_store : R2GitStore :=
  Fixtures.store_of [(Fixtures.pfx ++ lit "/objects/" ++ take 2 Fixtures.hello_oid ++ lit "/"
                      ++ drop 2 Fixtures.hello_oid, zlib_compress Fixtures.hello_obj)].

(** A tree entry the tree parsers read back: no space in the mode, no NUL
    in the mode or the name, a UTF-8 header and a 20-byte id. *)
Definition tree_entry_ok (mode name sha : bytes) : bool :=
  negb (bool_decide (x20 ∈ mode)) && negb (bool_decide (x00 ∈ mode ++ name))
  && utf8_valid (mode ++ lit " " ++ name) && (length sha =? 20)%nat.

(** A line that [str::lines] gives back unchanged: no newline in it and
    no carriage return at its end. *)
Definition line_ok (l : bytes) : bool :=
  negb (bool_decide (x0a ∈ l)) && negb (bool_decide (last l = Some x0d)).

(** The body of a commit object: its [tree] line, its [parent] lines, the
    other lines, each ended by a newline. *)
Definition commit_lines (tree : bytes) (parents others : list bytes) : list bytes :=
  (lit "tree " ++ tree) :: map (fun p => lit "parent " ++ p) parents ++ others.

Definition commit_text (tree : bytes) (parents others : list bytes) : bytes :=
  mjoin (map (fun l => l ++ [x0a]) (commit_lines tree parents others)).

(** A [packed-refs] file as [git pack-refs] writes its refs: a line
    [<oid> <name>] each. *)
Definition packed_refs_text (entries : list (bytes * bytes)) : bytes :=
  mjoin (map (fun '(name, oid) => oid ++ lit " " ++ name ++ [x0a]) entries).

(** An entry such a line can hold: printable ids and names, the id not
    starting with the [#] of a comment or the [^] of a peeled line. *)
Definition packed_entry_ok (name oid : bytes) : bool :=
  forallb ascii_graphic oid && forallb ascii_graphic name &&
  negb (bool_decide (oid = [])) && negb (bool_decide (name = [])) &&
  negb (starts_with oid (lit "#")) && negb (starts_with oid (lit "^")).

(* ================================================================== *)
(** ** [handler.rs]: walking a path, reading a file                     *)
(* ================================================================== *)

(** The [for part in parts] loop of [navigate_to_path] ([handler.rs]): a
    tree read with [get_object], then the entry [part] found in it. *)
Fixpoint navigate_loop `{Zlib} (parts : list bytes) (current_oid : bytes) : M (option bytes) :=
  match parts with
  | [] => ret (Some current_oid)
  | part :: rest =>
      let* tree_data := get_object current_oid in
      match tree_data with
      | None => ret None
      | Some d =>
          match Handler.find_entry_in_tree d part with
          | None => ret None
          | Some oid => navigate_loop rest oid
          end
      end
  end.

(** [path.split('/').filter(|s| !s.is_empty())]. *)
Definition path_parts (path : bytes) : list bytes :=
  filter (fun s : bytes => s <> []) (split_on x2f path).

(** [navigate_to_path(store, tree_oid, path)]. *)
Definition navigate_to_path `{Zlib} (tree_oid path : bytes) : M (option bytes) :=
  navigate_loop (path_parts path) tree_oid.

(** [<[&str]>::join("/")]. *)
Fixpoint join_slash (l : list bytes) : bytes :=
  match l with
  | [] => []
  | [x] => x
  | x :: r => x ++ lit "/" ++ join_slash r
  end.

(** [get_file(store, branch, path)] ([handler.rs]): the content of the
    blob at [path] in the head commit of [branch], and its id. *)
Definition get_file `{Zlib} (branch path : bytes) : M (option (bytes * bytes)) :=
  let* head := resolve_ref (lit "refs/heads/" ++ branch) in
  match head with
  | None => ret None
  | Some head_oid =>
      let* commit_data := get_object head_oid in
      match commit_data with
      | None => ret None
      | Some commit_data =>
          match Handler.extract_tree_oid commit_data with
          | None => ret None
          | Some tree_oid =>
              let parts := path_parts path in
              match parts with
              | [] => ret None
              | _ =>
                  match last parts with
                  | None => ret None
                  | Some file_name =>
                      let dir_path := if (1 <? length parts)%nat
                                      then join_slash (take (length parts - 1) parts)
                                      else [] in
                      let* dir_tree_oid :=
                        match dir_path with
                        | [] => ret (Some tree_oid)
                        | _ => navigate_to_path tree_oid dir_path
                        end in
                      match dir_tree_oid with
                      | None => ret None
                      | Some dir_tree_oid =>
                          let* dir_tree_data := get_object dir_tree_oid in
                          match dir_tree_data with
                          | None => ret None
                          | Some dir_tree_data =>
                              match Handler.find_entry_in_tree dir_tree_data file_name with
                              | None => ret None
                              | Some file_oid =>
                                  let* blob_data := get_object file_oid in
                                  match blob_data with
                                  | None => ret None
                                  | Some blob_data =>
                                      match Handler.parse_blob blob_data with
                                      | None => ret None
                                      | Some content => ret (Some (content, file_oid))
                                      end
                                  end
                              end
                          end
                      end
                  end
              end
          end
      end
  end.

(* ================================================================== *)
(** * Proofs                                                            *)
(* ================================================================== *)

(** ** Bytes *)

Lemma bv_range (b : byte) : 0 <= bv b <= 255.
Proof.
  unfold bv. pose proof (Byte.to_N_bounded b). lia.
Qed.

Lemma byte_of_Z_bv (b : byte) : byte_of_Z (bv b) = b.
Proof.
  unfold byte_of_Z, bv. pose proof (Byte.to_N_bounded b).
  rewrite Z.mod_small by lia. rewrite N2Z.id. now rewrite Byte.of_to_N.
Qed.

(** ** The delta decoder *)

Example apply_delta_scenario3 :
  apply_delta (lit "hello world" ++ [x0a]) (bytes_of_Zs [12; 12; 144; 6] ++ [x06] ++ lit "there!")
  = Some (Some (lit "hello there!")).
Proof. vm_compute. reflexivity. Qed.

Lemma land_pow2_eqb (x i : Z) :
  0 <= i -> (Z.land x (2 ^ i) =? 0) = negb (Z.testbit x i).
Proof.
  intros Hi. destruct (Z.testbit x i) eqn:E; simpl.
  - apply Z.eqb_neq. intros H0.
    assert (Z.testbit (Z.land x (2 ^ i)) i = false) as Hb by (rewrite H0; apply Z.testbit_0_l).
    rewrite Z.land_spec, E, Z.pow2_bits_true in Hb by lia. discriminate.
  - apply Z.eqb_eq. apply Z.bits_inj'. intros j Hj.
    rewrite Z.land_spec, Z.testbit_0_l, Z.pow2_bits_eqb by lia.
    destruct (Z.eqb_spec i j); [subst; now rewrite E | apply andb_false_r].
Qed.

Lemma lor_shiftl_add (x b n : Z) :
  0 <= n -> 0 <= x < 2 ^ n -> Z.lor x (Z.shiftl b n) = x + b * 2 ^ n.
Proof.
  intros Hn Hx. rewrite Z.shiftl_mul_pow2 by lia.
  assert (Hd : Z.land x (b * 2 ^ n) = 0).
  { apply Z.bits_inj'. intros j Hj. rewrite Z.land_spec, Z.testbit_0_l.
    destruct (Z.lt_ge_cases j n).
    - rewrite Z.mul_pow2_bits_low by lia. apply andb_false_r.
    - rewrite <- (Z.mod_small x (2 ^ n)) by lia.
      rewrite Z.mod_pow2_bits_high by lia. reflexivity. }
  rewrite <- Z.lxor_lor by exact Hd. symmetry. now apply Z.add_nocarry_lxor.
Qed.

Lemma get_or_zero_range (rest : bytes) :
  0 <= fst (get_or_zero rest) <= 255.
Proof. destruct rest; simpl; [lia | apply bv_range]. Qed.

Lemma copy_operands_fields (c : byte) (rest : bytes) :
  copy_operands (bv c) rest = copy_fields (bv c) rest.
Proof.
  unfold copy_operands, copy_fields. cbn [operand_field].
  pose proof (land_pow2_eqb (bv c) 0 ltac:(lia)) as L0.
  pose proof (land_pow2_eqb (bv c) 1 ltac:(lia)) as L1.
  pose proof (land_pow2_eqb (bv c) 2 ltac:(lia)) as L2.
  pose proof (land_pow2_eqb (bv c) 3 ltac:(lia)) as L3.
  pose proof (land_pow2_eqb (bv c) 4 ltac:(lia)) as L4.
  pose proof (land_pow2_eqb (bv c) 5 ltac:(lia)) as L5.
  pose proof (land_pow2_eqb (bv c) 6 ltac:(lia)) as L6.
  change (2 ^ 0) with 1 in L0. change (2 ^ 1) with 2 in L1. change (2 ^ 2) with 4 in L2.
  change (2 ^ 3) with 8 in L3. change (2 ^ 4) with 16 in L4. change (2 ^ 5) with 32 in L5.
  change (2 ^ 6) with 64 in L6.
  rewrite L0, L1, L2, L3, L4, L5, L6.
  change (0 + 1) with 1. change (1 + 1) with 2. change (2 + 1) with 3.
  change (3 + 1) with 4. change (4 + 1) with 5. change (5 + 1) with 6.
  change (6 + 1) with 7.
  repeat match goal with
  | |- context [Z.testbit (bv c) ?i] => destruct (Z.testbit (bv c) i); cbn [negb]
  | |- context [get_or_zero ?r] =>
      let E := fresh "E" in
      pose proof (get_or_zero_range r);
      destruct (get_or_zero r) as [? ?] eqn:E; cbn [fst] in *
  end;
  repeat match goal with
  | |- context [Z.lor ?x (Z.shiftl ?b ?n)] =>
      rewrite (lor_shiftl_add x b n) by (cbn; lia)
  end;
  cbn; rewrite !pair_equal_spec; repeat split; try reflexivity; lia.
Qed.

Lemma land128_bv (c : byte) : (Z.land (bv c) 128 =? 0) = (bv c <? 128).
Proof. destruct c; reflexivity. Qed.

Lemma get_or_zero_length (rest : bytes) :
  (length (snd (get_or_zero rest)) <= length rest)%nat.
Proof. destruct rest; simpl; lia. Qed.

Lemma operand_field_length (cmd bit : Z) (k : nat) (rest : bytes) :
  (length (snd (operand_field cmd bit k rest)) <= length rest)%nat.
Proof.
  revert bit rest. induction k as [|k IH]; intros bit rest; simpl; [lia|].
  destruct (if Z.testbit cmd bit then get_or_zero rest else (0, rest)) as [b r1] eqn:E1.
  assert (length r1 <= length rest)%nat.
  { destruct (Z.testbit cmd bit).
    - pose proof (get_or_zero_length rest) as G. rewrite E1 in G. exact G.
    - injection E1 as <- <-. lia. }
  specialize (IH (bit + 1) r1).
  destruct (operand_field cmd (bit + 1) k r1) as [v r2]. simpl in *. lia.
Qed.

Lemma copy_fields_length (cmd : Z) (rest rest' : bytes) (off size : Z) :
  copy_fields cmd rest = (off, size, rest') -> (length rest' <= length rest)%nat.
Proof.
  unfold copy_fields. intros E.
  pose proof (operand_field_length cmd 0 4 rest) as H1.
  destruct (operand_field cmd 0 4 rest) as [o r1].
  pose proof (operand_field_length cmd 4 3 r1) as H2.
  destruct (operand_field cmd 4 3 r1) as [s r2]. injection E as <- <- <-.
  simpl in *. lia.
Qed.

Lemma decodes_nil_inv (instrs : list delta_instr) :
  DecodesTo [] instrs -> instrs = [].
Proof. intros H. now inversion H. Qed.

Lemma apply_delta_loop_spec (base : bytes) :
  forall fuel rest acc r, (length rest <= fuel)%nat ->
  apply_delta_loop fuel base rest acc = Some r <->
  exists instrs, DecodesTo rest instrs /\ Forall (copy_in_bounds base) instrs /\
                 r = acc ++ delta_output base instrs.
Proof.
  induction fuel as [|fuel IH]; intros rest acc r Hlen.
  - destruct rest as [|c rest]; simpl in Hlen; [|lia]. simpl. split.
    + intros [= <-]. exists []. repeat split; [constructor | constructor | simpl; now rewrite app_nil_r].
    + intros (instrs & Hd & _ & ->). apply decodes_nil_inv in Hd. subst. simpl.
      now rewrite app_nil_r.
  - destruct rest as [|c rest1].
    + simpl. split.
      * intros [= <-]. exists []. repeat split; [constructor | constructor | simpl; now rewrite app_nil_r].
      * intros (instrs & Hd & _ & ->). apply decodes_nil_inv in Hd. subst. simpl.
        now rewrite app_nil_r.
    + simpl in Hlen. cbn [apply_delta_loop]. rewrite land128_bv.
      pose proof (bv_range c) as Hc.
      destruct (Z.ltb_spec (bv c) 128) as [Hlt|Hge]; cbn [negb].
      * (* not a COPY *)
        destruct (Z.eqb_spec (bv c) 0) as [H0|H0]; cbn [negb].
        -- split; [discriminate|]. intros (instrs & Hd & _ & _).
           inversion Hd; subst; lia.
        -- destruct (Nat.ltb_spec (length rest1) (Z.to_nat (bv c))) as [Hshort|Hok].
           ++ split; [discriminate|]. intros (instrs & Hd & _ & _).
              inversion Hd; subst; [lia|].
              rewrite length_app in Hshort. lia.
           ++ rewrite IH by (rewrite length_drop; lia). split.
              ** intros (instrs & Hd & Hf & ->).
                 exists (DInsert (take (Z.to_nat (bv c)) rest1) :: instrs).
                 split; [|split].
                 --- rewrite <- (take_drop (Z.to_nat (bv c)) rest1) at 1.
                     constructor; [lia | rewrite length_take; lia | exact Hd].
                 --- constructor; [exact I | exact Hf].
                 --- simpl. now rewrite app_assoc.
              ** intros (instrs & Hd & Hf & ->).
                 inversion Hd as [|? ? ? ? ? ? Hge'|? lit rest' instrs' Hr Hl Hd']; subst; [lia|].
                 inversion Hf; subst.
                 exists instrs'. split; [|split; [assumption|]].
                 --- rewrite <- Hl, drop_app_length. exact Hd'.
                 --- rewrite <- Hl, take_app_length. simpl. now rewrite app_assoc.
      * (* a COPY *)
        rewrite copy_operands_fields.
        destruct (copy_fields (bv c) rest1) as [[off size0] rest2] eqn:Ef.
        pose proof (copy_fields_length _ _ _ _ _ Ef) as Hl2.
        set (size := if size0 =? 0 then 65536 else size0).
        destruct (Z.ltb_spec (Z.of_nat (length base)) (off + size)) as [Hout|Hin].
        -- split; [discriminate|]. intros (instrs & Hd & Hf & _).
           inversion Hd as [|? ? off' size' rest' instrs' _ Ef' _|]; subst; [|lia].
           rewrite Ef in Ef'. injection Ef' as <- <- <-.
           inversion Hf as [|? ? Hb _]; subst. simpl in Hb. lia.
        -- rewrite IH by lia. split.
           ++ intros (instrs & Hd & Hf & ->).
              exists (DCopy off size :: instrs). split; [|split].
              ** econstructor; [lia | exact Ef | exact Hd].
              ** constructor; [simpl; lia | exact Hf].
              ** simpl. now rewrite app_assoc.
           ++ intros (instrs & Hd & Hf & ->).
              inversion Hd as [|? ? off' size' rest' instrs' _ Ef' Hd'|]; subst; [|lia].
              rewrite Ef in Ef'. injection Ef' as <- <- <-.
              inversion Hf; subst.
              exists instrs'. split; [exact Hd'|split; [assumption|]].
              simpl. now rewrite app_assoc.
Qed.




(** ** pkt-lines *)

Example parse_pkt_lines_example :
  parse_pkt_lines (lit "000dwant abc" ++ [x0a] ++ lit "0000" ++ lit "0009done" ++ [x0a])
  = [lit "want abc"; lit "done"].
Proof. vm_compute. reflexivity. Qed.

Example format_04x_example :
  format_04x 30 = lit "001e" /\ format_04x 65536 = lit "10000".
Proof. vm_compute. split; reflexivity. Qed.

Lemma parse_pkt_lines_loop_fuel :
  forall f1 f2 rest, (length rest <= f1)%nat -> (length rest <= f2)%nat ->
  parse_pkt_lines_loop f1 rest = parse_pkt_lines_loop f2 rest.
Proof.
  induction f1 as [|f1 IH]; intros f2 rest H1 H2.
  - destruct rest; simpl in H1; [|lia]. destruct f2; reflexivity.
  - destruct f2 as [|f2].
    + destruct rest; simpl in H2; [reflexivity|lia].
    + cbn [parse_pkt_lines_loop].
      destruct (length rest <? 4)%nat eqn:Hs; [reflexivity|].
      apply Nat.ltb_ge in Hs.
      set (len := match u16_from_str_radix16 _ with Some v => v | None => 0 end).
      destruct (len =? 0) eqn:Hz.
      { apply IH; rewrite length_drop; lia. }
      destruct (len <? 4) eqn:Hl; [reflexivity|].
      apply Z.ltb_ge in Hl.
      destruct (length rest <? Z.to_nat len)%nat; [reflexivity|].
      rewrite (IH f2) by (rewrite length_drop; lia). reflexivity.
Qed.

(** The frame-length check over all sixteen-bit values. *)
Definition frame_len_ok (n : Z) : bool :=
  (length (format_04x n) =? 4)%nat && utf8_valid (format_04x n) &&
  bool_decide (u16_from_str_radix16 (format_04x n) = Some n).

Fixpoint frame_len_ok_upto (fuel : nat) (n : Z) : bool :=
  match fuel with
  | O => true
  | S f => frame_len_ok n && frame_len_ok_upto f (n + 1)
  end.

Lemma frame_len_ok_upto_spec :
  forall fuel n k, frame_len_ok_upto fuel n = true -> n <= k < n + Z.of_nat fuel ->
  frame_len_ok k = true.
Proof.
  induction fuel as [|f IH]; intros n k H Hk; [lia|].
  simpl in H. apply andb_prop in H as [H1 H2].
  destruct (Z.eq_dec k n) as [->|Hne]; [exact H1|].
  apply (IH (n + 1)); [exact H2|lia].
Qed.

Lemma frame_len_ok_all (n : Z) : 0 <= n < 65536 -> frame_len_ok n = true.
Proof.
  intros Hn. apply (frame_len_ok_upto_spec (Z.to_nat 65536) 0); [|lia].
  vm_compute. reflexivity.
Qed.

Lemma parse_pkt_lines_loop_S (f : nat) (rest : bytes) :
  parse_pkt_lines_loop (S f) rest =
  if (length rest <? 4)%nat then []
  else
    let len_hex := match from_utf8 (take 4 rest) with
                   | Some s => s | None => lit "0000" end in
    let len := match u16_from_str_radix16 len_hex with
               | Some v => v | None => 0 end in
    if len =? 0 then parse_pkt_lines_loop f (drop 4 rest)
    else if len <? 4 then []
    else if (length rest <? Z.to_nat len)%nat then []
    else
      let line_data := take (Z.to_nat len - 4) (drop 4 rest) in
      let tl := parse_pkt_lines_loop f (drop (Z.to_nat len) rest) in
      match from_utf8 line_data with
      | Some line => trim line :: tl
      | None => tl
      end.
Proof. reflexivity. Qed.

Lemma parse_pkt_lines_frame (l rest : bytes) :
  utf8_valid l = true -> Z.of_nat (length l) + 4 <= 65535 ->
  parse_pkt_lines (format_04x (Z.of_nat (length l) + 4) ++ l ++ rest)
  = trim l :: parse_pkt_lines rest.
Proof.
  intros Hv Hlen.
  pose proof (frame_len_ok_all (Z.of_nat (length l) + 4) ltac:(lia)) as Hf.
  unfold frame_len_ok in Hf.
  set (hd := format_04x (Z.of_nat (length l) + 4)) in *.
  apply andb_prop in Hf as [Hf Hp]. apply andb_prop in Hf as [H4 Hu].
  apply Nat.eqb_eq in H4. apply bool_decide_eq_true in Hp.
  unfold parse_pkt_lines. rewrite !length_app, H4.
  replace (4 + (length l + length rest))%nat with (S (3 + length l + length rest))%nat by lia.
  rewrite parse_pkt_lines_loop_S. cbv zeta. rewrite !length_app, H4.
  destruct (4 + (length l + length rest) <? 4)%nat eqn:Hs.
  { apply Nat.ltb_lt in Hs. lia. }
  assert (take 4 (hd ++ l ++ rest) = hd) as Ht by (rewrite <- H4; apply take_app_length).
  assert (drop 4 (hd ++ l ++ rest) = l ++ rest) as Hd by (rewrite <- H4; apply drop_app_length).
  assert (from_utf8 hd = Some hd) as Hfu by (unfold from_utf8; rewrite Hu; reflexivity).
  rewrite Ht, !Hfu, !Hp.
  destruct (Z.of_nat (length l) + 4 =? 0) eqn:Hz; [lia|].
  destruct (Z.of_nat (length l) + 4 <? 4) eqn:Hl; [lia|].
  replace (Z.to_nat (Z.of_nat (length l) + 4)) with (4 + length l)%nat by lia.
  destruct (4 + (length l + length rest) <? 4 + length l)%nat eqn:Hr.
  { apply Nat.ltb_lt in Hr. lia. }
  replace (4 + length l - 4)%nat with (length l) by lia.
  rewrite Hd, take_app_length.
  rewrite <- drop_drop, Hd, drop_app_length.
  unfold from_utf8. rewrite Hv. f_equal.
  apply parse_pkt_lines_loop_fuel; lia.
Qed.

Lemma parse_pkt_lines_flush (rest : bytes) :
  parse_pkt_lines (lit "0000" ++ rest) = parse_pkt_lines rest.
Proof.
  unfold parse_pkt_lines. rewrite length_app.
  change (length (lit "0000")) with 4%nat.
  replace (4 + length rest)%nat with (S (3 + length rest)) by lia.
  cbn [parse_pkt_lines_loop].
  assert (take 4 (lit "0000" ++ rest) = lit "0000") as Ht
    by (apply (take_app_length (lit "0000"))).
  assert (drop 4 (lit "0000" ++ rest) = rest) as Hd
    by (apply (drop_app_length (lit "0000"))).
  assert (from_utf8 (lit "0000") = Some (lit "0000")) as Hu by reflexivity.
  assert (u16_from_str_radix16 (lit "0000") = Some 0) as Hp by reflexivity.
  rewrite Ht, Hu, Hp, Hd, length_app.
  change (length (lit "0000")) with 4%nat.
  destruct (4 + length rest <? 4)%nat eqn:Hs.
  { apply Nat.ltb_lt in Hs. lia. }
  change (0 =? 0) with true. cbv iota.
  apply parse_pkt_lines_loop_fuel; lia.
Qed.

(** Claim C9 (amended): for every list of UTF-8 lines, each short enough for
    a four-digit length prefix, parsing the pkt-line encoding of the list
    followed by any further bytes yields the lines trimmed of surrounding
    whitespace, followed by the parse of the further bytes; the closing
    [0000] flush frame leaves no separator in the output. *)
Theorem parse_pkt_lines_encode (ls : list bytes) (rest : bytes) :
  Forall (fun l => utf8_valid l = true /\ Z.of_nat (length l) + 4 <= 65535) ls ->
  parse_pkt_lines (pkt_encode ls ++ rest) = map trim ls ++ parse_pkt_lines rest.
Proof.
  intros Hls. unfold pkt_encode. rewrite <- (app_assoc _ (lit "0000") rest).
  induction Hls as [|l ls [Hv Hlen] Hls IH]; simpl.
  - apply parse_pkt_lines_flush.
  - rewrite <- !app_assoc. rewrite parse_pkt_lines_frame by assumption.
    f_equal. exact IH.
Qed.

Lemma parse_pkt_lines_encode_witness :
  parse_pkt_lines (pkt_encode [lit "a"] ++ []) = map trim [lit "a"] ++ parse_pkt_lines [].
Proof.
  apply (parse_pkt_lines_encode [lit "a"] []).
  constructor; [split; [reflexivity | simpl; lia] | constructor].
Defined.

(** Claim C9, as first stated, fails: a line ending in a newline comes back
    without it, and a flush frame between two encoded lists leaves no
    separator in the parsed output. *)
Lemma parse_pkt_lines_encode_counterexample :
  parse_pkt_lines (pkt_encode [lit "want x" ++ [x0a]]) = [lit "want x"] /\
  parse_pkt_lines (pkt_encode [] ++ pkt_encode [lit "done"]) = [lit "done"].
Proof. split; vm_compute; reflexivity. Qed.

(* ================================================================== *)
(** ** receive-pack without a pack                                      *)
(* ================================================================== *)

Lemma starts_with_app (s p : bytes) : starts_with s p = true -> s = p ++ drop (length p) s.
Proof.
  revert s. induction p as [|c p IH]; intros s H; [reflexivity|].
  destruct s as [|d s]; [discriminate|].
  simpl in H. apply andb_prop in H as [Hc H].
  apply bool_decide_eq_true in Hc. subst d. simpl. f_equal. apply IH, H.
Qed.

Lemma find_pack_signature_none (body : bytes) (i : nat) :
  (forall pre post, body <> pre ++ lit "PACK" ++ post) ->
  find_pack_signature i body = None.
Proof.
  revert i. induction body as [|x r IH]; intros i Hno; [reflexivity|].
  cbn [find_pack_signature]. destruct (starts_with (x :: r) (lit "PACK")) eqn:Hs.
  - exfalso. apply (Hno [] (drop 4 (x :: r))). apply starts_with_app in Hs. exact Hs.
  - apply IH. intros pre post He. apply (Hno (x :: pre) post). rewrite He. reflexivity.
Qed.

(** Claim C5: a request body with no [PACK] signature gets the response
    [000eunpack ok\n0000], no ref update, and leaves the store (bucket and
    caches) as it was. *)
Theorem receive_pack_without_pack (body : bytes) (st : R2GitStore) :
  (forall pre post, body <> pre ++ lit "PACK" ++ post) ->
  handle_receive_pack body st = Some ((lit "000eunpack ok" ++ [x0a] ++ lit "0000", []), st).
Proof.
  intros Hno. unfold handle_receive_pack.
  rewrite (find_pack_signature_none body 0 Hno). reflexivity.
Qed.

Lemma receive_pack_without_pack_witness :
  (forall pre post, lit "0000" <> pre ++ lit "PACK" ++ post) /\
  handle_receive_pack (lit "0000") (Fixtures.store_of [])
  = Some ((lit "000eunpack ok" ++ [x0a] ++ lit "0000", []), Fixtures.store_of []).
Proof.
  assert (Hno : forall pre post, lit "0000" <> pre ++ lit "PACK" ++ post).
  { intros pre post H. destruct pre as [|c pre].
    - discriminate H.
    - apply (f_equal length) in H. rewrite length_app in H. simpl in H. lia. }
  split; [exact Hno|].
  apply (receive_pack_without_pack (lit "0000") (Fixtures.store_of [])). exact Hno.
Defined.

(* ================================================================== *)
(** ** upload-pack on a short [want] line                               *)
(* ================================================================== *)

Lemma wants_haves_short_want (lines : list bytes) (line : bytes) :
  In line lines -> starts_with line (lit "want ") = true -> (length line < 45)%nat ->
  wants_haves lines = None.
Proof.
  intros Hin Hw Hl. induction lines as [|l ls IH]; [destruct Hin|].
  assert (Hslice : str_slice line 5 45 = None).
  { unfold str_slice. replace (45 <=? length line)%nat with false
      by (symmetry; apply Nat.leb_gt; lia).
    rewrite andb_false_r. reflexivity. }
  destruct Hin as [<-|Hin].
  - cbn [wants_haves]. rewrite Hw, Hslice. reflexivity.
  - cbn [wants_haves]. rewrite (IH Hin).
    destruct (starts_with l (lit "want ")); [destruct (str_slice l 5 45); reflexivity|].
    destruct (starts_with l (lit "have ")); [destruct (str_slice l 5 45); reflexivity|].
    reflexivity.
Qed.

(** Claim C10 (a defect of the code): when the parsed body holds a line that
    starts with [want ] and is shorter than 45 bytes, [line[5..45]] is out
    of range and [handle_upload_pack] panics, whatever the store and the
    object walk. *)
Theorem upload_pack_short_want_panics
    (collect : list bytes -> M (list bytes)) (pack : list bytes -> M (option bytes))
    (body line : bytes) (st : R2GitStore) :
  In line (parse_pkt_lines body) -> starts_with line (lit "want ") = true ->
  (length line < 45)%nat ->
  handle_upload_pack collect pack body st = None.
Proof.
  intros Hin Hw Hl. unfold handle_upload_pack, bind.
  rewrite (wants_haves_short_want _ line Hin Hw Hl). reflexivity.
Qed.

Lemma upload_pack_short_want_panics_witness :
  In (lit "want abc") (parse_pkt_lines (pkt_line (lit "want abc" ++ [x0a]))) /\
  handle_upload_pack (fun _ => ret []) (fun _ => ret None)
    (pkt_line (lit "want abc" ++ [x0a])) (Fixtures.store_of []) = None.
Proof.
  assert (Hin : In (lit "want abc") (parse_pkt_lines (pkt_line (lit "want abc" ++ [x0a])))).
  { vm_compute. left. reflexivity. }
  split; [exact Hin|].
  apply (upload_pack_short_want_panics _ _ _ (lit "want abc")); [exact Hin | reflexivity | simpl; lia].
Defined.

(* ================================================================== *)
(** ** Packed and loose refs of one name                                *)
(* ================================================================== *)

(** Claim C2 (a defect of the code): with [refs/heads/feature] both in
    [packed-refs] (id [aa..a]) and loose (id [bb..b]), [list_refs] lists
    the name once, with the packed id, while [resolve_ref] of the same name
    gives the loose id. *)
Theorem list_refs_packed_wins :
  list_refs (lit "refs/heads") Fixtures.dup_ref_store
  = Some ([(lit "refs/heads/feature", Fixtures.oid_a)], Fixtures.dup_ref_store) /\
  resolve_ref (lit "refs/heads/feature") Fixtures.dup_ref_store
  = Some (Some Fixtures.oid_b, Fixtures.dup_ref_store).
Proof. split; vm_compute; reflexivity. Qed.

(* ================================================================== *)
(** ** A corrupt delta in a REF_DELTA chain                             *)
(* ================================================================== *)

(** Claim C4 (a defect of the code): the pack entry [11..11] is a
    REF_DELTA on the loose blob [abc] with a delta that does not apply;
    [resolve_object_iterative] still returns the blob [abc], the base with
    the failed delta skipped. *)
Theorem resolve_skips_corrupt_delta :
  apply_delta (lit "abc") Fixtures.corrupt_delta = Some None /\
  option_map fst (resolve_object_iterative (hex_encode Fixtures.delta_oid) Fixtures.delta_store)
  = Some (Some (lit "blob", lit "abc")).
Proof. split; vm_compute; reflexivity. Qed.

(* ================================================================== *)
(** ** Ref resolution                                                   *)
(* ================================================================== *)

Lemma hex_not_symref (h : bytes) : forallb is_ascii_hexdigit h = true ->
  starts_with h (lit "ref: ") = false.
Proof.
  destruct h as [|b h]; [reflexivity|].
  simpl. intros H. apply andb_prop in H as [Hb _].
  destruct (bool_decide ("r"%byte = b)) eqn:E; [|reflexivity].
  apply bool_decide_eq_true in E. subst b. discriminate Hb.
Qed.

Lemma strip_symref (m : bytes) : strip_prefix (lit "ref: " ++ m) (lit "ref: ") = Some m.
Proof. reflexivity. Qed.

Lemma resolve_ref_inner_found (st : R2GitStore) (h : bytes) :
  forall names n fuel depth,
  symref_chain st n names ->
  read_ref (chain_end n names) st = Some (Some h, st) -> hex40 h = true ->
  (depth + Z.of_nat (length names) <= 10) -> (length names < fuel)%nat -> 0 <= depth ->
  resolve_ref_inner fuel n depth st = Some (Some h, st).
Proof.
  induction names as [|m rest IH]; intros n fuel depth Hc Hend Hh Hd Hf H0.
  - destruct fuel as [|f]; [simpl in Hf; lia|].
    simpl in Hend. unfold hex40 in Hh. apply andb_prop in Hh as [Hl Hx].
    cbn [resolve_ref_inner]. replace (10 <? depth) with false by (symmetry; apply Z.ltb_ge; simpl in Hd; lia).
    unfold bind at 1. rewrite Hend. rewrite (hex_not_symref h Hx), Hl, Hx. reflexivity.
  - destruct fuel as [|f]; [simpl in Hf; lia|].
    destruct Hc as [Hr Hc]. simpl in Hend, Hd, Hf.
    cbn [resolve_ref_inner]. replace (10 <? depth) with false by (symmetry; apply Z.ltb_ge; lia).
    unfold bind at 1. rewrite Hr.
    replace (starts_with (lit "ref: " ++ m) (lit "ref: ")) with true by reflexivity.
    rewrite strip_symref. apply IH; auto; lia.
Qed.

Lemma resolve_ref_inner_too_deep (st : R2GitStore) :
  forall names n fuel depth,
  symref_chain st n names ->
  (11 <= depth + Z.of_nat (length names)) -> (Z.to_nat (11 - depth) < fuel)%nat ->
  0 <= depth <= 11 ->
  resolve_ref_inner fuel n depth st = Some (None, st).
Proof.
  induction names as [|m rest IH]; intros n fuel depth Hc Hd Hf H0.
  - destruct fuel as [|f]; [lia|]. simpl in Hd.
    cbn [resolve_ref_inner]. replace (10 <? depth) with true by (symmetry; apply Z.ltb_lt; lia).
    reflexivity.
  - destruct fuel as [|f]; [lia|]. destruct Hc as [Hr Hc]. simpl in Hd.
    cbn [resolve_ref_inner].
    destruct (10 <? depth) eqn:E; [reflexivity|]. apply Z.ltb_ge in E.
    unfold bind at 1. rewrite Hr.
    replace (starts_with (lit "ref: " ++ m) (lit "ref: ")) with true by reflexivity.
    rewrite strip_symref. apply IH; auto; lia.
Qed.

(** Claim C6 (amended): along a chain of refs each holding [ref: <next>],
    [resolve_ref] follows at most ten links: when the chain has at most
    ten links and its last ref holds 40 hex digits [h], it returns [h]
    (whether or not an object named [h] exists); when the chain has
    eleven links or more, it returns none. *)
Theorem resolve_ref_chain (st : R2GitStore) (n : bytes) (names : list bytes) :
  symref_chain st n names ->
  (forall h, (length names <= 10)%nat -> read_ref (chain_end n names) st = Some (Some h, st) ->
             hex40 h = true -> resolve_ref n st = Some (Some h, st)) /\
  ((11 <= length names)%nat -> resolve_ref n st = Some (None, st)).
Proof.
  intros Hc. split.
  - intros h Hl Hend Hh. unfold resolve_ref.
    apply (resolve_ref_inner_found st h names); auto; lia.
  - intros Hl. unfold resolve_ref.
    apply (resolve_ref_inner_too_deep st names); auto; simpl; lia.
Qed.

Lemma resolve_ref_chain_witness :
  symref_chain Fixtures.dangling_head_store (lit "HEAD") [lit "refs/heads/main"] /\
  resolve_ref (lit "HEAD") Fixtures.dangling_head_store
  = Some (Some Fixtures.oid_a, Fixtures.dangling_head_store).
Proof.
  assert (Hc : symref_chain Fixtures.dangling_head_store (lit "HEAD") [lit "refs/heads/main"]).
  { split; [vm_compute; reflexivity | exact I]. }
  split; [exact Hc|].
  apply (proj1 (resolve_ref_chain _ _ _ Hc)); [simpl; lia | vm_compute; reflexivity | vm_compute; reflexivity].
Defined.

(** Claim C6, as first stated, fails: [HEAD] resolves through
    [refs/heads/main] to [aa..a], and no object of that name exists. *)
Lemma resolve_ref_chain_counterexample :
  option_map fst (resolve_ref (lit "HEAD") Fixtures.dangling_head_store) = Some (Some Fixtures.oid_a) /\
  option_map fst (get_object Fixtures.oid_a Fixtures.dangling_head_store) = Some None.
Proof. split; vm_compute; reflexivity. Qed.

(* ================================================================== *)
(** ** The upload-pack advertisement                                    *)
(* ================================================================== *)

Lemma pkt_encode_cons (l : bytes) (ls : list bytes) :
  pkt_encode (l :: ls) = pkt_line l ++ pkt_encode ls.
Proof. unfold pkt_encode, pkt_line. simpl. rewrite app_assoc. reflexivity. Qed.




(* ================================================================== *)
(** ** Lookups through the minimal indexes of receive-pack              *)
(* ================================================================== *)

Lemma be_value_zeros (n : nat) : be_value (repeat x00 n) = 0.
Proof.
  assert (H : forall acc, fold_left (fun acc b => acc * 256 + bv b) (repeat x00 n) acc
                          = acc * 256 ^ Z.of_nat n).
  { induction n as [|n IH]; intros acc; simpl.
    - lia.
    - rewrite IH. change (bv x00) with 0. rewrite Nat2Z.inj_succ, Z.pow_succ_r by lia. lia. }
  unfold be_value. rewrite H. lia.
Qed.

Lemma repeat_replicate_eq {A} (x : A) (n : nat) : repeat x n = replicate n x.
Proof. induction n as [|n IH]; simpl; [reflexivity | now rewrite IH]. Qed.

Lemma take_drop_zeros (n m k : nat) (rest : bytes) :
  (n + k <= m)%nat -> take k (drop n (repeat x00 m ++ rest)) = repeat x00 k.
Proof.
  intros Hle. rewrite !repeat_replicate_eq.
  rewrite drop_app_le by (rewrite length_replicate; lia).
  rewrite drop_replicate, take_app_le by (rewrite length_replicate; lia).
  rewrite take_replicate. f_equal. lia.
Qed.

(** Inside the fanout table of an index made by [create_pack_index],
    every 4-byte big-endian read gives 0. *)
Lemma be_at_zero_fanout (hd rest : bytes) (pos k : Z) :
  length hd = 8%nat -> 8 <= pos -> 0 <= k -> pos + k <= 1032 ->
  be_at (hd ++ repeat x00 (Z.to_nat 1024) ++ rest) pos k = 0.
Proof.
  intros Hhd Hpos Hk Hend. unfold be_at.
  rewrite drop_app_ge by lia. rewrite Hhd.
  rewrite take_drop_zeros by lia. apply be_value_zeros.
Qed.

Lemma create_pack_index_shape (p v : bytes) :
  create_pack_index p = Some v ->
  exists rest, v = ([xff; x74; x4f; x63] ++ be_bytes 4 2) ++ repeat x00 (Z.to_nat 1024) ++ rest.
Proof.
  unfold create_pack_index. destruct (length p <? 12)%nat; [discriminate|].
  intros H. injection H as <-. eexists. rewrite <- !app_assoc. reflexivity.
Qed.

(** An index made by [create_pack_index] finds no object. *)
Lemma find_object_in_minimal_index (p v t : bytes) :
  create_pack_index p = Some v -> find_object_in_index v t = None.
Proof.
  intros Hc. destruct (create_pack_index_shape p v Hc) as [rest ->].
  set (hd := [xff; x74; x4f; x63] ++ be_bytes 4 2).
  assert (Hhd : length hd = 8%nat) by reflexivity.
  assert (Z0 : forall pos, 8 <= pos -> pos + 4 <= 1032 ->
                 be_at (hd ++ repeat x00 (Z.to_nat 1024) ++ rest) pos 4 = 0)
    by (intros; apply be_at_zero_fanout; lia).
  unfold find_object_in_index.
  destruct (_ || _); [reflexivity|].
  destruct (negb (bytes_eqb _ _)); [reflexivity|].
  destruct (negb (_ =? 2)); [reflexivity|].
  destruct (_ <? 1032)%nat; [reflexivity|].
  cbv zeta.
  destruct t as [|b t'].
  - change (0 =? 0) with true. cbv iota.
    rewrite (Z0 (8 + 0 * 4)) by lia. reflexivity.
  - pose proof (bv_range b).
    destruct (bv b =? 0) eqn:E.
    + rewrite (Z0 (8 + bv b * 4)) by lia. reflexivity.
    + apply Z.eqb_neq in E.
      rewrite (Z0 (8 + (bv b - 1) * 4)), (Z0 (8 + bv b * 4)) by lia. reflexivity.
Qed.

Lemma get_from_pack_loop_minimal `{Zlib} (l : list bytes) (t : bytes) (st : R2GitStore) :
  (forall k v, blobs (s3 st) !! k = Some v -> ends_with k (lit ".idx") = true ->
               exists p, create_pack_index p = Some v) ->
  Forall (fun k => ends_with k (lit ".idx") = true) l ->
  get_from_pack_loop l t st = Some (None, st).
Proof.
  intros Hidx Hl. induction Hl as [|k l Hk Hl IH]; [reflexivity|].
  cbn [get_from_pack_loop]. cbv zeta. unfold bind, s3_get_object.
  destruct (blobs (s3 st) !! k) as [v|] eqn:Hv; [|exact IH].
  destruct (Hidx k v Hv Hk) as [p Hp].
  rewrite (find_object_in_minimal_index p v t Hp). exact IH.
Qed.

(** Claim C1 (amended): when every index of the store was made by
    [create_pack_index] (all-zero fanout, no name table), [get_object] of
    an id that is neither cached nor loose returns [None]: there is no
    fallback scan of the pack, whatever the packs hold. *)
Theorem get_object_minimal_index `{Zlib} (oid path : bytes) (st : R2GitStore) :
  object_cache st !! oid = None ->
  object_path (prefix st) oid = Some path ->
  blobs (s3 st) !! path = None ->
  minimal_indexes_only st ->
  exists st', get_object oid st = Some (None, st').
Proof.
  intros Hc Hp Hb [Hidx Hlist].
  unfold get_object, bind, get_state. rewrite Hc.
  unfold unwrap_or_panic, ret. rewrite Hp. unfold s3_get_object. rewrite Hb.
  unfold get_from_pack.
  destruct (hex_decode oid) as [target|]; [|eexists; reflexivity].
  unfold get_pack_idx_files, bind, get_state, ret.
  destruct (pack_list_cache st) as [l|] eqn:Hpl.
  - rewrite (get_from_pack_loop_minimal l target st Hidx (Hlist l eq_refl)).
    eexists; reflexivity.
  - unfold s3_list_objects, put_state.
    set (idx := filter _ _).
    rewrite (get_from_pack_loop_minimal idx target).
    + eexists; reflexivity.
    + exact Hidx.
    + apply Forall_forall. intros x Hx. apply list_elem_of_filter in Hx. apply Hx.
Qed.


Lemma get_object_minimal_index_witness :
  let st := Fixtures.minimal_store in
  let path := match object_path (prefix st) Fixtures.hello_oid with Some p => p | None => [] end in
  object_cache st !! Fixtures.hello_oid = None /\
  object_path (prefix st) Fixtures.hello_oid = Some path /\
  blobs (s3 st) !! path = None /\
  minimal_indexes_only st /\
  exists st', get_object Fixtures.hello_oid st = Some (None, st').
Proof.
  intros st path.
  assert (H1 : object_cache st !! Fixtures.hello_oid = None) by reflexivity.
  assert (H2 : object_path (prefix st) Fixtures.hello_oid = Some path) by (vm_compute; reflexivity).
  assert (H3 : blobs (s3 st) !! path = None) by (vm_compute; reflexivity).
  assert (H4 : minimal_indexes_only st).
  { split.
    - intros k v Hkv Hk. apply elem_of_list_to_map_2 in Hkv.
      apply elem_of_cons in Hkv as [Hkv|Hkv].
      + injection Hkv as -> ->. vm_compute in Hk. discriminate.
      + apply elem_of_cons in Hkv as [Hkv|Hkv]; [|apply elem_of_nil in Hkv; contradiction].
        injection Hkv as -> ->. exists Fixtures.hello_pack. unfold Fixtures.hello_idx.
        destruct (create_pack_index Fixtures.hello_pack) eqn:E; [reflexivity|].
        vm_compute in E. discriminate.
    - intros l Hl. discriminate. }
  split; [exact H1|]. split; [exact H2|]. split; [exact H3|]. split; [exact H4|].
  exact (get_object_minimal_index Fixtures.hello_oid path st H1 H2 H3 H4).
Defined.

(** Claim C1, as first stated, fails: after receive-pack stores the pack
    holding the blob [hello] and its index, the pack's entry at offset 12
    is that blob, yet [get_object] of its id returns [None]. *)
Lemma get_object_minimal_index_counterexample :
  let st := Fixtures.pushed_store in
  let pack_dir := prefix st ++ lit "/objects/pack/pack-" ++ hex_encode (sha1 Fixtures.hello_pack) in
  blobs (s3 st) !! (pack_dir ++ lit ".pack") = Some Fixtures.hello_pack /\
  blobs (s3 st) !! (pack_dir ++ lit ".idx") = create_pack_index Fixtures.hello_pack /\
  read_pack_object_top Fixtures.hello_pack [] 12 = Some (Some (3, lit "hello")) /\
  hex_encode (sha1 (object_bytes (lit "blob") (lit "hello"))) = Fixtures.hello_oid /\
  option_map fst (get_object Fixtures.hello_oid st) = Some None.
Proof. vm_compute. repeat split; reflexivity. Qed.

(* ================================================================== *)
(** ** The commit walk                                                  *)
(* ================================================================== *)

Section CommitCountProofs.

Context {Oid Commit : Type} `{EqDecision Oid}.
Variable get_commit_by_oid : Oid -> option (Commit * option Oid).
Variable zero : Oid.

Lemma parent_path_app (ps l2 : list Oid) (last : option Oid) :
  parent_path get_commit_by_oid (ps ++ l2) last ->
  parent_path get_commit_by_oid ps (match l2 with [] => last | y :: _ => Some y end)
  /\ parent_path get_commit_by_oid l2 last.
Proof.
  induction ps as [|x r IH]; simpl; intros Hp; [split; [exact I | exact Hp]|].
  destruct Hp as [[c Hc] Hr]. destruct (IH Hr) as [H1 H2].
  split; [|exact H2]. split; [|exact H1].
  exists c. rewrite Hc. destruct r; reflexivity.
Qed.

(** Walking a path of commits none of which is the stop raises the count
    by the length of the path. *)
Lemma count_loop_path (ps : list Oid) (next stop : option Oid) (max_steps count : N) (f : nat) :
  parent_path get_commit_by_oid ps next ->
  (forall x, In x ps -> stop <> Some x) ->
  (count + N.of_nat (length ps) <= max_steps)%N ->
  count_loop get_commit_by_oid (length ps + f) (match ps with [] => next | x :: _ => Some x end)
             stop max_steps count
  = count_loop get_commit_by_oid f next stop max_steps (count + N.of_nat (length ps)).
Proof.
  revert count. induction ps as [|x r IH]; intros count Hp Hstop Hle.
  - simpl. rewrite N.add_0_r. reflexivity.
  - destruct Hp as [[c Hc] Hr].
    change (length (x :: r) + f)%nat with (S (length r + f)).
    cbn [count_loop].
    rewrite bool_decide_false by (apply Hstop; left; reflexivity).
    assert (Hlt : (max_steps <=? count)%N = false) by (apply N.leb_gt; simpl length in Hle; lia).
    rewrite Hlt, Hc. rewrite IH; [| exact Hr | intros y Hy; apply Hstop; right; exact Hy
                                   | simpl length in Hle; lia].
    f_equal. simpl length. lia.
Qed.

Lemma count_loop_root (f : nat) (max_steps count : N) :
  count_loop get_commit_by_oid (S f) None None max_steps count = Some count.
Proof. reflexivity. Qed.

Lemma count_loop_stop (f : nat) (old : Oid) (max_steps count : N) :
  count_loop get_commit_by_oid (S f) (Some old) (Some old) max_steps count = Some count.
Proof. cbn [count_loop]. rewrite bool_decide_true by reflexivity. reflexivity. Qed.

(** Claim C8 (amended): on a first-parent chain [ps ++ old :: qs] that
    ends in a root, with [old] not in [ps] and the whole chain within
    [max_steps] commits, the walk from the chain's first commit [new] to
    [old] counts [length ps], the walk from [old] to the root counts the
    rest, and their sum is the walk from [new] to the root. With the bound
    200000 the commit count of [build_branch_metadata] is then the stored
    count plus [length ps] when the stored head is [old] and [old] is not
    the zero id, and the full count otherwise. Whatever the graph, when
    the walk from [new] does not reach [old], the full count (or 0) is
    used even if the stored head is [old]. *)
Theorem count_commits_incremental (ps qs : list Oid) (old : Oid) (max_steps : N) :
  parent_path get_commit_by_oid (ps ++ old :: qs) None ->
  ~ In old ps ->
  (length ps + S (length qs) <= N.to_nat max_steps)%nat ->
  count_commits_until get_commit_by_oid (hd old ps) (Some old) max_steps
    = Some (N.of_nat (length ps)) /\
  count_commits_until get_commit_by_oid old None max_steps = Some (N.of_nat (S (length qs))) /\
  count_commits_until get_commit_by_oid (hd old ps) None max_steps
    = Some (N.of_nat (length ps) + N.of_nat (S (length qs)))%N /\
  (max_steps = 200000%N -> forall existing,
     branch_commit_count get_commit_by_oid zero old (hd old ps) existing =
     match existing with
     | Some (h, cc) => if bool_decide (h = old) && negb (bool_decide (old = zero))
                       then wrap_i64 (cc + Z.of_nat (length ps))
                       else Z.of_nat (length ps + S (length qs))
     | None => Z.of_nat (length ps + S (length qs))
     end) /\
  (forall new h cc, count_commits_until get_commit_by_oid new (Some old) 200000 = None ->
     branch_commit_count get_commit_by_oid zero old new (Some (h, cc))
     = match count_commits_until get_commit_by_oid new None 200000 with
       | Some t => Z.of_N t
       | None => 0
       end).
Proof.
  intros Hp Hold Hlen.
  destruct (parent_path_app ps (old :: qs) None Hp) as [Hps Hrest].
  assert (Hstart : Some (hd old ps) = match ps ++ old :: qs with [] => None | x :: _ => Some x end)
    by (destruct ps; reflexivity).
  assert (C1 : count_commits_until get_commit_by_oid (hd old ps) (Some old) max_steps
               = Some (N.of_nat (length ps))).
  { unfold count_commits_until.
    replace (S (S (N.to_nat max_steps))) with (length ps + S (S (N.to_nat max_steps) - length ps))%nat
      by lia.
    replace (Some (hd old ps)) with (match ps with [] => Some old | x :: _ => Some x end)
      by (destruct ps; reflexivity).
    rewrite count_loop_path; [| exact Hps | | lia].
    - rewrite count_loop_stop. f_equal.
    - intros x Hx Heq. injection Heq as ->. contradiction. }
  assert (C2 : count_commits_until get_commit_by_oid old None max_steps = Some (N.of_nat (S (length qs)))).
  { unfold count_commits_until.
    replace (S (S (N.to_nat max_steps))) with (length (old :: qs) + S (S (N.to_nat max_steps) - length (old :: qs)))%nat
      by (simpl length; lia).
    change (Some old) with (match old :: qs with [] => None | x :: _ => Some x end).
    rewrite count_loop_path; [| exact Hrest | intros x _ Heq; discriminate | simpl length; lia].
    rewrite count_loop_root. reflexivity. }
  assert (C3 : count_commits_until get_commit_by_oid (hd old ps) None max_steps
               = Some (N.of_nat (length ps) + N.of_nat (S (length qs)))%N).
  { unfold count_commits_until. rewrite Hstart.
    replace (S (S (N.to_nat max_steps))) with (length (ps ++ old :: qs) + S (S (N.to_nat max_steps) - length (ps ++ old :: qs)))%nat
      by (rewrite length_app; simpl length; lia).
    rewrite count_loop_path; [| exact Hp | intros x _ Heq; discriminate
                            | rewrite length_app; cbn [length]; lia].
    rewrite count_loop_root. apply f_equal. rewrite length_app. cbn [length]. lia. }
  split; [exact C1|]. split; [exact C2|]. split; [exact C3|]. split.
  - intros -> existing. unfold branch_commit_count.
    destruct existing as [[h cc]|].
    + destruct (bool_decide (h = old) && negb (bool_decide (old = zero))).
      * rewrite C1. f_equal. f_equal. lia.
      * rewrite C3. lia.
    + rewrite C3. lia.
  - intros new h cc Hnone. unfold branch_commit_count.
    destruct (bool_decide (h = old) && negb (bool_decide (old = zero))); [rewrite Hnone|]; reflexivity.
Qed.

End CommitCountProofs.

Lemma count_commits_incremental_witness :
  parent_path Fixtures.small_chain ([0; 1] ++ 2 :: [3])%N None /\
  ~ In 2%N [0; 1]%N /\
  (length [0; 1]%N + S (length [3]%N) <= N.to_nat 10)%nat /\
  count_commits_until Fixtures.small_chain 0%N (Some 2%N) 10 = Some 2%N /\
  count_commits_until Fixtures.small_chain 2%N None 10 = Some 2%N /\
  count_commits_until Fixtures.small_chain 0%N None 10 = Some 4%N.
Proof.
  assert (Hp : parent_path Fixtures.small_chain ([0; 1] ++ 2 :: [3])%N None).
  { simpl. repeat split; eexists; reflexivity. }
  assert (Hn : ~ In 2%N [0; 1]%N) by (simpl; intros [H|[H|[]]]; discriminate).
  assert (Hl : (length [0; 1]%N + S (length [3]%N) <= N.to_nat 10)%nat) by (simpl; lia).
  destruct (count_commits_incremental Fixtures.small_chain Fixtures.zero_n [0; 1]%N [3]%N 2%N 10%N Hp Hn Hl)
    as (C1 & C2 & C3 & _).
  split; [exact Hp|]. split; [exact Hn|]. split; [exact Hl|].
  split; [exact C1|]. split; [exact C2|]. exact C3.
Defined.

(** Claim C8, as first stated, fails: on the chain [0 -> 1 -> ... ->
    200000], [1] is one step from [0], yet the walk from [0] to the root
    exceeds the bound while the two parts do not; and with the stored
    head [7] equal to the old id [7] (not the zero id), a push to [8]
    takes the full walk, not the incremental one. *)
Lemma count_commits_incremental_counterexample :
  count_commits_until Fixtures.long_chain 0%N (Some 1%N) 200000 = Some 1%N /\
  count_commits_until Fixtures.long_chain 1%N None 200000 = Some 200000%N /\
  count_commits_until Fixtures.long_chain 0%N None 200000 = None /\
  count_commits_until Fixtures.long_chain 8%N (Some 7%N) 200000 = None /\
  branch_commit_count Fixtures.long_chain Fixtures.zero_n 7%N 8%N (Some (7%N, 100)) = 199993.
Proof. vm_compute. repeat split; reflexivity. Qed.

(** ** Printable ASCII strings *)

Ltac zcmp :=
  repeat match goal with
  | |- context [?a =? ?b] => rewrite (proj2 (Z.eqb_neq a b)) by lia
  | |- context [?a <=? ?b] => rewrite (proj2 (Z.leb_gt a b)) by lia
  | |- context [?a <=? ?b] => rewrite (proj2 (Z.leb_le a b)) by lia
  end.

Lemma ascii_graphic_range (b : byte) : ascii_graphic b = true -> 33 <= bv b <= 126.
Proof. unfold ascii_graphic. rewrite andb_true_iff, !Z.leb_le. lia. Qed.

Lemma ws_prefix_graphic (b : byte) (r : bytes) :
  ascii_graphic b = true -> ws_prefix_len (b :: r) = 0%nat.
Proof.
  intros H. apply ascii_graphic_range in H. unfold ws_prefix_len.
  destruct r as [|b1 [|b2 r]]; zcmp; cbn; reflexivity.
Qed.

Lemma ws_suffix_graphic (l : bytes) (b : byte) :
  ascii_graphic b = true -> ws_suffix_len (l ++ [b]) = 0%nat.
Proof.
  intros H. apply ascii_graphic_range in H. unfold ws_suffix_len.
  rewrite rev_app_distr. cbn [rev app].
  destruct (rev l) as [|b1 [|b2 r]]; zcmp; cbn; rewrite ?andb_false_r; reflexivity.
Qed.

Lemma utf8_valid_ascii (l : bytes) :
  Forall (fun b => bv b < 128) l -> utf8_valid l = true.
Proof.
  induction 1 as [|b l Hb _ IH]; [reflexivity|].
  cbn [utf8_valid]. rewrite (proj2 (Z.ltb_lt _ _) Hb). exact IH.
Qed.

Lemma graphic_lt128 (l : bytes) :
  forallb ascii_graphic l = true -> Forall (fun b => bv b < 128) l.
Proof.
  intros H. apply List.Forall_forall. intros b Hb.
  rewrite forallb_forall in H. apply H, ascii_graphic_range in Hb. lia.
Qed.

Lemma utf8_valid_line (l : bytes) :
  forallb ascii_graphic l = true -> utf8_valid (l ++ [x0a]) = true.
Proof.
  intros H. apply utf8_valid_ascii, Forall_app. split; [now apply graphic_lt128|].
  repeat constructor.
Qed.

Lemma trim_line_ends (b0 x : byte) (m l' : bytes) :
  ascii_graphic b0 = true -> ascii_graphic x = true -> b0 :: m = l' ++ [x] ->
  trim ((b0 :: m) ++ [x0a]) = b0 :: m.
Proof.
  intros Hb0 Hgx Hx.
  unfold trim. rewrite length_app. cbn [length]. rewrite Nat.add_1_r. cbn [trim_start_go].
  change ((b0 :: m) ++ [x0a]) with (b0 :: (m ++ [x0a])).
  rewrite (ws_prefix_graphic b0) by exact Hb0.
  change (b0 :: (m ++ [x0a])) with ((b0 :: m) ++ [x0a]).
  rewrite length_app. cbn [length]. rewrite Nat.add_1_r. cbn [trim_end_go].
  assert (Hs : ws_suffix_len ((b0 :: m) ++ [x0a]) = 1%nat).
  { unfold ws_suffix_len. rewrite rev_app_distr. reflexivity. }
  rewrite Hs.
  replace (length ((b0 :: m) ++ [x0a]) - 1)%nat with (length (b0 :: m))
    by (rewrite length_app; cbn; lia).
  rewrite (take_app_length (b0 :: m) [x0a]).
  cbn [length]. cbn [trim_end_go].
  rewrite Hx, ws_suffix_graphic by exact Hgx. reflexivity.
Qed.

Lemma graphic_last (l : bytes) :
  l <> [] -> forallb ascii_graphic l = true ->
  exists l' x, l = l' ++ [x] /\ ascii_graphic x = true.
Proof.
  intros Hne H. destruct (exists_last Hne) as [l' [x Hx]].
  exists l', x. split; [exact Hx|]. rewrite Hx, forallb_app in H.
  apply andb_true_iff in H as [_ H]. cbn in H. now rewrite andb_true_r in H.
Qed.

Lemma trim_line (l : bytes) :
  l <> [] -> forallb ascii_graphic l = true -> trim (l ++ [x0a]) = l.
Proof.
  intros Hne H. destruct (graphic_last l Hne H) as [l' [x [Hx Hgx]]].
  destruct l as [|b0 r]; [congruence|].
  cbn [forallb] in H. apply andb_true_iff in H as [Hb0 _].
  exact (trim_line_ends b0 x r l' Hb0 Hgx Hx).
Qed.

(** ** Reading and writing refs *)

Lemma read_ref_blob (name : bytes) (st : R2GitStore) :
  read_ref name st =
  Some (match blobs (s3 st) !! ref_path (prefix st) name with
        | Some d => option_map trim (from_utf8 d)
        | None => None
        end, st).
Proof. reflexivity. Qed.

Lemma read_ref_line (name oid : bytes) (st : R2GitStore) :
  oid <> [] -> forallb ascii_graphic oid = true ->
  blobs (s3 st) !! ref_path (prefix st) name = Some (oid ++ [x0a]) ->
  read_ref name st = Some (Some oid, st).
Proof.
  intros Hne Hg Hk. rewrite read_ref_blob, Hk. unfold from_utf8.
  rewrite utf8_valid_line by exact Hg. cbn [option_map]. now rewrite trim_line.
Qed.

(** X1: writing a ref, then reading it back, gives the id written. *)
Theorem write_ref_read_ref (name oid : bytes) (st : R2GitStore) :
  write_error (s3 st) = None -> oid <> [] -> forallb ascii_graphic oid = true ->
  exists st', write_ref name oid st = Some (inl tt, st')
              /\ read_ref name st' = Some (Some oid, st').
Proof.
  intros Hw Hne Hg. unfold write_ref, bind, get_state, s3_put_object. rewrite Hw.
  eexists. split; [reflexivity|]. apply read_ref_line; [exact Hne | exact Hg |].
  cbn. apply lookup_insert_eq.
Qed.

Lemma write_ref_read_ref_witness :
  (write_error (s3 Fixtures.minimal_store) = None /\ Fixtures.oid_a <> []
   /\ forallb ascii_graphic Fixtures.oid_a = true) /\
  exists st', write_ref (lit "refs/heads/main") Fixtures.oid_a Fixtures.minimal_store = Some (inl tt, st')
              /\ read_ref (lit "refs/heads/main") st' = Some (Some Fixtures.oid_a, st').
Proof.
  split; [split; [reflexivity | split; [discriminate | reflexivity]]|].
  apply write_ref_read_ref; [reflexivity | discriminate | reflexivity].
Defined.

(** ** Loose objects and the object cache *)

(** X2: [put_object] either fails with the bucket's error and changes
    nothing, or stores the object and caches it. *)
Theorem put_object_get_object `{Zlib} (oid data path : bytes) (st : R2GitStore) :
  object_path (prefix st) oid = Some path ->
  (forall e, write_error (s3 st) = Some e -> put_object oid data st = Some (inr e, st)) /\
  (write_error (s3 st) = None ->
   exists st', put_object oid data st = Some (inl tt, st')
               /\ blobs (s3 st') !! path = Some data
               /\ get_object oid st' = Some (Some data, st')).
Proof.
  intros Hp. unfold put_object, bind, get_state. rewrite Hp. cbn [unwrap_or_panic ret].
  split.
  - intros e He. unfold s3_put_object. now rewrite He.
  - intros Hw. unfold s3_put_object. rewrite Hw. eexists. split; [reflexivity|].
    split; [cbn; apply lookup_insert_eq|].
    unfold get_object, bind, get_state. cbn. now rewrite lookup_insert_eq.
Qed.

Lemma get_object_hit `{Zlib} (oid d : bytes) (st : R2GitStore) :
  object_cache st !! oid = Some d -> get_object oid st = Some (Some d, st).
Proof. intros Hc. unfold get_object, bind, get_state. now rewrite Hc. Qed.

(** X3: an object [get_object] returns is cached, and is returned again
    from the cache whatever the bucket holds then. *)
Theorem get_object_caches `{Zlib} (oid d : bytes) (st st' : R2GitStore) :
  get_object oid st = Some (Some d, st') ->
  object_cache st' !! oid = Some d /\
  (forall st2, object_cache st2 !! oid = Some d -> get_object oid st2 = Some (Some d, st2)).
Proof.
  intros Hg. split; [|intros st2; apply get_object_hit].
  revert Hg. unfold get_object, bind, get_state.
  destruct (object_cache st !! oid) as [c|] eqn:Hc.
  - cbn. intros [= -> <-]. exact Hc.
  - destruct (object_path (prefix st) oid) as [path|]; cbn; [|discriminate].
    unfold s3_get_object. destruct (blobs (s3 st) !! path) as [l|].
    + cbn. intros [= <- <-]. apply lookup_insert_eq.
    + destruct (get_from_pack oid st) as [[[o|] st1]|]; cbn; try discriminate.
      intros [= <- <-]. apply lookup_insert_eq.
Qed.

Lemma get_object_caches_witness :
  get_object Fixtures.hello_oid
    (Fixtures.store_of [(Fixtures.pfx ++ lit "/objects/" ++ take 2 Fixtures.hello_oid ++ lit "/"
                         ++ drop 2 Fixtures.hello_oid, zlib_compress Fixtures.hello_obj)])
  = Some (Some (zlib_compress Fixtures.hello_obj),
          set_object_cache
            (Fixtures.store_of [(Fixtures.pfx ++ lit "/objects/" ++ take 2 Fixtures.hello_oid ++ lit "/"
                                 ++ drop 2 Fixtures.hello_oid, zlib_compress Fixtures.hello_obj)])
            {[Fixtures.hello_oid := zlib_compress Fixtures.hello_obj]}) /\
  object_cache
    (set_object_cache
       (Fixtures.store_of [(Fixtures.pfx ++ lit "/objects/" ++ take 2 Fixtures.hello_oid ++ lit "/"
                            ++ drop 2 Fixtures.hello_oid, zlib_compress Fixtures.hello_obj)])
       {[Fixtures.hello_oid := zlib_compress Fixtures.hello_obj]}) !! Fixtures.hello_oid
  = Some (zlib_compress Fixtures.hello_obj).
Proof.
  assert (E : get_object Fixtures.hello_oid
    (Fixtures.store_of [(Fixtures.pfx ++ lit "/objects/" ++ take 2 Fixtures.hello_oid ++ lit "/"
                         ++ drop 2 Fixtures.hello_oid, zlib_compress Fixtures.hello_obj)])
  = Some (Some (zlib_compress Fixtures.hello_obj),
          set_object_cache
            (Fixtures.store_of [(Fixtures.pfx ++ lit "/objects/" ++ take 2 Fixtures.hello_oid ++ lit "/"
                                 ++ drop 2 Fixtures.hello_oid, zlib_compress Fixtures.hello_obj)])
            {[Fixtures.hello_oid := zlib_compress Fixtures.hello_obj]})) by (vm_compute; reflexivity).
  split; [exact E|]. exact (proj1 (get_object_caches _ _ _ _ E)).
Defined.

Lemma put_object_get_object_witness :
  object_path (prefix (Fixtures.store_of [])) Fixtures.oid_a
  = Some (Fixtures.pfx ++ lit "/objects/aa/" ++ repeat (byte_of_Z 97) 38) /\
  ((forall e, write_error (s3 (Fixtures.store_of [])) = Some e ->
              put_object Fixtures.oid_a (lit "x") (Fixtures.store_of []) = Some (inr e, Fixtures.store_of [])) /\
   (write_error (s3 (Fixtures.store_of [])) = None ->
    exists st', put_object Fixtures.oid_a (lit "x") (Fixtures.store_of []) = Some (inl tt, st')
                /\ blobs (s3 st') !! (Fixtures.pfx ++ lit "/objects/aa/" ++ repeat (byte_of_Z 97) 38)
                   = Some (lit "x")
                /\ get_object Fixtures.oid_a st' = Some (Some (lit "x"), st'))).
Proof.
  assert (E : object_path (prefix (Fixtures.store_of [])) Fixtures.oid_a
              = Some (Fixtures.pfx ++ lit "/objects/aa/" ++ repeat (byte_of_Z 97) 38))
    by (vm_compute; reflexivity).
  split; [exact E|]. exact (put_object_get_object _ _ _ _ E).
Defined.

Lemma str_slice_0_2_none (oid : bytes) :
  (length oid < 2)%nat \/ (exists b, oid !! 2%nat = Some b /\ is_cont b = true) ->
  str_slice oid 0 2 = None.
Proof.
  intros Hs. unfold str_slice. destruct Hs as [Hl | [b [Hb Hc]]].
  - rewrite (proj2 (Nat.leb_gt 2 (length oid)) Hl). now rewrite andb_false_r.
  - assert (Hl : (2 < length oid)%nat) by (apply lookup_lt_Some in Hb; exact Hb).
    unfold is_char_boundary. rewrite Hb, Hc.
    rewrite (proj2 (Nat.eqb_neq 2 (length oid))) by lia. cbn.
    now rewrite !andb_false_r.
Qed.

(** X4: an uncached object id shorter than two bytes, or whose third byte
    is inside a multi-byte character, makes [get_object] and
    [put_object] panic. *)
Theorem object_path_panics `{Zlib} (oid data : bytes) (st : R2GitStore) :
  (length oid < 2)%nat \/ (exists b, oid !! 2%nat = Some b /\ is_cont b = true) ->
  object_path (prefix st) oid = None /\
  (object_cache st !! oid = None -> get_object oid st = None) /\
  put_object oid data st = None.
Proof.
  intros Hs. assert (Hp : object_path (prefix st) oid = None).
  { unfold object_path. now rewrite str_slice_0_2_none. }
  split; [exact Hp|]. split.
  - intros Hc. unfold get_object, bind, get_state. now rewrite Hc, Hp.
  - unfold put_object, bind, get_state. now rewrite Hp.
Qed.

Lemma object_path_panics_witness :
  ((length (lit "a") < 2)%nat \/ (exists b, lit "a" !! 2%nat = Some b /\ is_cont b = true)) /\
  (object_path (prefix (Fixtures.store_of [])) (lit "a") = None /\
   (object_cache (Fixtures.store_of []) !! lit "a" = None -> get_object (lit "a") (Fixtures.store_of []) = None) /\
   put_object (lit "a") (lit "x") (Fixtures.store_of []) = None).
Proof.
  assert (H : (length (lit "a") < 2)%nat \/ (exists b, lit "a" !! 2%nat = Some b /\ is_cont b = true))
    by (left; cbn; lia).
  split; [exact H|]. exact (object_path_panics _ _ _ H).
Defined.

(** ** The list of pack indexes *)

Lemma elem_of_s3_list_objects (pfx k : bytes) (st : R2GitStore) :
  k ∈ merge_sort bytes_le (filter (fun k => starts_with k pfx = true)
                                  (map fst (map_to_list (blobs (s3 st)))))
  <-> (exists v, blobs (s3 st) !! k = Some v) /\ starts_with k pfx = true.
Proof.
  rewrite (merge_sort_Permutation _ _), list_elem_of_filter.
  change (map fst (map_to_list (blobs (s3 st)))) with (fst <$> map_to_list (blobs (s3 st))).
  rewrite list_elem_of_fmap. split.
  - intros [Hs [[k' v] [-> Hm]]]. apply elem_of_map_to_list in Hm. eauto.
  - intros [[v Hv] Hs]. split; [exact Hs|]. exists (k, v). split; [reflexivity|].
    now apply elem_of_map_to_list.
Qed.

(** X5: the first [get_pack_idx_files] lists the [.idx] keys under
    [objects/pack] and caches that list; every later call returns the
    cached list, whatever the bucket holds then. *)
Theorem get_pack_idx_files_cached (l : list bytes) (st st' : R2GitStore) :
  pack_list_cache st = None -> get_pack_idx_files st = Some (l, st') ->
  pack_list_cache st' = Some l /\ s3 st' = s3 st /\
  (forall k, k ∈ l <-> (exists v, blobs (s3 st) !! k = Some v)
                      /\ starts_with k (prefix st ++ lit "/objects/pack") = true
                      /\ ends_with k (lit ".idx") = true) /\
  (forall st2, pack_list_cache st2 = Some l -> get_pack_idx_files st2 = Some (l, st2)).
Proof.
  intros Hn. unfold get_pack_idx_files, bind, get_state. rewrite Hn.
  unfold s3_list_objects. cbn. intros [= <- <-]. cbn.
  split; [reflexivity|]. split; [reflexivity|]. split.
  - intros k. rewrite list_elem_of_filter, elem_of_s3_list_objects. tauto.
  - intros st2 H2. now rewrite H2.
Qed.

Lemma get_pack_idx_files_cached_witness :
  (pack_list_cache Fixtures.minimal_store = None /\
   get_pack_idx_files Fixtures.minimal_store
   = Some ([Fixtures.pfx ++ lit "/objects/pack/pack-1.idx"],
           set_pack_list_cache Fixtures.minimal_store (Some [Fixtures.pfx ++ lit "/objects/pack/pack-1.idx"])))
  /\ pack_list_cache (set_pack_list_cache Fixtures.minimal_store (Some [Fixtures.pfx ++ lit "/objects/pack/pack-1.idx"]))
     = Some [Fixtures.pfx ++ lit "/objects/pack/pack-1.idx"].
Proof.
  assert (H1 : pack_list_cache Fixtures.minimal_store = None) by reflexivity.
  assert (H2 : get_pack_idx_files Fixtures.minimal_store
   = Some ([Fixtures.pfx ++ lit "/objects/pack/pack-1.idx"],
           set_pack_list_cache Fixtures.minimal_store (Some [Fixtures.pfx ++ lit "/objects/pack/pack-1.idx"])))
    by (vm_compute; reflexivity).
  split; [split; assumption|]. exact (proj1 (get_pack_idx_files_cached _ _ _ H1 H2)).
Defined.

(** ** receive-pack with a pack *)

Lemma starts_with_prefix (p x : bytes) : starts_with (p ++ x) p = true.
Proof.
  induction p as [|c p IH]; [reflexivity|].
  cbn. rewrite IH, andb_true_r. now apply bool_decide_eq_true.
Qed.

(** X6: when the bucket refuses the pack, receive-pack answers
    [ng unpack error] with the error text, applies no update and leaves
    the store as it was, though it returns the parsed updates. *)
Theorem receive_pack_write_error (body e : bytes) (i : nat) (st : R2GitStore) :
  find_pack_signature 0 body = Some i -> write_error (s3 st) = Some e ->
  handle_receive_pack body st =
  Some ((lit "0019ng unpack error " ++ e ++ [x0a] ++ lit "0000",
         omap parse_command (parse_pkt_lines (take i body))), st).
Proof.
  intros Hf Hw. unfold handle_receive_pack. rewrite Hf.
  unfold bind at 1, get_state. unfold bind at 1, s3_put_object at 1. now rewrite Hw.
Qed.

Lemma receive_pack_write_error_witness :
  (find_pack_signature 0 Fixtures.push_body
   = Some (length (pkt_line (zero_oid ++ lit " " ++ Fixtures.hello_oid ++ lit " refs/heads/main"
                             ++ [x00] ++ lit "report-status") ++ lit "0000"))
   /\ write_error (s3 (mkStore (mkBucket ∅ (Some (lit "AccessDenied"))) Fixtures.pfx ∅ None))
      = Some (lit "AccessDenied")) /\
  handle_receive_pack Fixtures.push_body (mkStore (mkBucket ∅ (Some (lit "AccessDenied"))) Fixtures.pfx ∅ None)
  = Some ((lit "0019ng unpack error " ++ lit "AccessDenied" ++ [x0a] ++ lit "0000",
           omap parse_command (parse_pkt_lines
             (take (length (pkt_line (zero_oid ++ lit " " ++ Fixtures.hello_oid ++ lit " refs/heads/main"
                                      ++ [x00] ++ lit "report-status") ++ lit "0000"))
                   Fixtures.push_body))),
          mkStore (mkBucket ∅ (Some (lit "AccessDenied"))) Fixtures.pfx ∅ None).
Proof.
  assert (H1 : find_pack_signature 0 Fixtures.push_body
   = Some (length (pkt_line (zero_oid ++ lit " " ++ Fixtures.hello_oid ++ lit " refs/heads/main"
                             ++ [x00] ++ lit "report-status") ++ lit "0000")))
    by (vm_compute; reflexivity).
  assert (H2 : write_error (s3 (mkStore (mkBucket ∅ (Some (lit "AccessDenied"))) Fixtures.pfx ∅ None))
      = Some (lit "AccessDenied")) by reflexivity.
  split; [split; assumption|]. exact (receive_pack_write_error _ _ _ _ H1 H2).
Defined.

(** ** Pack entry headers: the writer of [create_packfile] and the reader *)

Lemma bv_byte_of_Z (z : Z) : bv (byte_of_Z z) = z mod 256.
Proof.
  unfold byte_of_Z, bv.
  assert (Hr : 0 <= z mod 256 < 256) by (apply Z.mod_pos_bound; lia).
  destruct (Byte.of_N (Z.to_N (z mod 256))) as [b|] eqn:E.
  - apply Byte.to_of_N in E. rewrite E. lia.
  - apply Byte.of_N_None_iff in E. lia.
Qed.

Lemma usize_shl_small (x s : Z) :
  0 <= x -> 0 <= s < 64 -> x * 2 ^ s < 2 ^ 64 -> usize_shl x s = x * 2 ^ s.
Proof.
  intros Hx Hs Hb. unfold usize_shl, usize_mask.
  rewrite Z.mod_small by lia. rewrite Z.shiftl_mul_pow2 by lia.
  change (2 ^ 64 - 1) with (Z.ones 64). rewrite Z.land_ones by lia.
  apply Z.mod_small. split; [apply Z.mul_nonneg_nonneg; lia | exact Hb].
Qed.

Lemma cont_byte_value (s : Z) :
  0 <= s ->
  bv (byte_of_Z (Z.lor (Z.land s 127) (if 0 <? Z.shiftr s 7 then 128 else 0)))
  = s mod 128 + (if 0 <? s / 128 then 128 else 0).
Proof.
  intros Hs. rewrite Z.shiftr_div_pow2 by lia. change (2 ^ 7) with 128.
  change 127 with (Z.ones 7). rewrite Z.land_ones by lia. change (2 ^ 7) with 128.
  assert (Hm : 0 <= s mod 128 < 128) by (apply Z.mod_pos_bound; lia).
  destruct (0 <? s / 128).
  - replace (Z.lor (s mod 128) 128) with (s mod 128 + 1 * 2 ^ 7)
      by (rewrite <- lor_shiftl_add by (cbn; lia); reflexivity).
    rewrite bv_byte_of_Z. cbn. apply Z.mod_small. lia.
  - rewrite Z.lor_0_r, bv_byte_of_Z, Z.add_0_r. apply Z.mod_small. lia.
Qed.

Lemma header_size_loop_cont (g : nat) :
  forall (f : nat) (pre rest : bytes) (cont : byte) (s acc shift : Z),
  0 <= s < 2 ^ (7 * Z.of_nat g) -> 0 <= shift -> 0 <= acc < 2 ^ shift ->
  acc + s * 2 ^ shift < 2 ^ 64 ->
  (bv cont <? 128) = (s =? 0) ->
  (length (PackRs.size_cont_bytes g s) <= f)%nat ->
  header_size_loop f (pre ++ PackRs.size_cont_bytes g s ++ rest) cont acc shift (length pre)
  = (acc + s * 2 ^ shift, (length pre + length (PackRs.size_cont_bytes g s))%nat).
Proof.
  induction g as [|g IH]; intros f pre rest cont s acc shift Hs Hsh Hacc Hb Hc Hf.
  - assert (s = 0) by (cbn in Hs; lia). subst s. cbn [PackRs.size_cont_bytes app length].
    rewrite Z.mul_0_l, Z.add_0_r, Nat.add_0_r.
    destruct f; [reflexivity|]. cbn [header_size_loop]. rewrite land128_bv, Hc. reflexivity.
  - cbn [PackRs.size_cont_bytes] in Hf |- *. destruct (Z.ltb_spec 0 s) as [Hpos|Hz].
    + set (b := byte_of_Z _). set (tl := PackRs.size_cont_bytes g (Z.shiftr s 7)).
      cbn [length] in Hf. destruct f as [|f]; [lia|].
      cbn [header_size_loop]. rewrite land128_bv, Hc.
      replace (s =? 0) with false by (symmetry; apply Z.eqb_neq; lia).
      change ((b :: tl) ++ rest) with (b :: tl ++ rest). rewrite length_app. cbn [length negb andb].
      replace (length pre <? length pre + S (length (tl ++ rest)))%nat with true
        by (symmetry; apply Nat.ltb_lt; lia).
      rewrite nth_middle.
      assert (Hbv : bv b = s mod 128 + (if 0 <? s / 128 then 128 else 0))
        by (apply cont_byte_value; lia).
      assert (Hm : 0 <= s mod 128 < 128) by (apply Z.mod_pos_bound; lia).
      assert (Hdiv : s = 128 * (s / 128) + s mod 128) by (apply Z.div_mod; lia).
      assert (Hq : 0 <= s / 128) by (apply Z.div_pos; lia).
      assert (Hlow : Z.land (bv b) 127 = s mod 128).
      { rewrite Hbv. change 127 with (Z.ones 7). rewrite Z.land_ones by lia.
        change (2 ^ 7) with 128. destruct (0 <? s / 128).
        - replace (s mod 128 + 128) with (s mod 128 + 1 * 128) by lia.
          rewrite Z.mod_add by lia. apply Z.mod_mod. lia.
        - rewrite Z.add_0_r. apply Z.mod_mod. lia. }
      rewrite Hlow.
      assert (H2s : 2 ^ shift <= s * 2 ^ shift) by nia.
      assert (Hsh64 : shift < 64).
      { destruct (Z.lt_ge_cases shift 64) as [|Hge]; [assumption|].
        assert (2 ^ 64 <= 2 ^ shift) by (apply Z.pow_le_mono_r; lia). lia. }
      assert (Hterm : s mod 128 * 2 ^ shift <= s * 2 ^ shift) by nia.
      rewrite usize_shl_small by lia.
      replace (Z.lor acc (s mod 128 * 2 ^ shift)) with (acc + s mod 128 * 2 ^ shift)
        by (symmetry; rewrite <- lor_shiftl_add by lia; rewrite Z.shiftl_mul_pow2 by lia; reflexivity).
      assert (Hpre : (S (length pre) = length (pre ++ [b]))%nat) by (rewrite length_app; cbn; lia).
      rewrite Hpre.
      replace (pre ++ b :: tl ++ rest) with ((pre ++ [b]) ++ tl ++ rest)
        by (rewrite <- app_assoc; reflexivity).
      unfold tl. rewrite Z.shiftr_div_pow2 in Hf |- * by lia. change (2 ^ 7) with 128 in Hf |- *.
      assert (Hp7 : 2 ^ (shift + 7) = 2 ^ shift * 128) by (rewrite Z.pow_add_r by lia; reflexivity).
      rewrite (IH f (pre ++ [b]) rest b (s / 128) (acc + s mod 128 * 2 ^ shift) (shift + 7)).
      * f_equal; [rewrite Hp7; nia | rewrite length_app; cbn; lia].
      * split; [exact Hq|]. apply Z.div_lt_upper_bound; [lia|].
        replace (7 * Z.of_nat (S g)) with (7 + 7 * Z.of_nat g) in Hs by lia.
        rewrite Z.pow_add_r in Hs by lia. cbn in Hs |- *. lia.
      * lia.
      * rewrite Hp7. split; nia.
      * rewrite Hp7. nia.
      * rewrite Hbv. destruct (Z.ltb_spec 0 (s / 128)); destruct (Z.eqb_spec (s / 128) 0); cbn;
          try lia; apply Z.ltb_ge || apply Z.ltb_lt; lia.
      * lia.
    + assert (s = 0) by lia. subst s. cbn [app length].
      rewrite Z.mul_0_l, Z.add_0_r, Nat.add_0_r.
      destruct f; [reflexivity|]. cbn [header_size_loop]. rewrite land128_bv, Hc. reflexivity.
Qed.

Lemma pack_entry_first_byte (t size : Z) :
  0 <= t < 8 -> 0 <= size ->
  bv (byte_of_Z (if 0 <? Z.shiftr size 4
                 then Z.lor (Z.land (Z.lor (Z.shiftl t 4) (Z.land size 15)) 255) 128
                 else Z.land (Z.lor (Z.shiftl t 4) (Z.land size 15)) 255))
  = t * 16 + size mod 16 + (if 0 <? size / 16 then 128 else 0).
Proof.
  intros Ht Hs.
  assert (Hm : 0 <= size mod 16 < 16) by (apply Z.mod_pos_bound; lia).
  assert (Hc0 : Z.land (Z.lor (Z.shiftl t 4) (Z.land size 15)) 255 = t * 16 + size mod 16).
  { change 15 with (Z.ones 4). rewrite Z.land_ones by lia. change (2 ^ 4) with 16.
    rewrite Z.lor_comm, lor_shiftl_add by (cbn; lia).
    change 255 with (Z.ones 8). rewrite Z.land_ones by lia. rewrite Z.mod_small by (cbn; lia).
    cbn. lia. }
  rewrite Hc0, Z.shiftr_div_pow2 by lia. change (2 ^ 4) with 16.
  destruct (0 <? size / 16).
  - replace (Z.lor (t * 16 + size mod 16) 128) with (t * 16 + size mod 16 + 1 * 2 ^ 7)
      by (rewrite <- lor_shiftl_add by (cbn; lia); reflexivity).
    rewrite bv_byte_of_Z. apply Z.mod_small. cbn. lia.
  - rewrite bv_byte_of_Z, Z.add_0_r. apply Z.mod_small. lia.
Qed.

Lemma read_pack_entry_header (pre rest : bytes) (t size : Z) :
  0 <= t < 8 -> 0 <= size < 2 ^ 64 ->
  read_pack_object_header (pre ++ PackRs.pack_entry_header t size ++ rest) (Z.of_nat (length pre))
  = Some (t, size, (length pre + length (PackRs.pack_entry_header t size))%nat).
Proof.
  intros Ht Hs. unfold read_pack_object_header, PackRs.pack_entry_header.
  set (first := byte_of_Z _). set (cont := PackRs.size_cont_bytes 64 (Z.shiftr size 4)).
  assert (Hbv : bv first = t * 16 + size mod 16 + (if 0 <? size / 16 then 128 else 0))
    by (apply pack_entry_first_byte; lia).
  assert (Hm : 0 <= size mod 16 < 16) by (apply Z.mod_pos_bound; lia).
  assert (Hdiv : size = 16 * (size / 16) + size mod 16) by (apply Z.div_mod; lia).
  assert (Hq : 0 <= size / 16) by (apply Z.div_pos; lia).
  change ((first :: cont) ++ rest) with (first :: cont ++ rest). rewrite length_app. cbn [length].
  replace (Z.of_nat (length pre + S (length (cont ++ rest))) <=? Z.of_nat (length pre))
    with false by (symmetry; apply Z.leb_gt; lia).
  rewrite Nat2Z.id, nth_middle.
  assert (Htype : Z.land (Z.shiftr (bv first) 4) 7 = t).
  { rewrite Hbv, Z.shiftr_div_pow2 by lia. change (2 ^ 4) with 16.
    change 7 with (Z.ones 3). rewrite Z.land_ones by lia. change (2 ^ 3) with 8.
    destruct (0 <? size / 16).
    - replace (t * 16 + size mod 16 + 128) with (size mod 16 + (t + 8) * 16) by lia.
      rewrite Z.div_add by lia. rewrite Z.div_small by lia. rewrite Z.add_0_l.
      replace (t + 8) with (t + 1 * 8) by lia. rewrite Z.mod_add by lia. apply Z.mod_small; lia.
    - replace (t * 16 + size mod 16 + 0) with (size mod 16 + t * 16) by lia.
      rewrite Z.div_add by lia. rewrite Z.div_small by lia. rewrite Z.add_0_l.
      apply Z.mod_small; lia. }
  assert (Hlow : Z.land (bv first) 15 = size mod 16).
  { rewrite Hbv. change 15 with (Z.ones 4). rewrite Z.land_ones by lia. change (2 ^ 4) with 16.
    destruct (0 <? size / 16).
    - replace (t * 16 + size mod 16 + 128) with (size mod 16 + (t + 8) * 16) by lia.
      rewrite Z.mod_add by lia. apply Z.mod_mod; lia.
    - replace (t * 16 + size mod 16 + 0) with (size mod 16 + t * 16) by lia.
      rewrite Z.mod_add by lia. apply Z.mod_mod; lia. }
  rewrite Htype, Hlow.
  replace (pre ++ first :: cont ++ rest) with ((pre ++ [first]) ++ cont ++ rest)
    by (rewrite <- app_assoc; reflexivity).
  replace (S (length pre)) with (length (pre ++ [first])) by (rewrite length_app; cbn; lia).
  unfold cont. rewrite Z.shiftr_div_pow2 by lia. change (2 ^ 4) with 16.
  rewrite header_size_loop_cont.
  - replace (size mod 16 + size / 16 * 2 ^ 4) with size by (cbn; lia).
    rewrite length_app; cbn [length]. do 2 f_equal. lia.
  - split; [exact Hq|]. apply Z.div_lt_upper_bound; [lia|].
    assert (2 ^ 64 <= 16 * 2 ^ (7 * Z.of_nat 64)) by (cbn; lia). lia.
  - lia.
  - change (2 ^ 4) with 16. lia.
  - change (2 ^ 4) with 16. lia.
  - rewrite Hbv. destruct (Z.ltb_spec 0 (size / 16)); destruct (Z.eqb_spec (size / 16) 0);
      try lia; first [apply Z.ltb_lt; lia | apply Z.ltb_ge; lia].
  - rewrite !length_app. cbn. lia.
Qed.

(** X9: an entry header that [create_packfile] writes, for a type below 8
    and a [usize] size, is read back by [read_pack_object_header] wherever
    it sits in the pack: the type, the size, and the position just after
    the header. *)
Theorem pack_entry_header_read (pre rest : bytes) (t size : Z) :
  0 <= t < 8 -> 0 <= size < 2 ^ 64 ->
  read_pack_object_header (pre ++ PackRs.pack_entry_header t size ++ rest) (Z.of_nat (length pre))
  = Some (t, size, (length pre + length (PackRs.pack_entry_header t size))%nat).
Proof. apply read_pack_entry_header. Qed.

Lemma pack_entry_header_read_witness :
  0 <= 3 < 8 /\ 0 <= 300 < 2 ^ 64 /\
  read_pack_object_header (lit "PACK" ++ PackRs.pack_entry_header 3 300 ++ lit "rest") 4
  = Some (3, 300, 6%nat).
Proof.
  split; [lia|]. split; [cbn; lia|].
  apply (pack_entry_header_read (lit "PACK") (lit "rest") 3 300); [lia | cbn; lia].
Defined.

(** ** The packs [create_packfile] builds *)

Lemma length_be_bytes (k : nat) (n : Z) : length (be_bytes k n) = k.
Proof.
  revert n. induction k as [|k IH]; intros n; [reflexivity|].
  cbn [be_bytes]. rewrite length_app, IH. cbn. lia.
Qed.

Lemma be_value_app_byte (l : bytes) (b : byte) : be_value (l ++ [b]) = be_value l * 256 + bv b.
Proof. unfold be_value. now rewrite fold_left_app. Qed.

Lemma be_value_be_bytes (k : nat) (n : Z) :
  0 <= n < 2 ^ (8 * Z.of_nat k) -> be_value (be_bytes k n) = n.
Proof.
  revert n. induction k as [|k IH]; intros n Hn.
  - cbn in Hn. cbn. lia.
  - cbn [be_bytes]. rewrite be_value_app_byte, IH, bv_byte_of_Z.
    + pose proof (Z.div_mod n 256). lia.
    + split; [apply Z.div_pos; lia|]. apply Z.div_lt_upper_bound; [lia|].
      replace (8 * Z.of_nat (S k)) with (8 + 8 * Z.of_nat k) in Hn by lia.
      rewrite Z.pow_add_r in Hn by lia. cbn in Hn |- *. lia.
Qed.

Lemma length_sha1 (d : bytes) : length (sha1 d) = 20%nat.
Proof.
  unfold sha1. destruct (Sha1.blocks _ _ _) as [[[[h0 h1] h2] h3] h4].
  rewrite !length_app, !length_be_bytes. reflexivity.
Qed.

Lemma type_num_range (t : bytes) (n : Z) : PackRs.type_num t = Some n -> 1 <= n <= 4.
Proof.
  unfold PackRs.type_num.
  repeat match goal with |- context [if ?c then _ else _] => destruct c end;
    intros [=]; lia.
Qed.

Lemma packfile_objects_types `{Zlib} (oids : list bytes) :
  forall st objs st', PackRs.packfile_objects oids st = Some (objs, st') ->
  Forall (fun o => 1 <= fst o <= 4) objs.
Proof.
  induction oids as [|oid oids IH]; intros st objs st' Hp.
  - cbn in Hp. injection Hp as <- _. constructor.
  - revert Hp. cbn [PackRs.packfile_objects]. unfold bind at 1.
    destruct (get_object oid st) as [[d st1]|]; [|discriminate].
    unfold bind. destruct (PackRs.packfile_objects oids st1) as [[os st2]|] eqn:E; [|discriminate].
    unfold ret. intros [= <- _]. pose proof (IH _ _ _ E) as Hos.
    destruct d as [d|]; [|exact Hos].
    destruct (PackRs.parse_git_object d) as [[t c]|]; [|exact Hos].
    destruct (PackRs.type_num t) as [n|] eqn:En; [|exact Hos].
    constructor; [cbn; now apply type_num_range with t|exact Hos].
Qed.

Lemma read_pack_object_plain `{Zlib} (f : nat) (pack idx : bytes) (offset t size : Z) (pos : nat) :
  read_pack_object_header pack offset = Some (t, size, pos) -> 1 <= t <= 4 ->
  read_pack_object (S f) pack idx offset = Some (option_map (pair t) (zlib_decompress (drop pos pack))).
Proof.
  intros Hh Ht. cbn [read_pack_object]. rewrite Hh.
  replace ((1 <=? t) && (t <=? 4)) with true by (symmetry; apply andb_true_intro; split; apply Z.leb_le; lia).
  reflexivity.
Qed.

(** X10: a pack that [create_packfile] returns starts with [PACK], the
    version 2 and the number of objects kept (mod 2^32), ends with the
    SHA-1 of the rest, and holds each object kept at its offset: there
    [read_pack_object] reads back its type and content. The objects kept
    are those of [packfile_objects], one at least. *)
Theorem create_packfile_readable `{Zlib} (oids : list bytes) (st st' : R2GitStore) (p : bytes) :
  PackRs.create_packfile oids st = Some (Some p, st') ->
  exists objs, PackRs.packfile_objects oids st = Some (objs, st') /\ objs <> [] /\
    take 4 p = lit "PACK" /\ be_value (take 4 (drop 4 p)) = 2 /\
    be_value (take 4 (drop 8 p)) = Z.of_nat (length objs) mod 2 ^ 32 /\
    drop (length p - 20) p = sha1 (take (length p - 20) p) /\
    (forall k t data idx, objs !! k = Some (t, data) -> Z.of_nat (length data) < 2 ^ 64 ->
      (forall rest, zlib_decompress (zlib_compress data ++ rest) = Some data) ->
      read_pack_object_top p idx (Z.of_nat (12 + length (mjoin (map PackRs.pack_entry (take k objs)))))
      = Some (Some (t, data))).
Proof.
  intros Hc. unfold PackRs.create_packfile, bind at 1 in Hc.
  destruct (PackRs.packfile_objects oids st) as [[objs st1]|] eqn:E; [|discriminate].
  assert (Hne : objs <> []) by (intros ->; unfold ret in Hc; discriminate).
  assert (Hp' : exists body, p = body ++ sha1 body /\
            body = lit "PACK" ++ be_bytes 4 2 ++ be_bytes 4 (Z.of_nat (length objs) mod 2 ^ 32)
                   ++ mjoin (map PackRs.pack_entry objs) /\ st1 = st').
  { destruct objs as [|o os]; [congruence|].
    set (b0 := lit "PACK" ++ be_bytes 4 2 ++ be_bytes 4 (Z.of_nat (length (o :: os)) mod 2 ^ 32)
               ++ mjoin (map PackRs.pack_entry (o :: os))).
    change (Some (Some (b0 ++ sha1 b0), st1) = Some (Some p, st')) in Hc.
    injection Hc as <- <-. exists b0. split; [reflexivity|]. split; reflexivity. }
  destruct Hp' as (body & Hp & Hb & <-).
  exists objs. split; [reflexivity|]. split; [exact Hne|].
  pose proof (packfile_objects_types _ _ _ _ E) as Hty.
  assert (Hcnt : 0 <= Z.of_nat (length objs) mod 2 ^ 32 < 2 ^ 32) by (apply Z.mod_pos_bound; lia).
  split; [|split; [|split; [|split]]].
  - rewrite Hp, Hb at 1. rewrite <- app_assoc. now apply take_app_length'.
  - rewrite Hp, Hb at 1. rewrite <- !app_assoc.
    rewrite drop_app_length' by reflexivity.
    rewrite take_app_length' by (symmetry; apply length_be_bytes).
    apply be_value_be_bytes. cbn. lia.
  - rewrite Hp, Hb at 1. rewrite <- !app_assoc.
    replace 8%nat with (4 + 4)%nat by reflexivity. rewrite <- drop_drop.
    rewrite drop_app_length' by reflexivity.
    rewrite drop_app_length' by (symmetry; apply length_be_bytes).
    rewrite take_app_length' by (symmetry; apply length_be_bytes).
    apply be_value_be_bytes. exact Hcnt.
  - rewrite Hp, length_app, length_sha1. replace (length body + 20 - 20)%nat with (length body) by lia.
    now rewrite drop_app_length, take_app_length.
  - intros k t data idx Hk Hlen Hz.
    assert (Ht : 1 <= t <= 4) by exact (Forall_lookup_1 _ _ _ _ Hty Hk).
    set (pre := lit "PACK" ++ be_bytes 4 2 ++ be_bytes 4 (Z.of_nat (length objs) mod 2 ^ 32)
                ++ mjoin (map PackRs.pack_entry (take k objs))).
    set (hdr := PackRs.pack_entry_header t (Z.of_nat (length data))).
    set (rest := mjoin (map PackRs.pack_entry (drop (S k) objs)) ++ sha1 body).
    assert (Hp2 : p = pre ++ hdr ++ zlib_compress data ++ rest).
    { assert (He : mjoin (map PackRs.pack_entry objs)
                   = mjoin (map PackRs.pack_entry (take k objs)) ++ PackRs.pack_entry (t, data)
                     ++ mjoin (map PackRs.pack_entry (drop (S k) objs))).
      { rewrite <- (take_drop_middle objs k (t, data) Hk) at 1.
        rewrite map_app, join_app. reflexivity. }
      rewrite Hp, Hb at 1. rewrite He. unfold pre, hdr, rest. cbn [PackRs.pack_entry].
      rewrite <- !app_assoc. reflexivity. }
    assert (Hlp : length pre = (12 + length (mjoin (map PackRs.pack_entry (take k objs))))%nat)
      by (unfold pre; rewrite !length_app, !length_be_bytes; reflexivity).
    unfold read_pack_object_top. rewrite <- Hlp.
    rewrite (read_pack_object_plain (length p) p idx (Z.of_nat (length pre)) t (Z.of_nat (length data))
               (length pre + length hdr)).
    + rewrite Hp2, app_assoc, drop_app_length' by (rewrite length_app; reflexivity).
      now rewrite Hz.
    + rewrite Hp2. apply read_pack_entry_header; lia.
    + exact Ht.
Qed.

Lemma create_packfile_readable_witness :
  exists p st', PackRs.create_packfile [Fixtures.hello_oid] loose_hello_store = Some (Some p, st') /\
    take 4 p = lit "PACK" /\ read_pack_object_top p [] 12 = Some (Some (3, lit "hello")).
Proof.
  assert (Ec : exists p st', PackRs.create_packfile [Fixtures.hello_oid] loose_hello_store
                             = Some (Some p, st')) by (do 2 eexists; vm_compute; reflexivity).
  destruct Ec as (p & st' & Ec). exists p, st'. split; [exact Ec|].
  destruct (create_packfile_readable [Fixtures.hello_oid] loose_hello_store st' p Ec)
    as (objs & Ho & _ & Hpk & _ & _ & _ & Hr).
  assert (Eo : objs = [(3, lit "hello")]).
  { vm_compute in Ho. injection Ho as <- _. reflexivity. }
  subst objs. split; [exact Hpk|].
  apply (Hr 0%nat 3 (lit "hello") []); [reflexivity | cbn; lia |].
  intros rest. vm_compute. reflexivity.
Defined.

(** ** Tree entries *)

Lemma list_find_nul (l rest : bytes) :
  x00 ∉ l -> list_find (fun b => b = x00) (l ++ x00 :: rest) = Some (length l, x00).
Proof.
  induction l as [|x l IH]; intros Hn; [reflexivity|].
  rewrite not_elem_of_cons in Hn. destruct Hn as [Hx Hl].
  cbn [app list_find]. rewrite decide_False by congruence. rewrite IH by exact Hl. reflexivity.
Qed.

Lemma split_on_app (c : byte) (m r : bytes) : c ∉ m -> split_on c (m ++ c :: r) = m :: split_on c r.
Proof.
  induction m as [|x m IH]; intros Hn.
  - cbn. now rewrite bool_decide_true.
  - rewrite not_elem_of_cons in Hn. destruct Hn as [Hx Hm].
    cbn [app split_on]. rewrite bool_decide_false by congruence. now rewrite IH.
Qed.

Lemma split_on_nonempty (c : byte) (s : bytes) : split_on c s <> [].
Proof.
  destruct s as [|x s]; cbn; [discriminate|].
  destruct (bool_decide (x = c)); [discriminate|]. destruct (split_on c s); discriminate.
Qed.

Lemma splitn2_space_header (m n : bytes) : x20 ∉ m -> splitn2_space (m ++ lit " " ++ n) = [m; n].
Proof.
  intros Hm. unfold splitn2_space. change (lit " ") with [x20]. cbn [app].
  rewrite split_on_app by exact Hm.
  destruct (split_on x20 n) as [|q qs] eqn:E; [exfalso; revert E; apply split_on_nonempty|].
  f_equal. f_equal.
  replace (S (length m)) with (length (m ++ [x20])) by (rewrite length_app; cbn; lia).
  replace (m ++ x20 :: n) with ((m ++ [x20]) ++ n) by (rewrite <- app_assoc; reflexivity).
  apply drop_app_length.
Qed.

Lemma tree_entry_ok_spec (m n s : bytes) :
  tree_entry_ok m n s = true ->
  (x20 ∉ m) /\ (x00 ∉ m ++ lit " " ++ n) /\ utf8_valid (m ++ lit " " ++ n) = true /\ length s = 20%nat.
Proof.
  unfold tree_entry_ok. intros H. apply andb_prop in H as [H Hs]. apply andb_prop in H as [H Hu].
  apply andb_prop in H as [H1 H2]. apply negb_true_iff, bool_decide_eq_false in H1, H2.
  split; [exact H1|]. split; [|split; [exact Hu | now apply Nat.eqb_eq]].
  change (lit " ") with [x20]. rewrite !elem_of_app, list_elem_of_singleton. intros [Hm|[Hc|Hn]].
  - apply H2, elem_of_app. now left.
  - discriminate.
  - apply H2, elem_of_app. now right.
Qed.

(** The layout of an entry as the loops read it. *)
Lemma tree_entry_layout (m n s rest : bytes) :
  tree_entry m n s ++ rest = (m ++ lit " " ++ n) ++ x00 :: s ++ rest.
Proof. unfold tree_entry. rewrite <- !app_assoc. reflexivity. Qed.

Lemma tree_entry_length (m n s : bytes) :
  length (tree_entry m n s) = (length (m ++ lit " " ++ n) + 1 + length s)%nat.
Proof. unfold tree_entry. rewrite !length_app. cbn. lia. Qed.

Lemma parse_tree_entries_loop_entries (es : list (bytes * bytes * bytes)) :
  Forall (fun '(m, n, s) => tree_entry_ok m n s = true) es ->
  forall pre f, (length (mjoin (map (fun '(m, n, s) => tree_entry m n s) es)) <= f)%nat ->
  PackRs.parse_tree_entries_loop f (pre ++ mjoin (map (fun '(m, n, s) => tree_entry m n s) es))
                                 (length pre)
  = map (fun '(m, n, s) => (m, hex_encode s, n)) es.
Proof.
  induction 1 as [|[[m n] s] es Hok Hes IH]; intros pre f Hf.
  - rewrite app_nil_r. destruct f; [reflexivity|]. cbn [PackRs.parse_tree_entries_loop].
    rewrite Nat.ltb_irrefl. reflexivity.
  - apply tree_entry_ok_spec in Hok as (Hsp & Hnul & Hu & Hs).
    cbn [map mjoin list_join] in Hf |- *.
    set (rest := mjoin (map (fun '(m, n, s) => tree_entry m n s) es)) in Hf |- *.
    set (h := m ++ lit " " ++ n) in Hnul, Hu.
    rewrite length_app, tree_entry_length in Hf.
    destruct f as [|f]; [lia|].
    set (content := pre ++ tree_entry m n s ++ rest).
    assert (Hlen : length content = (length pre + length h + 21 + length rest)%nat)
      by (unfold content; rewrite !length_app, tree_entry_length; fold h; lia).
    assert (Hdrop : drop (length pre) content = h ++ x00 :: s ++ rest)
      by (unfold content; rewrite drop_app_length, tree_entry_layout; reflexivity).
    assert (Htake : take 20 (drop (S (length pre + length h)) content) = s).
    { unfold content. rewrite tree_entry_layout. fold h.
      replace (S (length pre + length h)) with (length (pre ++ h ++ [x00]))
        by (rewrite !length_app; cbn; lia).
      replace (pre ++ h ++ x00 :: s ++ rest) with ((pre ++ h ++ [x00]) ++ s ++ rest)
        by (rewrite <- !app_assoc; reflexivity).
      rewrite drop_app_length. apply take_app_length'. now symmetry. }
    assert (Hnext : PackRs.parse_tree_entries_loop f content (length pre + length h + 21)
                    = map (fun '(m, n, s) => (m, hex_encode s, n)) es).
    { replace content with ((pre ++ tree_entry m n s) ++ rest) by (unfold content; symmetry; apply app_assoc).
      replace (length pre + length h + 21)%nat with (length (pre ++ tree_entry m n s))
        by (rewrite length_app, tree_entry_length; fold h; lia).
      apply IH. change (length rest <= f)%nat. lia. }
    cbn [PackRs.parse_tree_entries_loop].
    replace (length pre <? length content)%nat with true by (symmetry; apply Nat.ltb_lt; lia).
    rewrite Hdrop, list_find_nul by exact Hnul.
    rewrite take_app_length. unfold from_utf8. rewrite Hu.
    unfold h. rewrite splitn2_space_header by exact Hsp. fold h.
    replace (length content <? length pre + length h + 21)%nat with false
      by (symmetry; apply Nat.ltb_ge; lia).
    rewrite Htake, Hnext. reflexivity.
Qed.

(** X11: [parse_tree_entries] reads back the entries of a tree body
    written as git writes it, in order, each as its mode, the hex of its
    id and its name. *)
Theorem parse_tree_entries_roundtrip (es : list (bytes * bytes * bytes)) :
  Forall (fun '(m, n, s) => tree_entry_ok m n s = true) es ->
  PackRs.parse_tree_entries (mjoin (map (fun '(m, n, s) => tree_entry m n s) es))
  = map (fun '(m, n, s) => (m, hex_encode s, n)) es.
Proof.
  intros Hes. unfold PackRs.parse_tree_entries.
  apply (parse_tree_entries_loop_entries es Hes []). lia.
Qed.

Lemma parse_tree_entries_roundtrip_witness :
  Forall (fun '(m, n, s) => tree_entry_ok m n s = true)
    [(lit "100644", lit "README.md", repeat (byte_of_Z 171) 20);
     (lit "40000", lit "src dir", repeat (byte_of_Z 1) 20)] /\
  PackRs.parse_tree_entries
    (mjoin (map (fun '(m, n, s) => tree_entry m n s)
       [(lit "100644", lit "README.md", repeat (byte_of_Z 171) 20);
        (lit "40000", lit "src dir", repeat (byte_of_Z 1) 20)]))
  = [(lit "100644", hex_encode (repeat (byte_of_Z 171) 20), lit "README.md");
     (lit "40000", hex_encode (repeat (byte_of_Z 1) 20), lit "src dir")].
Proof.
  assert (H : Forall (fun '(m, n, s) => tree_entry_ok m n s = true)
    [(lit "100644", lit "README.md", repeat (byte_of_Z 171) 20);
     (lit "40000", lit "src dir", repeat (byte_of_Z 1) 20)])
    by (repeat constructor).
  split; [exact H|]. exact (parse_tree_entries_roundtrip _ H).
Defined.

Lemma find_entry_loop_entries (name : bytes) (es : list (bytes * bytes * bytes)) :
  Forall (fun '(m, n, s) => tree_entry_ok m n s = true) es ->
  forall pre f, (length (mjoin (map (fun '(m, n, s) => tree_entry m n s) es)) <= f)%nat ->
  Handler.find_entry_loop f (pre ++ mjoin (map (fun '(m, n, s) => tree_entry m n s) es)) name
                          (length pre)
  = option_map (fun '(_, _, s) => hex_encode s) (List.find (fun '(_, n, _) => bytes_eqb n name) es).
Proof.
  induction 1 as [|[[m n] s] es Hok Hes IH]; intros pre f Hf.
  - rewrite app_nil_r. destruct f; [reflexivity|]. cbn [Handler.find_entry_loop].
    rewrite Nat.ltb_irrefl. reflexivity.
  - apply tree_entry_ok_spec in Hok as (Hsp & Hnul & Hu & Hs).
    cbn [map mjoin list_join] in Hf |- *.
    set (rest := mjoin (map (fun '(m, n, s) => tree_entry m n s) es)) in Hf |- *.
    set (h := m ++ lit " " ++ n) in Hnul, Hu.
    rewrite length_app, tree_entry_length in Hf.
    destruct f as [|f]; [lia|].
    set (content := pre ++ tree_entry m n s ++ rest).
    assert (Hlen : length content = (length pre + length h + 21 + length rest)%nat)
      by (unfold content; rewrite !length_app, tree_entry_length; fold h; lia).
    assert (Hdrop : drop (length pre) content = h ++ x00 :: s ++ rest)
      by (unfold content; rewrite drop_app_length, tree_entry_layout; reflexivity).
    assert (Htake : take 20 (drop (S (length pre + length h)) content) = s).
    { unfold content. rewrite tree_entry_layout. fold h.
      replace (S (length pre + length h)) with (length (pre ++ h ++ [x00]))
        by (rewrite !length_app; cbn; lia).
      replace (pre ++ h ++ x00 :: s ++ rest) with ((pre ++ h ++ [x00]) ++ s ++ rest)
        by (rewrite <- !app_assoc; reflexivity).
      rewrite drop_app_length. apply take_app_length'. now symmetry. }
    assert (Hnext : Handler.find_entry_loop f content name (length pre + length h + 21)
                    = option_map (fun '(_, _, s) => hex_encode s)
                        (List.find (fun '(_, n, _) => bytes_eqb n name) es)).
    { replace content with ((pre ++ tree_entry m n s) ++ rest)
        by (unfold content; symmetry; apply app_assoc).
      replace (length pre + length h + 21)%nat with (length (pre ++ tree_entry m n s))
        by (rewrite length_app, tree_entry_length; fold h; lia).
      apply IH. change (length rest <= f)%nat. lia. }
    cbn [Handler.find_entry_loop].
    replace (length pre <? length content)%nat with true by (symmetry; apply Nat.ltb_lt; lia).
    rewrite Hdrop, list_find_nul by exact Hnul.
    rewrite take_app_length. unfold from_utf8. rewrite Hu.
    unfold h. rewrite splitn2_space_header by exact Hsp. fold h.
    replace (length content <? length pre + length h + 21)%nat with false
      by (symmetry; apply Nat.ltb_ge; lia).
    rewrite Htake, Hnext. cbn [List.find]. destruct (bytes_eqb n name); reflexivity.
Qed.

(** X12: [find_entry_in_tree] on a tree object whose body is a list of
    entries as git writes them returns the hex id of the first entry
    named [name], and [None] when no entry has that name. *)
Theorem find_entry_in_tree_first `{Zlib} (data hdr name : bytes) (es : list (bytes * bytes * bytes)) :
  zlib_decompress data = Some (hdr ++ x00 :: mjoin (map (fun '(m, n, s) => tree_entry m n s) es)) ->
  x00 ∉ hdr ->
  Forall (fun '(m, n, s) => tree_entry_ok m n s = true) es ->
  Handler.find_entry_in_tree data name
  = option_map (fun '(_, _, s) => hex_encode s) (List.find (fun '(_, n, _) => bytes_eqb n name) es).
Proof.
  intros Hd Hh Hes. unfold Handler.find_entry_in_tree. rewrite Hd, list_find_nul by exact Hh.
  replace (S (length hdr)) with (length (hdr ++ [x00])) by (rewrite length_app; cbn; lia).
  replace (hdr ++ x00 :: mjoin (map (fun '(m, n, s) => tree_entry m n s) es))
    with ((hdr ++ [x00]) ++ mjoin (map (fun '(m, n, s) => tree_entry m n s) es))
    by (rewrite <- app_assoc; reflexivity).
  rewrite drop_app_length.
  apply (find_entry_loop_entries name es Hes []). lia.
Qed.

Lemma find_entry_in_tree_first_witness :
  Handler.find_entry_in_tree
    (zlib_compress (lit "tree 62" ++ x00 :: mjoin (map (fun '(m, n, s) => tree_entry m n s)
       [(lit "100644", lit "README.md", repeat (byte_of_Z 171) 20);
        (lit "40000", lit "src dir", repeat (byte_of_Z 1) 20)])))
    (lit "src dir")
  = Some (hex_encode (repeat (byte_of_Z 1) 20)).
Proof.
  apply (find_entry_in_tree_first _ (lit "tree 62") (lit "src dir")
           [(lit "100644", lit "README.md", repeat (byte_of_Z 171) 20);
            (lit "40000", lit "src dir", repeat (byte_of_Z 1) 20)]).
  - vm_compute. reflexivity.
  - apply (bool_decide_unpack (x00 ∉ lit "tree 62")). vm_compute. exact I.
  - repeat constructor.
Defined.

(** ** Object headers *)

Lemma dec_digits_range (f : nat) (n : Z) (acc : bytes) :
  Forall (fun b => 48 <= bv b <= 57) acc -> Forall (fun b => 48 <= bv b <= 57) (dec_digits_go f n acc).
Proof.
  revert n acc. induction f as [|f IH]; intros n acc Hacc; [exact Hacc|].
  cbn [dec_digits_go].
  assert (Hb : 48 <= bv (byte_of_Z (48 + n mod 10)) <= 57).
  { rewrite bv_byte_of_Z. pose proof (Z.mod_pos_bound n 10). rewrite Z.mod_small; lia. }
  destruct (n / 10 =? 0); [constructor; assumption|]. apply IH. constructor; assumption.
Qed.

Lemma not_elem_by_value (l : bytes) (c : byte) (P : byte -> Prop) :
  Forall P l -> ~ P c -> c ∉ l.
Proof.
  intros Hl Hc Hin. rewrite Forall_forall in Hl. exact (Hc (Hl c Hin)).
Qed.

Lemma split_on_none (c : byte) (s : bytes) : c ∉ s -> split_on c s = [s].
Proof.
  induction s as [|x s IH]; intros Hn; [reflexivity|].
  rewrite not_elem_of_cons in Hn. destruct Hn as [Hx Hs].
  cbn [split_on]. rewrite bool_decide_false by congruence. now rewrite IH.
Qed.

Lemma graphic_forall (l : bytes) :
  forallb ascii_graphic l = true -> Forall (fun b => 33 <= bv b <= 126) l.
Proof.
  intros H. apply List.Forall_forall. intros b Hb. apply ascii_graphic_range.
  rewrite forallb_forall in H. now apply H.
Qed.

(** The header of an object as [object_bytes] writes it, with a graphic
    ASCII type: its shape as both parsers see it. *)
Lemma object_header_shape (t c : bytes) :
  forallb ascii_graphic t = true ->
  let hd := t ++ lit " " ++ format_dec (Z.of_nat (length c)) in
  object_bytes t c = hd ++ x00 :: c /\ (x00 ∉ hd) /\ utf8_valid hd = true /\
  splitn2_space hd = [t; format_dec (Z.of_nat (length c))] /\
  split_on x20 hd = [t; format_dec (Z.of_nat (length c))].
Proof.
  intros Ht hd. pose proof (graphic_forall t Ht) as Hg.
  pose proof (dec_digits_range 24 (Z.of_nat (length c)) [] (List.Forall_nil _)) as Hdg.
  fold (format_dec (Z.of_nat (length c))) in Hdg.
  set (ds := format_dec (Z.of_nat (length c))) in *.
  assert (Ht20 : x20 ∉ t) by (apply (not_elem_by_value _ _ _ Hg); cbn; lia).
  assert (Hd20 : x20 ∉ ds) by (apply (not_elem_by_value _ _ _ Hdg); cbn; lia).
  split; [unfold object_bytes, hd; rewrite <- !app_assoc; reflexivity|].
  split; [|split; [|split]].
  - unfold hd. change (lit " ") with [x20]. rewrite !elem_of_app, list_elem_of_singleton.
    intros [H|[H|H]].
    + revert H. apply (not_elem_by_value _ _ _ Hg). cbn. lia.
    + discriminate.
    + revert H. apply (not_elem_by_value _ _ _ Hdg). cbn. lia.
  - apply utf8_valid_ascii. unfold hd. apply Forall_app. split.
    + eapply Forall_impl; [exact Hg|]. cbn. intros b Hb. lia.
    + apply Forall_app. split; [repeat constructor; cbn; lia|].
      eapply Forall_impl; [exact Hdg|]. cbn. intros b Hb. lia.
  - now apply splitn2_space_header.
  - unfold hd. change (lit " ") with [x20]. cbn [app].
    rewrite split_on_app by exact Ht20. now rewrite split_on_none.
Qed.

(** X13: an object stored as [object_bytes] writes it, with a type of
    printable ASCII, is read back with its type and content by both
    [parse_git_object] (objects.rs) and the one of pack.rs; [parse_blob]
    (handler.rs) returns its content exactly when it is UTF-8. *)
Theorem parse_object_bytes `{Zlib} (data t c : bytes) :
  zlib_decompress data = Some (object_bytes t c) -> forallb ascii_graphic t = true ->
  parse_git_object data = Some (t, c) /\ PackRs.parse_git_object data = Some (t, c) /\
  Handler.parse_blob data = from_utf8 c.
Proof.
  intros Hd Ht. destruct (object_header_shape t c Ht) as (Hob & Hnul & Hu & Hs2 & Hs).
  set (hd := t ++ lit " " ++ format_dec (Z.of_nat (length c))) in *.
  assert (Hf : list_find (fun b => b = x00) (object_bytes t c) = Some (length hd, x00))
    by (rewrite Hob; now apply list_find_nul).
  assert (Hc : drop (S (length hd)) (object_bytes t c) = c).
  { rewrite Hob. replace (S (length hd)) with (length (hd ++ [x00])) by (rewrite length_app; cbn; lia).
    replace (hd ++ x00 :: c) with ((hd ++ [x00]) ++ c) by (rewrite <- app_assoc; reflexivity).
    apply drop_app_length. }
  assert (Hh : take (length hd) (object_bytes t c) = hd)
    by (rewrite Hob; apply take_app_length).
  split; [|split].
  - unfold parse_git_object. rewrite Hd, Hf, Hh. unfold from_utf8. rewrite Hu, Hs2, Hc. reflexivity.
  - unfold PackRs.parse_git_object. rewrite Hd, Hf, Hh. unfold from_utf8. rewrite Hu, Hs, Hc.
    reflexivity.
  - unfold Handler.parse_blob. rewrite Hd, Hf, Hc. reflexivity.
Qed.

Lemma parse_object_bytes_witness :
  parse_git_object (zlib_compress Fixtures.hello_obj) = Some (lit "blob", lit "hello") /\
  PackRs.parse_git_object (zlib_compress Fixtures.hello_obj) = Some (lit "blob", lit "hello") /\
  Handler.parse_blob (zlib_compress Fixtures.hello_obj) = from_utf8 (lit "hello").
Proof.
  apply parse_object_bytes; [vm_compute; reflexivity | reflexivity].
Defined.

(** ** Commit bodies *)

Lemma split_on_lines (ls : list bytes) :
  Forall (fun l => line_ok l = true) ls ->
  split_on x0a (mjoin (map (fun l => l ++ [x0a]) ls)) = ls ++ [[]].
Proof.
  induction 1 as [|l ls Hl Hls IH]; [reflexivity|].
  cbn [map mjoin list_join]. unfold line_ok in Hl. apply andb_prop in Hl as [Hn _].
  apply negb_true_iff, bool_decide_eq_false in Hn.
  replace ((l ++ [x0a]) ++ mjoin (map (fun l => l ++ [x0a]) ls))
    with (l ++ x0a :: mjoin (map (fun l => l ++ [x0a]) ls)) by (rewrite <- app_assoc; reflexivity).
  rewrite split_on_app by exact Hn. now rewrite IH.
Qed.

Lemma strip_cr_ok (l : bytes) : line_ok l = true -> strip_cr l = l.
Proof.
  unfold line_ok, strip_cr. intros H. apply andb_prop in H as [_ Hr].
  apply negb_true_iff, bool_decide_eq_false in Hr.
  destruct (last l) as [b|]; [|reflexivity].
  destruct b; try reflexivity. congruence.
Qed.

Lemma str_lines_join (ls : list bytes) :
  Forall (fun l => line_ok l = true) ls ->
  str_lines (mjoin (map (fun l => l ++ [x0a]) ls)) = ls.
Proof.
  intros H. unfold str_lines. rewrite split_on_lines by exact H.
  rewrite removelast_last, last_snoc, app_nil_r.
  induction H as [|l ls Hl _ IH]; [reflexivity|]. cbn [map]. now rewrite strip_cr_ok, IH.
Qed.

Lemma starts_with_self (p s : bytes) : starts_with (p ++ s) p = true.
Proof.
  induction p as [|c p IH]; [reflexivity|]. cbn. rewrite IH, bool_decide_true by reflexivity.
  reflexivity.
Qed.

Lemma filter_parent_lines (ps others : list bytes) :
  Forall (fun l => starts_with l (lit "parent ") = false) others ->
  filter (fun line => starts_with line (lit "parent ") = true)
    (map (fun p => lit "parent " ++ p) ps ++ others)
  = map (fun p => lit "parent " ++ p) ps.
Proof.
  intros Ho. rewrite filter_app.
  replace (filter (fun line => starts_with line (lit "parent ") = true) others) with (@nil bytes).
  - rewrite app_nil_r. induction ps as [|p ps IH]; [reflexivity|].
    cbn [map]. rewrite filter_cons_True by apply starts_with_self. now rewrite IH.
  - induction Ho as [|l others Hl _ IH]; [reflexivity|].
    rewrite filter_cons_False by congruence. exact IH.
Qed.

(** X14: in a commit body made of its [tree] line, its [parent] lines and
    other lines, [extract_tree_from_commit] finds the tree id and
    [extract_parents_from_commit] the parent ids in order; so does
    [extract_tree_oid] (handler.rs) on a commit object with that body. *)
Theorem commit_text_fields `{Zlib} (tree : bytes) (parents others : list bytes) :
  utf8_valid (commit_text tree parents others) = true ->
  forallb line_ok (commit_lines tree parents others) = true ->
  Forall (fun l => starts_with l (lit "parent ") = false) others ->
  PackRs.extract_tree_from_commit (commit_text tree parents others) = Some tree /\
  PackRs.extract_parents_from_commit (commit_text tree parents others) = parents /\
  (forall data hdr, zlib_decompress data = Some (hdr ++ x00 :: commit_text tree parents others) ->
   x00 ∉ hdr -> Handler.extract_tree_oid data = Some tree).
Proof.
  intros Hu Hok Ho.
  assert (Hl : str_lines (commit_text tree parents others) = commit_lines tree parents others).
  { apply str_lines_join. apply List.Forall_forall. intros l Hin.
    rewrite forallb_forall in Hok. now apply Hok. }
  assert (Ht : first_tree_line (commit_lines tree parents others) = Some tree).
  { cbn [commit_lines first_tree_line]. rewrite starts_with_self. reflexivity. }
  split; [|split].
  - unfold PackRs.extract_tree_from_commit, from_utf8. now rewrite Hu, Hl.
  - unfold PackRs.extract_parents_from_commit, from_utf8. rewrite Hu, Hl.
    unfold commit_lines. rewrite filter_cons_False by (intros Hs; vm_compute in Hs; discriminate).
    rewrite filter_parent_lines by exact Ho. rewrite map_map.
    erewrite map_ext; [apply map_id|]. intros p. reflexivity.
  - intros data hdr Hd Hh. unfold Handler.extract_tree_oid. rewrite Hd, list_find_nul by exact Hh.
    replace (S (length hdr)) with (length (hdr ++ [x00])) by (rewrite length_app; cbn; lia).
    replace (hdr ++ x00 :: commit_text tree parents others)
      with ((hdr ++ [x00]) ++ commit_text tree parents others) by (rewrite <- app_assoc; reflexivity).
    rewrite drop_app_length. unfold from_utf8. now rewrite Hu, Hl.
Qed.

Lemma commit_text_fields_witness :
  PackRs.extract_tree_from_commit (commit_text Fixtures.oid_a [Fixtures.oid_b; Fixtures.oid_c]
    [lit "author A <a@x> 0 +0000"; lit "committer A <a@x> 0 +0000"; []; lit "msg"])
  = Some Fixtures.oid_a /\
  PackRs.extract_parents_from_commit (commit_text Fixtures.oid_a [Fixtures.oid_b; Fixtures.oid_c]
    [lit "author A <a@x> 0 +0000"; lit "committer A <a@x> 0 +0000"; []; lit "msg"])
  = [Fixtures.oid_b; Fixtures.oid_c] /\
  Handler.extract_tree_oid (zlib_compress (lit "commit 0" ++ x00 :: commit_text Fixtures.oid_a
    [Fixtures.oid_b; Fixtures.oid_c]
    [lit "author A <a@x> 0 +0000"; lit "committer A <a@x> 0 +0000"; []; lit "msg"]))
  = Some Fixtures.oid_a.
Proof.
  destruct (commit_text_fields Fixtures.oid_a [Fixtures.oid_b; Fixtures.oid_c]
    [lit "author A <a@x> 0 +0000"; lit "committer A <a@x> 0 +0000"; []; lit "msg"])
    as (H1 & H2 & H3).
  - vm_compute. reflexivity.
  - vm_compute. reflexivity.
  - repeat constructor.
  - split; [exact H1|]. split; [exact H2|]. apply (H3 _ (lit "commit 0")).
    + vm_compute. reflexivity.
    + apply (bool_decide_unpack (x00 ∉ lit "commit 0")). vm_compute. exact I.
Defined.

(** ** Command lines of receive-pack *)

Lemma split_ws_consume (w : bytes) :
  forallb ascii_graphic w = true ->
  forall f cur s, (length w <= f)%nat ->
  split_ws_go f cur (w ++ s) = split_ws_go (f - length w) (rev w ++ cur) s.
Proof.
  induction w as [|b w IH]; intros Hw f cur s Hf.
  - cbn. now rewrite Nat.sub_0_r.
  - cbn [forallb] in Hw. apply andb_prop in Hw as [Hb Hw].
    destruct f as [|f]; [cbn in Hf; lia|]. cbn [app split_ws_go].
    rewrite ws_prefix_graphic by exact Hb. rewrite IH by (cbn in Hf; lia || exact Hw).
    cbn [length rev]. rewrite <- app_assoc. reflexivity.
Qed.

Lemma split_ws_space (g : nat) (cur s : bytes) :
  cur <> [] -> split_ws_go (S g) cur (x20 :: s) = rev cur :: split_ws_go g [] s.
Proof.
  intros Hc. cbn [split_ws_go]. change (ws_prefix_len (x20 :: s)) with 1%nat. cbn [drop].
  destruct cur; [congruence|]. reflexivity.
Qed.

Lemma split_ws_head (g : nat) :
  forall cur s, cur <> [] -> exists q rest, split_ws_go g cur s = (rev cur ++ q) :: rest.
Proof.
  induction g as [|g IH]; intros cur s Hc.
  - exists [], []. cbn. destruct cur; [congruence|]. now rewrite app_nil_r.
  - destruct s as [|b s].
    + exists [], []. cbn. destruct cur; [congruence|]. now rewrite app_nil_r.
    + cbn [split_ws_go]. destruct (ws_prefix_len (b :: s)) as [|k].
      * destruct (IH (b :: cur) s ltac:(discriminate)) as (q & rest & E).
        exists (b :: q), rest. rewrite E. cbn [rev]. now rewrite <- app_assoc.
      * exists [], (split_ws_go g [] (drop (S k) (b :: s))).
        destruct cur; [congruence|]. now rewrite app_nil_r.
Qed.

Lemma graphic_app_inv (a b : bytes) :
  forallb ascii_graphic (a ++ b) = true -> forallb ascii_graphic a = true /\ forallb ascii_graphic b = true.
Proof. rewrite forallb_app. apply andb_prop. Qed.

Lemma graphic_no_nul (l : bytes) : forallb ascii_graphic l = true -> x00 ∉ l.
Proof. intros H. apply (not_elem_by_value _ _ _ (graphic_forall l H)). cbn. lia. Qed.

(** X15: [parse_command] reads a command line as git sends it,
    [<old> <new> <ref>], possibly followed by a NUL and the capabilities
    on the first line: the two 40-byte ids and the ref name. *)
Theorem parse_command_line (o n r tail : bytes) :
  length o = 40%nat -> length n = 40%nat -> forallb ascii_graphic (o ++ n ++ r) = true -> r <> [] ->
  (tail = [] \/ exists t, tail = x00 :: t) ->
  parse_command (o ++ lit " " ++ n ++ lit " " ++ r ++ tail) = Some (o, n, r).
Proof.
  intros Ho Hn Hg Hr Ht.
  apply graphic_app_inv in Hg as [Hgo Hg]. apply graphic_app_inv in Hg as [Hgn Hgr].
  unfold parse_command, split_whitespace.
  set (F := length (o ++ lit " " ++ n ++ lit " " ++ r ++ tail)).
  assert (HF : F = (82 + length r + length tail)%nat)
    by (unfold F; rewrite !length_app, Ho, Hn; cbn; lia).
  change (lit " ") with [x20]. cbn [app].
  rewrite split_ws_consume by (exact Hgo || lia).
  replace (F - length o)%nat with (S (F - 41)) by lia.
  rewrite split_ws_space by (intros E; apply (f_equal (@length byte)) in E;
                             rewrite length_app, length_rev, Ho in E; cbn in E; lia).
  rewrite split_ws_consume by (exact Hgn || lia).
  replace (F - 41 - length n)%nat with (S (F - 82)) by lia.
  rewrite split_ws_space by (intros E; apply (f_equal (@length byte)) in E;
                             rewrite length_app, length_rev in E; cbn in E; lia).
  rewrite split_ws_consume by (exact Hgr || lia).
  rewrite !app_nil_r, !rev_involutive.
  assert (Hrr : rev r <> []) by (intros E; apply Hr; apply (f_equal (@rev byte)) in E;
                                rewrite rev_involutive in E; exact E).
  assert (Hsplit : exists q rest, split_ws_go (F - 82 - length r) (rev r) tail
                                  = (r ++ q) :: rest /\ (q = [] \/ exists q', q = x00 :: q')).
  { destruct Ht as [-> | [t ->]].
    - exists [], []. split; [|now left].
      destruct (F - 82 - length r)%nat; cbn; destruct (rev r) eqn:E; try congruence;
        rewrite <- E, rev_involutive, app_nil_r; reflexivity.
    - replace (F - 82 - length r)%nat with (S (F - 83 - length r)) by (cbn in HF; lia).
      cbn [split_ws_go].
      replace (ws_prefix_len (x00 :: t)) with 0%nat by (destruct t as [|? [|? ?]]; reflexivity).
      destruct (split_ws_head (F - 83 - length r) (x00 :: rev r) t ltac:(discriminate))
        as (q & rest & E).
      exists (x00 :: q), rest. rewrite E. cbn [rev]. rewrite rev_involutive, <- app_assoc.
      split; [reflexivity|]. right. now exists q. }
  destruct Hsplit as (q & rest & -> & Hq).
  rewrite Ho, Hn. cbn [Nat.eqb andb].
  destruct Hq as [-> | [q' ->]].
  - rewrite app_nil_r, split_on_none by now apply graphic_no_nul. reflexivity.
  - rewrite split_on_app by now apply graphic_no_nul. reflexivity.
Qed.

Lemma parse_command_line_witness :
  parse_command (zero_oid ++ lit " " ++ Fixtures.oid_a ++ lit " " ++ lit "refs/heads/main"
                 ++ x00 :: lit "report-status side-band-64k")
  = Some (zero_oid, Fixtures.oid_a, lit "refs/heads/main").
Proof.
  apply parse_command_line;
    [reflexivity | reflexivity | vm_compute; reflexivity | discriminate | right; eexists; reflexivity].
Defined.

(** ** The commit page of [get_commits] *)

Lemma usize_add_small (a b : N) : (a + b < 2 ^ 64)%N -> usize_add a b = (a + b)%N.
Proof. intros H. unfold usize_add. apply N.mod_small. exact H. Qed.

Lemma commits_loop_chain {Oid Commit : Type} (get : Oid -> option (Commit * option Oid))
  (oids : list Oid) (cs : list Commit) (limit skip : N) :
  (length oids = length cs \/ length oids = S (length cs)) ->
  (forall i o c, oids !! i = Some o -> cs !! i = Some c -> get o = Some (c, oids !! S i)) ->
  (forall o, oids !! length cs = Some o -> get o = None) ->
  (skip + limit + 1 < 2 ^ 64)%N ->
  forall f k acc,
  (k <= length cs)%nat -> (k <= N.to_nat skip + N.to_nat limit + 1)%nat ->
  (N.to_nat skip + N.to_nat limit + 2 <= f + k)%nat ->
  commits_loop get f (oids !! k) limit skip (N.of_nat k) acc
  = (acc ++ drop (N.to_nat skip - k) (take (N.to_nat skip + N.to_nat limit - k) (drop k cs)),
     N.of_nat (Nat.min (length cs) (N.to_nat skip + N.to_nat limit + 1))).
Proof.
  intros Hlen Hget Hend Hov.
  assert (Hb : usize_add (usize_add skip limit) 1 = (skip + limit + 1)%N)
    by (rewrite (usize_add_small skip limit) by lia; apply usize_add_small; lia).
  assert (Hb' : usize_add skip limit = (skip + limit)%N) by (apply usize_add_small; lia).
  set (s := N.to_nat skip). set (l := N.to_nat limit).
  induction f as [|f IH]; intros k acc Hkn Hkb Hf.
  - lia.
  - cbn [commits_loop]. rewrite Hb.
    destruct (decide (k = s + l + 1)%nat) as [Eb|Eb].
    { destruct (oids !! k) as [o|].
      - replace (skip + limit + 1 <=? N.of_nat k)%N with true by (symmetry; apply N.leb_le; lia).
        replace (s + l - k)%nat with 0%nat by lia. rewrite take_0, drop_nil, app_nil_r.
        f_equal. f_equal. lia.
      - replace (s + l - k)%nat with 0%nat by lia. rewrite take_0, drop_nil, app_nil_r.
        f_equal. f_equal. lia. }
    replace (skip + limit + 1 <=? N.of_nat k)%N with false by (symmetry; apply N.leb_gt; lia).
    destruct (decide (k = length cs)) as [En|En].
    { assert (Hcur : match oids !! k with
                     | Some o => get o
                     | None => None
                     end = None).
      { destruct (oids !! k) as [o|] eqn:Eo; [|reflexivity]. apply Hend. rewrite <- En. exact Eo. }
      rewrite En, drop_all, take_nil, drop_nil, app_nil_r.
      replace (Nat.min (length cs) (s + l + 1)) with (length cs) by lia.
      rewrite <- En.
      destruct (oids !! k) as [o|]; [rewrite Hcur|]; reflexivity. }
    assert (Hk : (k < length cs)%nat) by lia.
    destruct (lookup_lt_is_Some_2 cs k Hk) as [c Hc].
    destruct (lookup_lt_is_Some_2 oids k ltac:(lia)) as [o Ho].
    rewrite Ho, (Hget k o c Ho Hc).
    rewrite Hb'.
    replace (N.of_nat k + 1)%N with (N.of_nat (S k)) by lia.
    rewrite IH by lia.
    rewrite (drop_S cs c k Hc).
    destruct (decide (s <= k < s + l)%nat) as [Hin|Hin].
    + replace ((skip <=? N.of_nat k)%N && (N.of_nat k <? skip + limit)%N) with true
        by (symmetry; apply andb_true_intro; split; [apply N.leb_le | apply N.ltb_lt]; lia).
      replace (s - k)%nat with 0%nat by lia. replace (s - S k)%nat with 0%nat by lia.
      replace (s + l - k)%nat with (S (s + l - S k)) by lia.
      rewrite <- app_assoc. reflexivity.
    + replace ((skip <=? N.of_nat k)%N && (N.of_nat k <? skip + limit)%N) with false
        by (symmetry; destruct (decide (s <= k)%nat);
            [apply andb_false_intro2; apply N.ltb_ge; lia
            | apply andb_false_intro1; apply N.leb_gt; lia]).
      destruct (decide (k < s)%nat).
      * replace (s - k)%nat with (S (s - S k)) by lia.
        replace (s + l - k)%nat with (S (s + l - S k)) by lia.
        reflexivity.
      * replace (s + l - k)%nat with 0%nat by lia. replace (s + l - S k)%nat with 0%nat by lia.
        rewrite !take_0, !drop_nil. reflexivity.
Qed.

(** X16: when the history read from the head is the chain of commits
    [cs] (the commit at [oids !! i] is [cs !! i], its parent id is
    [oids !! S i], and the id after the last commit, if any, cannot be
    read) and [skip + limit + 1] does not overflow, [get_commits] returns
    the commits [skip .. skip + limit) of the chain, and [has_more]
    exactly when the chain holds more than [skip + limit] commits. *)
Theorem get_commits_page {Oid Commit : Type} (get : Oid -> option (Commit * option Oid))
  (oids : list Oid) (cs : list Commit) (head : Oid) (limit skip : N) :
  (length oids = length cs \/ length oids = S (length cs)) ->
  oids !! 0%nat = Some head ->
  (forall i o c, oids !! i = Some o -> cs !! i = Some c -> get o = Some (c, oids !! S i)) ->
  (forall o, oids !! length cs = Some o -> get o = None) ->
  (skip + limit + 1 < 2 ^ 64)%N ->
  get_commits_from get head limit skip
  = (take (N.to_nat limit) (drop (N.to_nat skip) cs),
     (skip + limit <? N.of_nat (length cs))%N).
Proof.
  intros Hlen Hhead Hget Hend Hov.
  unfold get_commits_from.
  assert (Hb : usize_add (usize_add skip limit) 1 = (skip + limit + 1)%N)
    by (rewrite (usize_add_small skip limit) by lia; apply usize_add_small; lia).
  rewrite Hb, <- Hhead.
  change 0%N with (N.of_nat 0).
  rewrite (commits_loop_chain get oids cs limit skip Hlen Hget Hend Hov) by lia.
  rewrite usize_add_small by lia.
  rewrite !Nat.sub_0_r, drop_0. cbn [app].
  f_equal.
  - rewrite take_drop_commute. reflexivity.
  - destruct (N.ltb_spec (skip + limit) (N.of_nat (length cs))),
      (N.ltb_spec (skip + limit)
         (N.of_nat (Nat.min (length cs) (N.to_nat skip + N.to_nat limit + 1))));
      first [reflexivity | exfalso; lia].
Qed.

Lemma get_commits_page_witness :
  get_commits_from (fun o : nat => match o with
                                   | 0%nat => Some (10%nat, Some 1%nat)
                                   | 1%nat => Some (11%nat, Some 2%nat)
                                   | 2%nat => Some (12%nat, None)
                                   | _ => None
                                   end) 0%nat 1 1
  = ([11%nat], true).
Proof.
  rewrite (get_commits_page _ [0%nat; 1%nat; 2%nat] [10%nat; 11%nat; 12%nat]).
  - reflexivity.
  - left. reflexivity.
  - reflexivity.
  - intros [|[|[|i]]] o c Ho Hc; cbn in Ho, Hc; try discriminate;
      injection Ho as <-; injection Hc as <-; reflexivity.
  - intros o Ho. discriminate.
  - lia.
Defined.

(** ** The advertisement cache of [get_refs_advertisement] *)

Lemma advertisement_cache_size (k : bytes) (e : bytes * Z) (cache : info_refs_cache) :
  (size cache < 1024)%nat -> (size (<[k := e]> cache) <= 1024)%nat.
Proof.
  intros Hs. rewrite map_size_insert. destruct (cache !! k); cbn; lia.
Qed.

(** X17: with a positive TTL and a cache of fewer than 1024 entries, the
    advertisement [get_refs_advertisement] returns is then in the cache
    under the store's prefix and the service, stamped with a time [t]
    within the TTL of [now]; until the TTL from [t] runs out, a call for
    a store with the same prefix returns those same bytes and leaves the
    cache and the store as they are, whatever refs the store holds by then. *)
Theorem refs_advertisement_cached (service : bytes) (ttl now : Z) (cache c1 : info_refs_cache)
  (st st1 : R2GitStore) (p : bytes) :
  0 < ttl -> (size cache < 1024)%nat ->
  get_refs_advertisement service ttl now cache st = Some ((p, c1), st1) ->
  exists t, now - t < ttl /\ c1 !! (prefix st ++ lit "|" ++ service) = Some (p, t) /\
    forall now' st2, prefix st2 = prefix st -> now' - t < ttl ->
      get_refs_advertisement service ttl now' c1 st2 = Some ((p, c1), st2).
Proof.
  intros Httl Hsz Hrun.
  set (key := prefix st ++ lit "|" ++ service).
  assert (Hlk : exists t, now - t < ttl /\ c1 !! key = Some (p, t)).
  { revert Hrun. unfold get_refs_advertisement, bind at 1, get_state. cbv beta iota zeta.
    replace (0 <? ttl) with true by (symmetry; apply Z.ltb_lt; exact Httl).
    fold key.
    destruct (cache !! key) as [[p0 t]|] eqn:Ec.
    - destruct (now - t <? ttl) eqn:Et.
      + unfold ret. intros [= <- <- _]. exists t. split; [apply Z.ltb_lt; exact Et | exact Ec].
      + unfold hang. discriminate.
    - unfold bind. destruct (list_refs (lit "refs/heads") st) as [[br s1]|]; [|discriminate].
      destruct (list_refs (lit "refs/tags") s1) as [[tg s2]|]; [|discriminate].
      destruct (resolve_ref (lit "HEAD") s2) as [[hd s3]|]; [|discriminate].
      unfold ret. intros [= <- <- _].
      rewrite (proj2 (Nat.ltb_ge _ _)) by (apply advertisement_cache_size; exact Hsz).
      exists now. split; [lia|]. apply lookup_insert_eq. }
  destruct Hlk as (t & Ht & Hlk).
  exists t. split; [exact Ht|]. split; [exact Hlk|].
  intros now' st2 Hpre Ht'.
  unfold get_refs_advertisement, bind at 1, get_state. cbv beta iota zeta.
  replace (0 <? ttl) with true by (symmetry; apply Z.ltb_lt; exact Httl).
  rewrite Hpre. fold key. rewrite Hlk.
  replace (now' - t <? ttl) with true by (symmetry; apply Z.ltb_lt; exact Ht').
  reflexivity.
Qed.

Lemma refs_advertisement_cached_witness :
  exists p c1 st1,
    get_refs_advertisement (lit "git-upload-pack") 1000 0 ∅ Fixtures.dangling_head_store
    = Some ((p, c1), st1) /\
    get_refs_advertisement (lit "git-upload-pack") 1000 0 c1 (Fixtures.store_of [])
    = Some ((p, c1), Fixtures.store_of []).
Proof.
  destruct (get_refs_advertisement (lit "git-upload-pack") 1000 0 ∅ Fixtures.dangling_head_store)
    as [[[p c1] st1]|] eqn:E; [|apply (f_equal (option_map (fun r => fst (fst r)))) in E;
                                   vm_compute in E; discriminate].
  exists p, c1, st1. split; [reflexivity|].
  destruct (refs_advertisement_cached (lit "git-upload-pack") 1000 0 ∅ c1
              Fixtures.dangling_head_store st1 p ltac:(lia) ltac:(rewrite map_size_empty; lia) E)
    as (t & Ht & _ & Hnext).
  apply Hnext; [reflexivity | exact Ht].
Defined.

(** ** The [packed-refs] fallback of [resolve_ref] *)

Lemma trim_graphic_ends (b0 x : byte) (m l' : bytes) :
  ascii_graphic b0 = true -> ascii_graphic x = true -> b0 :: m = l' ++ [x] ->
  trim (b0 :: m) = b0 :: m.
Proof.
  intros Hb0 Hgx Hx. unfold trim. cbn [length trim_start_go].
  rewrite (ws_prefix_graphic b0) by exact Hb0.
  cbn [length trim_end_go]. rewrite Hx, ws_suffix_graphic by exact Hgx. reflexivity.
Qed.

Lemma printable_forall (l : bytes) :
  forallb ascii_graphic l = true -> Forall (fun b => 32 <= bv b < 127) l.
Proof.
  intros H. eapply List.Forall_impl; [|exact (graphic_forall l H)]. cbn. lia.
Qed.

Lemma packed_line_printable (name oid : bytes) :
  forallb ascii_graphic oid = true -> forallb ascii_graphic name = true ->
  Forall (fun b => 32 <= bv b < 127) (oid ++ lit " " ++ name).
Proof.
  intros Ho Hn. apply Forall_app. split; [now apply printable_forall|].
  constructor; [cbn; lia|]. now apply printable_forall.
Qed.

Lemma packed_line_entry (name oid : bytes) :
  packed_entry_ok name oid = true -> packed_ref_line (oid ++ lit " " ++ name) = Some (name, oid).
Proof.
  unfold packed_entry_ok. intros H.
  apply andb_prop in H as [H Hc]. apply andb_prop in H as [H Hh].
  apply andb_prop in H as [H Hne]. apply andb_prop in H as [H Hoe].
  apply andb_prop in H as [Ho Hn].
  apply negb_true_iff, bool_decide_eq_false in Hne, Hoe.
  destruct (graphic_last name Hne Hn) as (l' & x & Hx & Hgx).
  destruct oid as [|b0 m0]; [congruence|].
  assert (Hb0 : ascii_graphic b0 = true) by (cbn in Ho; now apply andb_prop in Ho as [? _]).
  unfold packed_ref_line.
  change ((b0 :: m0) ++ lit " " ++ name) with (b0 :: (m0 ++ lit " " ++ name)).
  rewrite (trim_graphic_ends b0 x (m0 ++ lit " " ++ name) (b0 :: m0 ++ lit " " ++ l') Hb0 Hgx)
    by (rewrite Hx; cbn; rewrite <- !app_assoc; reflexivity).
  replace (starts_with (b0 :: m0 ++ lit " " ++ name) (lit "#"))
    with (starts_with (b0 :: m0) (lit "#")) by reflexivity.
  replace (starts_with (b0 :: m0 ++ lit " " ++ name) (lit "^"))
    with (starts_with (b0 :: m0) (lit "^")) by reflexivity.
  apply negb_true_iff in Hc, Hh. rewrite Hc, Hh. cbn [orb].
  change (b0 :: m0 ++ lit " " ++ name) with ((b0 :: m0) ++ lit " " ++ name).
  rewrite splitn2_space_header; [reflexivity|].
  apply (not_elem_by_value _ _ (fun b => 33 <= bv b <= 126)); [now apply graphic_forall|].
  cbn. lia.
Qed.

Lemma packed_refs_text_lines (entries : list (bytes * bytes)) :
  packed_refs_text entries
  = mjoin (map (fun l => l ++ [x0a]) (map (fun '(name, oid) => oid ++ lit " " ++ name) entries)).
Proof.
  unfold packed_refs_text. rewrite map_map. f_equal. apply map_ext.
  intros [n o]. rewrite <- !app_assoc. reflexivity.
Qed.

Lemma read_packed_refs_text (entries : list (bytes * bytes)) (st : R2GitStore) :
  blobs (s3 st) !! ref_path (prefix st) (lit "packed-refs") = Some (packed_refs_text entries) ->
  Forall (fun '(n, o) => packed_entry_ok n o = true) entries ->
  read_packed_refs st = Some (Some entries, st).
Proof.
  intros Hk Hok.
  assert (Hp : Forall (fun l => Forall (fun b => 32 <= bv b < 127) l /\ line_ok l = true)
                 (map (fun '(name, oid) => oid ++ lit " " ++ name) entries)).
  { clear Hk. induction Hok as [|[n o] es He _ IH]; cbn [map]; [constructor|].
    constructor; [|exact IH].
    unfold packed_entry_ok in He.
    apply andb_prop in He as [He _]. apply andb_prop in He as [He _].
    apply andb_prop in He as [He Hne]. apply andb_prop in He as [He _].
    apply andb_prop in He as [Ho Hn].
    apply negb_true_iff, bool_decide_eq_false in Hne.
    pose proof (packed_line_printable n o Ho Hn) as Hpr. split; [exact Hpr|].
    unfold line_ok. apply andb_true_intro. split; apply negb_true_iff, bool_decide_eq_false.
    - apply (not_elem_by_value _ _ _ Hpr). cbn. lia.
    - destruct (graphic_last n Hne Hn) as (l' & x & -> & Hgx).
      rewrite !app_assoc, last_snoc. apply ascii_graphic_range in Hgx.
      intros [= Ex]. subst x. cbn in Hgx. lia. }
  unfold read_packed_refs, bind, get_state, s3_get_object. rewrite Hk. unfold ret.
  rewrite packed_refs_text_lines. unfold from_utf8.
  rewrite utf8_valid_ascii.
  2:{ induction Hp as [|l ls [Hl _] _ IH]; [constructor|]. cbn [map mjoin list_join].
      apply Forall_app. split; [|exact IH]. apply Forall_app. split; [|constructor; [cbn; lia|constructor]].
      eapply List.Forall_impl; [|exact Hl]. cbn. lia. }
  rewrite str_lines_join.
  2:{ eapply List.Forall_impl; [|exact Hp]. cbn. tauto. }
  do 3 f_equal. clear Hk Hp.
  induction Hok as [|[n o] es He _ IH]; [reflexivity|].
  cbn [map omap list_omap]. rewrite packed_line_entry by exact He. now rewrite IH.
Qed.

Lemma lookup_packed_find (name : bytes) (entries : list (bytes * bytes)) :
  lookup_packed name entries
  = option_map snd (List.find (fun '(n, _) => bytes_eqb n name) entries).
Proof.
  induction entries as [|[n o] es IH]; [reflexivity|].
  cbn. destruct (bytes_eqb n name); [reflexivity|exact IH].
Qed.

(** X18: for a ref with no loose file, when [packed-refs] holds lines
    [<oid> <name>] as [git pack-refs] writes them, [resolve_ref] returns
    the id of the first line naming the ref, and none when no line does;
    the id is not checked to be 40 hex digits. *)
Theorem resolve_ref_packed (name : bytes) (entries : list (bytes * bytes)) (st : R2GitStore) :
  blobs (s3 st) !! ref_path (prefix st) name = None ->
  blobs (s3 st) !! ref_path (prefix st) (lit "packed-refs") = Some (packed_refs_text entries) ->
  Forall (fun '(n, o) => packed_entry_ok n o = true) entries ->
  resolve_ref name st
  = Some (option_map snd (List.find (fun '(n, _) => bytes_eqb n name) entries), st).
Proof.
  intros Hloose Hk Hok. rewrite <- lookup_packed_find.
  unfold resolve_ref. cbn [resolve_ref_inner].
  replace (10 <? 0) with false by reflexivity.
  unfold bind at 1. rewrite read_ref_blob, Hloose.
  unfold bind. rewrite (read_packed_refs_text entries st Hk Hok). reflexivity.
Qed.

Lemma resolve_ref_packed_witness :
  resolve_ref (lit "refs/tags/v1")
    (Fixtures.store_of [(Fixtures.pfx ++ lit "/packed-refs",
                         packed_refs_text [(lit "refs/heads/main", Fixtures.oid_b);
                                           (lit "refs/tags/v1", lit "not-an-id")])])
  = Some (Some (lit "not-an-id"),
          Fixtures.store_of [(Fixtures.pfx ++ lit "/packed-refs",
                              packed_refs_text [(lit "refs/heads/main", Fixtures.oid_b);
                                                (lit "refs/tags/v1", lit "not-an-id")])]).
Proof.
  rewrite (resolve_ref_packed _ [(lit "refs/heads/main", Fixtures.oid_b);
                                 (lit "refs/tags/v1", lit "not-an-id")]).
  - reflexivity.
  - vm_compute. reflexivity.
  - vm_compute. reflexivity.
  - repeat constructor.
Defined.

(** ** The names [list_refs] returns *)

Lemma starts_with_app_iff (s p : bytes) : starts_with s p = true <-> exists r, s = p ++ r.
Proof.
  revert s. induction p as [|c p IH]; intros s.
  - split; [intros _; now exists s | reflexivity].
  - destruct s as [|d s]; cbn.
    + split; [discriminate | intros [r Hr]; discriminate].
    + rewrite andb_true_iff, bool_decide_eq_true, IH. split.
      * intros [-> [r ->]]. now exists r.
      * intros [r Hr]. injection Hr as -> ->. split; [reflexivity|]. now exists r.
Qed.

Lemma list_refs_loose_names (pfx : bytes) (st : R2GitStore) (keys : list bytes) :
  Forall (fun k => exists r, k = prefix st ++ lit "/" ++ pfx ++ r) keys ->
  forall acc, Forall (fun '(n, _) => starts_with n pfx = true) acc ->
  exists refs, list_refs_loose keys acc st = Some (refs, st) /\
               Forall (fun '(n, _) => starts_with n pfx = true) refs.
Proof.
  induction 1 as [|k ks [r ->] _ IH]; intros acc Hacc.
  - exists acc. split; [reflexivity | exact Hacc].
  - cbn [list_refs_loose]. unfold bind at 1, get_state.
    unfold strip_prefix. rewrite app_assoc, starts_with_prefix.
    rewrite drop_app_length. unfold bind, s3_get_object.
    destruct (match blobs (s3 st) !! ((prefix st ++ lit "/") ++ pfx ++ r) with
              | Some d => from_utf8 d
              | None => None
              end) as [oid0|].
    + destruct (existsb _ acc); [now apply IH|].
      apply IH. apply Forall_app. split; [exact Hacc|].
      constructor; [apply starts_with_prefix | constructor].
    + now apply IH.
Qed.

(** X19: [list_refs(prefix)] never fails and leaves the store as it is,
    and every ref name it returns, packed or loose, starts with [prefix]. *)
Theorem list_refs_under_prefix (pfx : bytes) (st : R2GitStore) :
  exists refs, list_refs pfx st = Some (refs, st) /\
               Forall (fun '(n, _) => starts_with n pfx = true) refs.
Proof.
  unfold list_refs, bind at 1.
  assert (Hp : exists p, read_packed_refs st = Some (p, st)) by (eexists; reflexivity).
  destruct Hp as [p Hp]. rewrite Hp.
  unfold bind, get_state, s3_list_objects.
  apply list_refs_loose_names.
  - apply List.Forall_forall. intros k Hk.
    apply list_elem_of_In, elem_of_s3_list_objects in Hk as [_ Hs].
    apply starts_with_app_iff in Hs as [r ->]. exists r. unfold ref_path.
    rewrite <- !app_assoc. reflexivity.
  - destruct p as [p|]; [|constructor].
    apply List.Forall_forall. intros [n o] Hn.
    apply list_elem_of_In, list_elem_of_filter in Hn as [Hs _]. exact Hs.
Qed.

(** ** Walking a path through trees *)

Lemma split_on_sep (c : byte) (p q : bytes) :
  split_on c (p ++ c :: q) = split_on c p ++ split_on c q.
Proof.
  induction p as [|x p IH].
  - cbn. rewrite bool_decide_true by reflexivity. reflexivity.
  - cbn [app split_on]. rewrite IH.
    destruct (bool_decide (x = c)); [reflexivity|].
    destruct (split_on c p) as [|h t] eqn:E; [exfalso; exact (split_on_nonempty c p E)|].
    reflexivity.
Qed.

Lemma path_parts_sep (p q : bytes) : path_parts (p ++ lit "/" ++ q) = path_parts p ++ path_parts q.
Proof. unfold path_parts. change (lit "/") with [x2f]. cbn [app]. now rewrite split_on_sep, filter_app. Qed.

Lemma navigate_loop_app `{Zlib} (ps qs : list bytes) :
  forall t st, navigate_loop (ps ++ qs) t st
  = (let* r := navigate_loop ps t in
     match r with Some o => navigate_loop qs o | None => ret None end) st.
Proof.
  induction ps as [|part ps IH]; intros t st; [reflexivity|].
  cbn [app navigate_loop]. unfold bind.
  destruct (get_object t st) as [[d st1]|]; [|reflexivity].
  destruct d as [d|]; [|reflexivity].
  destruct (Handler.find_entry_in_tree d part) as [oid|]; [|reflexivity].
  rewrite IH. reflexivity.
Qed.

(** X20: walking [p/q] from a tree is walking [p], then walking [q] from
    the id reached; a failure on the way fails the whole walk. Empty
    components are skipped, so [p/] or [/q] walk the same. *)
Theorem navigate_to_path_app `{Zlib} (t p q : bytes) (st : R2GitStore) :
  navigate_to_path t (p ++ lit "/" ++ q) st
  = (let* r := navigate_to_path t p in
     match r with Some o => navigate_to_path o q | None => ret None end) st.
Proof. unfold navigate_to_path. rewrite path_parts_sep. apply navigate_loop_app. Qed.

(** ** [get_file] and [navigate_to_path] *)

Lemma split_on_pieces (c : byte) (l : bytes) : Forall (fun s => c ∉ s) (split_on c l).
Proof.
  induction l as [|x l IH]; cbn [split_on].
  - constructor; [apply not_elem_of_nil | constructor].
  - destruct (bool_decide (x = c)) eqn:E.
    + constructor; [apply not_elem_of_nil | exact IH].
    + apply bool_decide_eq_false in E.
      destruct (split_on c l) as [|h t]; [constructor; [|constructor]|].
      * rewrite list_elem_of_singleton. congruence.
      * apply Forall_cons in IH as [Hh Ht]. constructor; [|exact Ht].
        rewrite not_elem_of_cons. split; [congruence | exact Hh].
Qed.

Lemma path_parts_pieces (path : bytes) :
  Forall (fun s => s <> [] /\ x2f ∉ s) (path_parts path).
Proof.
  unfold path_parts. pose proof (split_on_pieces x2f path) as H.
  induction H as [|s ss Hs _ IH]; [constructor|].
  destruct (decide (s = [])) as [->|Hne].
  - rewrite filter_cons_False by (intros Hn; apply Hn; reflexivity). exact IH.
  - rewrite filter_cons_True by exact Hne. constructor; [split; assumption | exact IH].
Qed.

Lemma path_parts_join (xs : list bytes) :
  Forall (fun s => s <> [] /\ x2f ∉ s) xs -> path_parts (join_slash xs) = xs.
Proof.
  induction 1 as [|x xs [Hx Hs] Hxs IH]; [reflexivity|].
  assert (Hone : path_parts x = [x]).
  { unfold path_parts. rewrite split_on_none by exact Hs.
    rewrite filter_cons_True by exact Hx. reflexivity. }
  destruct xs as [|y ys]; [exact Hone|].
  change (join_slash (x :: y :: ys)) with (x ++ lit "/" ++ join_slash (y :: ys)).
  rewrite path_parts_sep, Hone, IH. reflexivity.
Qed.

Lemma get_file_dir `{Zlib} (ps : list bytes) (f t : bytes) :
  Forall (fun s => s <> [] /\ x2f ∉ s) (ps ++ [f]) ->
  (match (if (1 <? length (ps ++ [f]))%nat
          then join_slash (take (length (ps ++ [f]) - 1) (ps ++ [f])) else []) with
   | [] => ret (Some t)
   | _ => navigate_to_path t (if (1 <? length (ps ++ [f]))%nat
                              then join_slash (take (length (ps ++ [f]) - 1) (ps ++ [f])) else [])
   end) = navigate_loop ps t.
Proof.
  intros Hok. apply Forall_app in Hok as [Hps _].
  replace (if (1 <? length (ps ++ [f]))%nat
           then join_slash (take (length (ps ++ [f]) - 1) (ps ++ [f])) else [])
    with (join_slash ps).
  2:{ rewrite length_app. cbn [length].
      replace (length ps + 1 - 1)%nat with (length ps) by lia. rewrite take_app_length.
      destruct ps as [|p ps]; [reflexivity|]. cbn [length].
      replace (1 <? S (length ps) + 1)%nat with true by (symmetry; apply Nat.ltb_lt; lia).
      reflexivity. }
  destruct ps as [|p ps]; [reflexivity|].
  apply Forall_cons in Hps as Hp. destruct Hp as [[Hp _] _].
  assert (Hj : exists b r, join_slash (p :: ps) = b :: r).
  { destruct p as [|b r]; [congruence|]. destruct ps; cbn; eauto. }
  destruct Hj as (b & r & Hj). rewrite Hj. rewrite <- Hj.
  unfold navigate_to_path. rewrite path_parts_join by exact Hps. reflexivity.
Qed.

(** X21: for a path with at least one non-empty component, [get_file]
    returns the content and id of the blob that [navigate_to_path] reaches
    from the head commit's tree along the whole path. *)
Theorem get_file_navigate `{Zlib} (branch path : bytes) (st : R2GitStore) :
  path_parts path <> [] ->
  get_file branch path st
  = (let* head := resolve_ref (lit "refs/heads/" ++ branch) in
     match head with
     | None => ret None
     | Some head_oid =>
         let* commit_data := get_object head_oid in
         match commit_data with
         | None => ret None
         | Some commit_data =>
             match Handler.extract_tree_oid commit_data with
             | None => ret None
             | Some tree_oid =>
                 let* file_oid := navigate_to_path tree_oid path in
                 match file_oid with
                 | None => ret None
                 | Some file_oid =>
                     let* blob_data := get_object file_oid in
                     match blob_data with
                     | None => ret None
                     | Some blob_data =>
                         ret (option_map (fun content => (content, file_oid))
                                         (Handler.parse_blob blob_data))
                     end
                 end
             end
         end
     end) st.
Proof.
  intros Hne. pose proof (path_parts_pieces path) as Hok.
  destruct (exists_last Hne) as (ps & f & Hp).
  unfold get_file, navigate_to_path at 2. rewrite Hp in Hok |- *.
  pose proof (get_file_dir ps f) as Hdir.
  unfold bind at 1 6.
  destruct (resolve_ref (lit "refs/heads/" ++ branch) st) as [[h st1]|]; [|reflexivity].
  destruct h as [h|]; [|reflexivity].
  unfold bind at 1 5.
  destruct (get_object h st1) as [[c st2]|]; [|reflexivity].
  destruct c as [c|]; [|reflexivity].
  destruct (Handler.extract_tree_oid c) as [tree|]; [|reflexivity].
  replace (match ps ++ [f] with
           | [] => ret None
           | _ :: _ => _
           end) with
    (match last (ps ++ [f]) with
     | None => @ret (option (bytes * bytes)) None
     | Some file_name =>
         let* dir_tree_oid :=
           match (if (1 <? length (ps ++ [f]))%nat
                  then join_slash (take (length (ps ++ [f]) - 1) (ps ++ [f])) else []) with
           | [] => ret (Some tree)
           | _ => navigate_to_path tree (if (1 <? length (ps ++ [f]))%nat
                    then join_slash (take (length (ps ++ [f]) - 1) (ps ++ [f])) else [])
           end in
         match dir_tree_oid with
         | None => ret None
         | Some dir_tree_oid =>
             let* dir_tree_data := get_object dir_tree_oid in
             match dir_tree_data with
             | None => ret None
             | Some dir_tree_data =>
                 match Handler.find_entry_in_tree dir_tree_data file_name with
                 | None => ret None
                 | Some file_oid =>
                     let* blob_data := get_object file_oid in
                     match blob_data with
                     | None => ret None
                     | Some blob_data =>
                         match Handler.parse_blob blob_data with
                         | None => ret None
                         | Some content => ret (Some (content, file_oid))
                         end
                     end
                 end
             end
         end
     end) by (destruct ps; reflexivity).
  rewrite last_snoc, (Hdir tree Hok).
  unfold bind. rewrite navigate_loop_app. unfold bind.
  destruct (navigate_loop ps tree st2) as [[d st3]|]; [|reflexivity].
  destruct d as [d|]; [|reflexivity].
  cbn [navigate_loop]. unfold bind, ret.
  destruct (get_object d st3) as [[t st4]|]; [|reflexivity].
  destruct t as [t|]; [|reflexivity].
  destruct (Handler.find_entry_in_tree t f) as [o|]; [|reflexivity].
  destruct (get_object o st4) as [[b st5]|]; [|reflexivity].
  destruct b as [b|]; [|reflexivity].
  destruct (Handler.parse_blob b); reflexivity.
Qed.

Lemma get_file_navigate_witness :
  get_file (lit "main") (lit "/src//main.rs") Fixtures.minimal_store
  = (let* head := resolve_ref (lit "refs/heads/main") in
     match head with
     | None => ret None
     | Some head_oid =>
         let* commit_data := get_object head_oid in
         match commit_data with
         | None => ret None
         | Some commit_data =>
             match Handler.extract_tree_oid commit_data with
             | None => ret None
             | Some tree_oid =>
                 let* file_oid := navigate_to_path tree_oid (lit "/src//main.rs") in
                 match file_oid with
                 | None => ret None
                 | Some file_oid =>
                     let* blob_data := get_object file_oid in
                     match blob_data with
                     | None => ret None
                     | Some blob_data =>
                         ret (option_map (fun content => (content, file_oid))
                                         (Handler.parse_blob blob_data))
                     end
                 end
             end
         end
     end) Fixtures.minimal_store.
Proof. apply get_file_navigate. vm_compute. discriminate. Defined.
